(** * jsonslice: slicing raw JSON by a jsonpath, embedded from jsonslice.go

    The Go functions are embedded as Rocq functions over the bytes of the
    buffer.  A Go call can end in four ways here: it returns a value, it
    returns an error built by [errors.New], it panics at run time (an index or
    a slice bound out of range, a nil dereference), or it never returns.  The
    last case shows up as a loop counter of the model running out. *)

From Stdlib Require Import String Ascii DecimalString.
From Stdlib.Strings Require Import Byte.
From Stdlib Require Import List ZArith NArith Bool Arith Lia.
Import ListNotations.

Local Open Scope string_scope.
Local Open Scope list_scope.
Local Open Scope nat_scope.

(** ** Outcomes of a Go call *)

Inductive outcome (A : Type) : Type :=
| Ret (a : A)          (* normal return, err == nil *)
| Err (msg : string)   (* return nil, errors.New(msg) *)
| Panic                (* run-time panic *)
| Timeout.             (* the counter of a loop of the model ran out *)

Arguments Ret {A} a.
Arguments Err {A} msg.
Arguments Panic {A}.
Arguments Timeout {A}.

Definition bind {A B : Type} (m : outcome A) (k : A -> outcome B) : outcome B :=
  match m with
  | Ret a => k a
  | Err e => Err e
  | Panic => Panic
  | Timeout => Timeout
  end.

Notation "x <- m ;; k" := (bind m (fun x => k))
  (at level 61, m at next level, right associativity).
Notation "' p <- m ;; k" := (bind m (fun x => let 'p := x in k))
  (at level 61, p pattern, m at next level, right associativity).

(** ** Bytes, Go strings and Go ints *)

Definition dquote : byte := x22.      (* the double quote *)
Definition backslash : byte := x5c.   (* the backslash *)
Definition tab : byte := x09.         (* \t *)
Definition newline : byte := x0a.     (* \n *)
Definition creturn : byte := x0d.     (* \r *)

Notation "a =? b" := (Byte.eqb a b) : byte_scope.

(** [input[i]]: panics when [i] is not below [len(input)]. *)
Definition index (input : list byte) (i : nat) : outcome byte :=
  match nth_error input i with
  | Some b => Ret b
  | None => Panic
  end.

(** Byte addition, modulo 256 ([mark + 2] in skipValue). *)
Definition byte_add (b : byte) (n : N) : byte :=
  match Byte.of_N ((Byte.to_N b + n) mod 256) with
  | Some c => c
  | None => x00
  end.

(** Go's [int] is 64 bits wide: arithmetic wraps around. *)
Definition wrap (z : Z) : Z := ((z + 2 ^ 63) mod 2 ^ 64 - 2 ^ 63)%Z.

(** [strconv.Itoa]. *)
Definition Itoa (z : Z) : string := NilZero.string_of_int (Z.to_int z).

(** The text of the error for a missing colon holds two quote characters. *)
Definition quoteString : string := String (ascii_of_byte dquote) EmptyString.

Definition unexpectedEnd : string := "unexpected end of input".

(** ** Lexical primitives

    They read [input[i]] and [len(input)] only, so they are functions of the
    bytes the slice shows.  In each loop of the form
    [for ch := input[i]; i < l && ...; ch = input[i] { ... i++ }]
    the init statement and the post statement index the buffer before the
    condition is looked at. *)

Definition isSep (ch : byte) : bool :=
  ((ch =? ",") || (ch =? " ") || (ch =? tab) || (ch =? creturn) || (ch =? newline))%byte.

Fixpoint skipSpaces_loop (n : nat) (input : list byte) (i : nat) (ch : byte)
  : outcome nat :=
  if (i <? length input) && isSep ch then
    match n with
    | 0 => Timeout
    | S n' =>
        let i := S i in
        ch <- index input i ;;
        skipSpaces_loop n' input i ch
    end
  else Ret i.

Definition skipSpaces (input : list byte) (i : nat) : outcome nat :=
  let l := length input in
  ch <- index input i ;;
  i <- skipSpaces_loop l input i ch ;;
  if i =? l then Err unexpectedEnd else Ret i.

Fixpoint skipString_loop (n : nat) (input : list byte) (i : nat)
  (ch prev : byte) (done : bool) : outcome nat :=
  if (i <? length input) && negb done then
    match n with
    | 0 => Timeout
    | S n' =>
        let done := if ((ch =? dquote) && negb (prev =? backslash))%byte
                    then true else done in
        let prev := ch in
        let i := S i in
        ch <- index input i ;;
        skipString_loop n' input i ch prev done
    end
  else Ret i.

Definition skipString (input : list byte) (i : nat) : outcome nat :=
  let prev := dquote in
  let done := false in
  let i := S i in
  let l := length input in
  ch <- index input i ;;
  i <- skipString_loop l input i ch prev done ;;
  if i =? l then Err unexpectedEnd else Ret i.

(** The object-or-array branch of skipValue: the bracket-depth scan. *)
Fixpoint skipValue_nested (n : nat) (input : list byte) (mark unmark : byte)
  (i : nat) (ch : byte) (nested : Z) (instr : bool) (prev : byte)
  : outcome nat :=
  if (i <? length input) && negb ((ch =? unmark)%byte && (nested =? 0)%Z) then
    match n with
    | 0 => Timeout
    | S n' =>
        let '(nested, instr) :=
          if (ch =? dquote)%byte then
            (nested, if negb (prev =? backslash)%byte then negb instr else instr)
          else if negb instr then
            (if (ch =? mark)%byte then (nested + 1)%Z
             else if (ch =? unmark)%byte then (nested - 1)%Z
             else nested, instr)
          else (nested, instr) in
        let prev := ch in
        let i := S i in
        ch <- index input i ;;
        skipValue_nested n' input mark unmark i ch nested instr prev
    end
  else Ret i.

(** The number, bool, null branch of skipValue. *)
Definition isScalarEnd (ch : byte) : bool :=
  ((ch =? " ") || (ch =? tab) || (ch =? newline) || (ch =? creturn)
   || (ch =? ",") || (ch =? "}"))%byte.

Fixpoint skipValue_scalar (n : nat) (input : list byte) (i : nat) (ch : byte)
  : outcome nat :=
  if (i <? length input) && negb (isScalarEnd ch) then
    match n with
    | 0 => Timeout
    | S n' =>
        let i := S i in
        ch <- index input i ;;
        skipValue_scalar n' input i ch
    end
  else Ret i.

Definition skipValue (input : list byte) (i : nat) : outcome nat :=
  i <- skipSpaces input i ;;
  let l := length input in
  c <- index input i ;;
  if (c =? dquote)%byte then
    skipString input i
  else if ((c =? "{") || (c =? "["))%byte then
    let mark := c in
    let unmark := byte_add mark 2 in
    let nested := 0%Z in
    let instr := false in
    let prev := mark in
    let i := S i in
    ch <- index input i ;;
    i <- skipValue_nested l input mark unmark i ch nested instr prev ;;
    if i =? l then Err unexpectedEnd else Ret (S i)
  else
    ch <- index input i ;;
    skipValue_scalar l input i ch.

Definition seekToValue (input : list byte) (i : nat) : outcome nat :=
  i <- skipSpaces input i ;;
  c <- index input i ;;
  if negb (c =? ":")%byte then Err (quoteString ++ ":" ++ quoteString ++ " expected")
  else
    let i := S i in
    skipSpaces input i.

(** ** Selector tokens and the path compiler *)

Definition cArrayType : Z := Z.shiftl 1 0.   (* array node *)
Definition cArrBounded : Z := Z.shiftl 1 1.  (* bounded [x:y] or indexed [x] *)
Definition cIsTerminal : Z := Z.shiftl 1 2.  (* terminal node *)
Definition cFunction : Z := Z.shiftl 1 3.    (* function *)
Definition cSubject : Z := Z.shiftl 1 4.     (* function subject *)

#[local] Unset Elimination Schemes.
Inductive tToken : Type := mkToken {
  Key : string;
  Type_ : Z;     (* properties *)
  Left : Z;      (* >=0 index from the start, <0 backward index from the end *)
  Right : Z;     (* 0 till the end inclusive, >0 to index exclusive, <0 backward *)
  Next : option tToken
}.
#[local] Set Elimination Schemes.

Definition emptyToken : tToken := mkToken EmptyString 0 0 0 None.

Definition setKey (tok : tToken) (k : string) : tToken :=
  mkToken k (Type_ tok) (Left tok) (Right tok) (Next tok).
Definition setType (tok : tToken) (t : Z) : tToken :=
  mkToken (Key tok) t (Left tok) (Right tok) (Next tok).
Definition setLeft (tok : tToken) (n : Z) : tToken :=
  mkToken (Key tok) (Type_ tok) n (Right tok) (Next tok).
Definition setRight (tok : tToken) (n : Z) : tToken :=
  mkToken (Key tok) (Type_ tok) (Left tok) n (Next tok).
Definition setNext (tok : tToken) (n : option tToken) : tToken :=
  mkToken (Key tok) (Type_ tok) (Left tok) (Right tok) n.

(** [tok.Type |= c] *)
Definition orType (tok : tToken) (c : Z) : tToken :=
  setType tok (Z.lor (Type_ tok) c).

(** [tok.Type&c > 0] *)
Definition hasFlag (tok : tToken) (c : Z) : bool :=
  (Z.land (Type_ tok) c >? 0)%Z.

(** readNumber returns the array index specified in array bound clause *)
Definition isDigit (ch : byte) : bool :=
  ((Byte.to_N "0" <=? Byte.to_N ch) && (Byte.to_N ch <=? Byte.to_N "9"))%N.

Definition digitOf (ch : byte) : Z :=
  (Z.of_N (Byte.to_N ch) - Z.of_N (Byte.to_N "0"))%Z.

Fixpoint readNumber_loop (n : nat) (path : list byte) (i : nat) (ch : byte)
  (sign ind : Z) : outcome (Z * nat) :=
  if (i <? length path) && ((ch =? "-")%byte || isDigit ch) then
    match n with
    | 0 => Timeout
    | S n' =>
        let '(sign, ind) :=
          if (ch =? "-")%byte then ((-1)%Z, ind)
          else (sign, wrap (ind * 10 + digitOf ch)) in
        let i := S i in
        ch <- index path i ;;
        readNumber_loop n' path i ch sign ind
    end
  else Ret (wrap (ind * sign), i).

Definition readNumber (path : list byte) (i : nat) : outcome (Z * nat) :=
  let sign := 1%Z in
  let l := length path in
  let ind := 0%Z in
  ch <- index path i ;;
  readNumber_loop l path i ch sign ind.

(** The key scan of parsePath: [for ; i < l && path[i] != '.' && ...; i++ {}]. *)
Definition isKeyEnd (c : byte) : bool :=
  ((c =? ".") || (c =? "[") || (c =? "("))%byte.

Fixpoint scanKey (n : nat) (path : list byte) (i : nat) : outcome nat :=
  if i <? length path then
    c <- index path i ;;
    if negb (isKeyEnd c) then
      match n with
      | 0 => Timeout
      | S n' => scanKey n' path (S i)
      end
    else Ret i
  else Ret i.

(** The function clause of parsePath.  [inl tok] is a [return tok, nil];
    [inr (tok, i)] goes on with the statements after the clause. *)
Definition parseFunction (path : list byte) (tok : tToken) (i : nat)
  : outcome (tToken + tToken * nat) :=
  let l := length path in
  c <- index path i ;;
  isCall <- (if (c =? "(")%byte && (i <? l)
             then c1 <- index path (i + 1) ;; Ret (c1 =? ")")%byte
             else Ret false) ;;
  if isCall then
    if (Key tok =? "length")%string || (Key tok =? "size")%string then
      let tok := orType tok cFunction in
      let i := i + 2 in
      if i =? l then Ret (inl (orType tok cIsTerminal))
      else Ret (inr (tok, i))
    else Err ("path: unknown function " ++ Key tok ++ "()")
  else Ret (inr (tok, i)).

(** The array clause of parsePath, with the same convention. *)
Definition parseBrackets (path : list byte) (tok : tToken) (i : nat)
  : outcome (tToken + tToken * nat) :=
  let l := length path in
  c <- index path i ;;
  if (c =? "[")%byte then
    let tok := setType tok cArrayType in
    let i := S i in
    '(ind, i) <- readNumber path i ;;
    missing <- (if i =? l then Ret true
                else c <- index path i ;;
                     Ret (negb (c =? ":")%byte && negb (c =? "]")%byte)) ;;
    if (missing : bool) then Err "path: index bound missing" else
    let tok := setLeft tok ind in
    c <- index path i ;;
    '(tok, i) <-
      (if (c =? ":")%byte then
         let tok := orType tok cArrBounded in
         let i := S i in
         '(ind, ii) <- readNumber path i ;;
         if (ind =? 0)%Z && (i <? ii) then
           Err "path: 0 as a second bound does not make sense"
         else
           missing <- (if ii =? l then Ret true
                       else c <- index path ii ;; Ret (negb (c =? "]")%byte)) ;;
           if (missing : bool) then Err "path: index bound missing" else
           let i := ii in
           Ret (setRight tok ind, i)
       else Ret (tok, i)) ;;
    let i := S i in
    if i =? l then Ret (inl (orType tok cIsTerminal))
    else Ret (inr (tok, i))
  else Ret (inr (tok, i)).

(** The body of parsePath; [self] stands for the call of parsePath on
    [path[i:]]. *)
Definition parsePath_body (self : list byte -> outcome tToken)
  (path : list byte) : outcome tToken :=
  let tok := emptyToken in
  let i := 0 in
  let l := length path in
  if l =? 0 then Err "path: empty" else
  i <- scanKey l path i ;;
  let tok := setKey tok (string_of_list_byte (firstn i path)) in
  if i =? l then Ret (orType tok cIsTerminal) else
  r <- parseFunction path tok i ;;
  match r with
  | inl tok => Ret tok
  | inr (tok, i) =>
  r <- parseBrackets path tok i ;;
  match r with
  | inl tok => Ret tok
  | inr (tok, i) =>
  if hasFlag tok cArrBounded && (Z.land (Type_ tok) cIsTerminal =? 0)%Z then
    Err "path: indefinite references are not yet supported"
  else
  c <- index path i ;;
  if negb (c =? ".")%byte then
    Err "path: invalid element reference ('.' expected)"
  else
  let i := S i in
  next <- self (skipn i path) ;;
  let tok := setNext tok (Some next) in
  let tok := if hasFlag next cFunction then orType tok cSubject else tok in
  Ret tok
  end
  end.

(** parsePath calls itself on [path[i:]] with [1 <= i <= len(path)]: the
    counter bounds the depth of that recursion. *)
Fixpoint parsePath_rec (fuel : nat) (path : list byte) : outcome tToken :=
  match fuel with
  | 0 => Timeout
  | S fuel' => parsePath_body (parsePath_rec fuel') path
  end.

Definition parsePath (path : list byte) : outcome tToken :=
  parsePath_rec (S (length path)) path.

(** ** Go slices over backing arrays

    A [[]byte] is a window on a backing array.  Re-slicing shares the array,
    and [append] writes into it whenever the capacity allows, so the arrays
    live in a store that the evaluator threads through. *)

Record slice : Type := mkSlice {
  arr : nat;   (* which backing array *)
  off : nat;   (* where the window starts in it *)
  len : nat;
  cap : nat
}.

Definition heap : Type := list (list byte).

Definition arrayOf (h : heap) (s : slice) : list byte := nth (arr s) h [].

(** The bytes a slice shows: [s[0], ..., s[len(s)-1]]. *)
Definition bytes (h : heap) (s : slice) : list byte :=
  firstn (len s) (skipn (off s) (arrayOf h s)).

(** [s[lo:hi]]: for a slice the upper bound is the capacity. *)
Definition reslice (s : slice) (lo hi : nat) : outcome slice :=
  if (lo <=? hi) && (hi <=? cap s)
  then Ret (mkSlice (arr s) (off s + lo) (hi - lo) (cap s - lo))
  else Panic.

(** A new backing array holding [data]. *)
Definition alloc (h : heap) (data : list byte) : slice * heap :=
  (mkSlice (length h) 0 (length data) (length data), h ++ [data]).

Fixpoint updateArray (h : heap) (a : nat) (f : list byte -> list byte) : heap :=
  match h, a with
  | [], _ => []
  | x :: h', 0 => f x :: h'
  | x :: h', S a' => x :: updateArray h' a' f
  end.

(** Overwrite the array from position [p] on with [data]. *)
Definition overwrite (p : nat) (data old : list byte) : list byte :=
  firstn p old ++ data ++ skipn (p + length data) old.

(** [append(s, data...)]: in place when the capacity allows it, else into a
    new array. *)
Definition append (h : heap) (s : slice) (data : list byte) : slice * heap :=
  if len s + length data <=? cap s then
    (mkSlice (arr s) (off s) (len s + length data) (cap s),
     updateArray h (arr s) (overwrite (off s + len s) data))
  else alloc h (bytes h s ++ data).

(** ** The evaluator *)

Inductive keyState : Type := keySeek | keyOpen | keyClose.

Definition isKeyClose (s : keyState) : bool :=
  match s with keyClose => true | _ => false end.

(** The inner loop of getKeyValue: reads one quoted key. *)
Fixpoint readKey_loop (n : nat) (input : list byte) (i : nat) (ch : byte)
  (state : keyState) (k : list byte) : outcome (nat * keyState * list byte) :=
  if (i <? length input) && negb (isKeyClose state) then
    match n with
    | 0 => Timeout
    | S n' =>
        let '(state, k) :=
          match state with
          | keySeek => if (ch =? dquote)%byte then (keyOpen, k) else (state, k)
          | keyOpen => if (ch =? dquote)%byte then (keyClose, k)
                       else (state, k ++ [ch])
          | keyClose => (state, k)
          end in
        let i := S i in
        ch <- index input i ;;
        readKey_loop n' input i ch state k
    end
  else Ret (i, state, k).

(** The outer loop of getKeyValue; it returns the position of the value. *)
Fixpoint getKeyValue_loop (n : nat) (input : list byte) (key : string) (i : nat)
  : outcome nat :=
  let l := length input in
  let notFound := Err ("field " ++ key ++ " not found") in
  if i <? l then
    c <- index input i ;;
    if negb (c =? "}")%byte then
      match n with
      | 0 => Timeout
      | S n' =>
          let state := keySeek in
          let k := [] in
          ch <- index input i ;;
          '(i, state, k) <- readKey_loop l input i ch state k ;;
          if isKeyClose state then
            i <- seekToValue input i ;;
            if (key =? string_of_list_byte k)%string then Ret i
            else
              i <- skipValue input i ;;
              getKeyValue_loop n' input key i
          else getKeyValue_loop n' input key i
      end
    else notFound
  else notFound.

(** getKeyValue: find the key and seek to the value *)
Definition getKeyValue (h : heap) (input : slice) (key : string) : outcome slice :=
  let bs := bytes h input in
  c <- index bs 0 ;;
  if negb (c =? "{")%byte then Err "object expected" else
  let i := 1 in
  let l := length bs in
  i <- getKeyValue_loop l bs key i ;;
  reslice input i (len input).

Record tElem : Type := mkElem { start : nat; end_ : nat }.

(** The element scan of sliceArray.  Nothing here makes [i] advance, so the
    number of rounds is a parameter. *)
Fixpoint scanElems (fuel : nat) (input : list byte) (i : nat) (ch : byte)
  (elems : list tElem) : outcome (list tElem) :=
  match fuel with
  | 0 => Timeout
  | S fuel' =>
      if (i <? length input) && negb (ch =? "]")%byte then
        e <- skipValue input i ;;
        let elems := elems ++ [mkElem i e] in
        i <- skipSpaces input e ;;
        ch <- index input i ;;
        scanElems fuel' input i ch elems
      else Ret elems
  end.

(** [elems[a]] *)
Definition elemAt (elems : list tElem) (a : Z) : outcome tElem :=
  if (a <? 0)%Z then Panic
  else match nth_error elems (Z.to_nat a) with
       | Some e => Ret e
       | None => Panic
       end.

(** sliceArray select node(s) by bound(s) *)
Definition sliceArray (fuel : nat) (h : heap) (input : slice) (tok : tToken)
  : outcome (slice * heap) :=
  let bs := bytes h input in
  let l := length bs in
  c <- index bs 0 ;;
  if negb (c =? "[")%byte then Err ("array not found at " ++ Key tok) else
  let i := 1 in
  ch <- index bs i ;;
  elems <- scanElems fuel bs i ch [] ;;
  let count := Z.of_nat (length elems) in
  if (Z.land (Type_ tok) cArrBounded =? 0)%Z then
    let a := Left tok in
    let a := if (a <? 0)%Z then wrap (a + count) else a in
    if ((a <? 0) || (a >=? count))%Z then
      Err (Key tok ++ "[" ++ Itoa (Left tok) ++ "] does not exist")
    else
      ea <- elemAt elems a ;;
      r <- reslice input (start ea) (end_ ea) ;;
      Ret (r, h)
  else
    let a := Left tok in
    let b := Right tok in
    let b := if (b =? 0)%Z then count else b in
    let a := if (a <? 0)%Z then wrap (a + count) else a in
    let b := if (b <? 0)%Z then wrap (b + count) else b in
    let b := wrap (b - 1) in
    if ((a <? 0) || (a >=? count) || (b <? 0) || (b >=? count))%Z then
      Err (Key tok ++ "[" ++ Itoa (Left tok) ++ ":" ++ Itoa (Right tok)
           ++ "] does not exist")
    else
      let '(open, h) := alloc h ["["%byte] in
      ea <- elemAt elems a ;;
      eb <- elemAt elems b ;;
      r <- reslice input (start ea) (end_ eb) ;;
      let '(inner, h) := append h r ["]"%byte] in
      Ret (append h open (bytes h inner)).

Definition checkValueType (input : list byte) (tok : tToken) : outcome unit :=
  if length input <? 2 then Err unexpectedEnd else
  if hasFlag tok cSubject then Ret tt else
  ch <- index input 0 ;;
  let notArray := (Z.land (Type_ tok) cArrayType =? 0)%Z in
  let notTerminal := (Z.land (Type_ tok) cIsTerminal =? 0)%Z in
  if (ch =? "[")%byte && notArray && notTerminal then
    Err ("object expected at " ++ Key tok)
  else if (ch =? "{")%byte && hasFlag tok cArrayType then
    Err ("array expected at " ++ Key tok)
  else if negb (ch =? "{")%byte && negb (ch =? "[")%byte && notTerminal then
    Err ("complex type expected at " ++ Key tok)
  else Ret tt.

(** The element count of length(): the loop of sliceArray without the spans. *)
Fixpoint countElems (fuel : nat) (input : list byte) (i : nat) (ch : byte)
  (result : Z) : outcome Z :=
  match fuel with
  | 0 => Timeout
  | S fuel' =>
      if (i <? length input) && negb (ch =? "]")%byte then
        e <- skipValue input i ;;
        let result := wrap (result + 1) in
        i <- skipSpaces input e ;;
        ch <- index input i ;;
        countElems fuel' input i ch result
      else Ret result
  end.

(** doFunc is called with [tok.Next], which may be nil. *)
Definition doFunc (fuel : nat) (h : heap) (input : slice) (tok : option tToken)
  : outcome (slice * heap) :=
  match tok with
  | None => Panic
  | Some tok =>
      let bs := bytes h input in
      result <-
        (if (Key tok =? "size")%string then
           r <- skipValue bs 0 ;; Ret (Z.of_nat r)
         else if (Key tok =? "length")%string then
           c <- index bs 0 ;;
           if (c =? dquote)%byte then
             r <- skipString bs 0 ;; Ret (Z.of_nat r)
           else if (c =? "[")%byte then
             let i := 1 in
             ch <- index bs i ;;
             countElems fuel bs i ch 0%Z
           else Err "length() is only applicable to array or string"
         else Ret 0%Z) ;;
      Ret (alloc h (list_byte_of_string (Itoa result)))
  end.

(** The first statements of getValue, up to the use of [tok]. *)
Definition getValue_enter (h : heap) (input : slice) : outcome slice :=
  i <- skipSpaces (bytes h input) 0 ;;
  input <- reslice input i (len input) ;;
  if len input =? 0 then Err unexpectedEnd else
  c <- index (bytes h input) 0 ;;
  if negb (c =? "{")%byte && negb (c =? "[")%byte
  then Err "object or array expected"
  else Ret input.

Fixpoint getValue (fuel : nat) (h : heap) (input : slice) (tok : tToken)
  {struct tok} : outcome (slice * heap) :=
  input <- getValue_enter h input ;;
  input <- (if negb (Key tok =? "$")%string
            then getKeyValue h input (Key tok)
            else Ret input) ;;
  _ <- checkValueType (bytes h input) tok ;;
  if hasFlag tok cSubject then doFunc fuel h input (Next tok) else
  if hasFlag tok cIsTerminal then
    if hasFlag tok cArrayType then sliceArray fuel h input tok
    else
      eoe <- skipValue (bytes h input) 0 ;;
      r <- reslice input 0 eoe ;;
      Ret (r, h)
  else
    '(input, h) <- (if hasFlag tok cArrayType
                    then sliceArray fuel h input tok
                    else Ret (input, h)) ;;
    match Next tok with
    | Some next => getValue fuel h input next
    | None =>
        (* getValue(input, nil): [tok.Key] is a nil dereference *)
        _ <- getValue_enter h input ;; Panic
    end.

(** Get the jsonpath subset of the input *)
Definition Get (fuel : nat) (h : heap) (input : slice) (path : string)
  : outcome (slice * heap) :=
  c <- index (list_byte_of_string path) 0 ;;
  if negb (c =? "$")%byte then Err "path: $ expected" else
  tokens <- parsePath (list_byte_of_string path) ;;
  getValue fuel h input tokens.

(** ** Functions of the file that Get does not call *)

(** sliceValue: slice a single value *)
Definition sliceValue (h : heap) (input : slice) : outcome slice :=
  eoe <- skipValue (bytes h input) 0 ;;
  reslice input 0 eoe.

(** getValues: get (sub-)values from array *)
Definition getValues (input : slice) (tok : tToken) : outcome slice :=
  Err "not yet supported".

(** The three states of nextKey are bits of [status]; the constants are
    those of getKeyValue. *)
Definition keySeekBit : Z := 1.
Definition keyOpenBit : Z := 2.
Definition keyCloseBit : Z := 4.

(** The loop of nextKey, [for l := len(input); i < l; i++]: it tests
    [i < l] before it reads [input[i]].  A nil key is [None]. *)
Fixpoint nextKey_loop (n : nat) (input : list byte) (i : nat) (status : Z)
  (key : list byte) : outcome (option (list byte) * nat) :=
  if i <? length input then
    match n with
    | 0 => Timeout
    | S n' =>
        ch <- index input i ;;
        if (Z.land status keyOpenBit >? 0)%Z then
          if (ch =? dquote)%byte then
            let status := (status - keyOpenBit)%Z in
            let status := Z.lor status keyCloseBit in
            nextKey_loop n' input (S i) status key
          else
            let key := key ++ [ch] in
            nextKey_loop n' input (S i) status key
        else if (Z.land status keySeekBit >? 0)%Z && (ch =? dquote)%byte then
          let status := (status - keySeekBit)%Z in
          let status := Z.lor status keyOpenBit in
          nextKey_loop n' input (S i) status key
        else if (Z.land status keyCloseBit >? 0)%Z && (ch =? ":")%byte then
          Ret (Some key, i + 1)
        else nextKey_loop n' input (S i) status key
    end
  else Ret (None, i).

(** get input and current value position;
    return next key and new value position *)
Definition nextKey (input : list byte) (i : nat)
  : outcome (option (list byte) * nat) :=
  let status := keySeekBit in
  let key := [] in
  nextKey_loop (length input) input i status key.

(** ** Running the evaluator on a buffer

    [json] writes a buffer with apostrophes where the JSON text has double
    quotes.  [run] calls Get on a buffer that fills its own backing array
    and gives back the bytes of the result together with the bytes of the
    caller's buffer after the call. *)

Definition json (s : string) : list byte :=
  map (fun b => if (b =? "'")%byte then dquote else b) (list_byte_of_string s).

Definition text (bs : list byte) : string := string_of_list_byte bs.

Definition whole (buf : list byte) : slice :=
  mkSlice 0 0 (length buf) (length buf).

Definition run (fuel : nat) (buf : list byte) (path : string)
  : outcome (string * string) :=
  '(r, h) <- Get fuel [buf] (whole buf) path ;;
  Ret (text (bytes h r), text (nth 0 h [])).

(** ** Vocabulary of the statements *)

(** [refines a b]: the outcome [b] is the outcome [a], unless [a] ran out of
    rounds. *)
Definition refines {A : Type} (a b : outcome A) : Prop := a = Timeout \/ a = b.

(** Induction along a chain of tokens. *)
Fixpoint tToken_chain_ind (P : tToken -> Prop)
  (Hlast : forall k t l r, P (mkToken k t l r None))
  (Hnext : forall k t l r next, P next -> P (mkToken k t l r (Some next)))
  (tok : tToken) : P tok :=
  match tok with
  | mkToken k t l r None => Hlast k t l r
  | mkToken k t l r (Some next) =>
      Hnext k t l r next (tToken_chain_ind P Hlast Hnext next)
  end.

(** The error of seekToValue. *)
Definition colonExpected : string :=
  quoteString ++ ":" ++ quoteString ++ " expected".

(** The minus sign. *)
Definition isMinus (ch : byte) : bool := (ch =? "-")%byte.

(** The characters readNumber consumes. *)
Definition isNumeral (ch : byte) : bool := isMinus ch || isDigit ch.

(** One round of the loop of readNumber on the state [(sign, ind)]. *)
Definition numStep (st : Z * Z) (ch : byte) : Z * Z :=
  let '(sign, ind) := st in
  if isMinus ch then ((-1)%Z, ind) else (sign, wrap (ind * 10 + digitOf ch)).

(** What readNumber yields on the numeral [s], in 64-bit arithmetic. *)
Definition numeralInt (s : list byte) : Z :=
  let '(sign, ind) := fold_left numStep s (1%Z, 0%Z) in wrap (ind * sign).

(** The digits of a numeral read as one decimal number. *)
Definition decimal (digits : list byte) : Z :=
  fold_left (fun acc ch => (acc * 10 + digitOf ch)%Z) digits 0%Z.

(** Reading the digits from an accumulator [acc]. *)
Definition decimalFrom (acc : Z) (digits : list byte) : Z :=
  fold_left (fun acc ch => (acc * 10 + digitOf ch)%Z) digits acc.

(** A key holds none of the characters that end the key scan. *)
Definition plainKey (key : list byte) : bool :=
  forallb (fun c => negb (isKeyEnd c)) key.

(** The member accesses [k1.k2. ... .] in front of the last segment. *)
Definition dotted (keys : list (list byte)) : list byte :=
  concat (map (fun k => k ++ ["."%byte]) keys).

(** The chain parsePath builds for them, ending in the token [last]. *)
Definition memberChain (keys : list (list byte)) (last : tToken) : tToken :=
  fold_right (fun k next => mkToken (string_of_list_byte k) 0 0 0 (Some next))
    last keys.

(** The tokens of a chain, from its head to its last token. *)
Fixpoint tokens (tok : tToken) : list tToken :=
  tok :: match Next tok with
         | Some next => tokens next
         | None => []
         end.

(** What parsePath keeps true of the chain it builds: the terminal flag sits
    on the last token and on no other, and a token whose successor is a
    function token is marked as its subject. *)
Fixpoint chainOk (tok : tToken) : Prop :=
  match Next tok with
  | None => hasFlag tok cIsTerminal = true
  | Some next =>
      hasFlag tok cIsTerminal = false
      /\ (hasFlag next cFunction = true -> hasFlag tok cSubject = true)
      /\ chainOk next
  end.

(** A function token is terminal and has no successor. *)
Definition functionTokensLast (root : tToken) : Prop :=
  forall tok, In tok (tokens root) -> hasFlag tok cFunction = true ->
    hasFlag tok cIsTerminal = true /\ Next tok = None.

(** The token before a function token is marked as its subject. *)
Definition subjectsMarked (root : tToken) : Prop :=
  forall tok next, In tok (tokens root) -> Next tok = Some next ->
    hasFlag next cFunction = true -> hasFlag tok cSubject = true.

(** A slice that fits its backing array. *)
Definition wellFormed (h : heap) (s : slice) : Prop :=
  arr s < length h /\ len s <= cap s /\ off s + cap s <= length (arrayOf h s).

(** The quote that ends a string for skipString: a quote whose preceding
    byte is not a backslash. *)
Definition closingQuote (input : list byte) (k : nat) : bool :=
  match nth_error input k, nth_error input (k - 1) with
  | Some c, Some p => (c =? dquote)%byte && negb (p =? backslash)%byte
  | _, _ => false
  end.

(** The names of the two functions of doFunc. *)
Definition isFunctionName (k : string) : Prop := k = "length" \/ k = "size".

(** What parsePath keeps true of each token: a range selector is terminal, a
    function token is named length or size, and a function subject has a
    successor, which is a function token. *)
Definition tokenOk (tok : tToken) : Prop :=
  (hasFlag tok cArrBounded = true -> hasFlag tok cIsTerminal = true)
  /\ (hasFlag tok cFunction = true -> isFunctionName (Key tok))
  /\ (hasFlag tok cSubject = true ->
      exists next, Next tok = Some next /\ hasFlag next cFunction = true).

(** Spans that lie in a buffer of [l] bytes, at or after position [lo], one
    after the other without overlap, each ending strictly before [l]. *)
Fixpoint spansFrom (l lo : nat) (elems : list tElem) : Prop :=
  match elems with
  | [] => True
  | e :: rest =>
      lo <= start e /\ start e <= end_ e /\ end_ e < l
      /\ spansFrom l (end_ e) rest
  end.

(** [within r s]: the slice [r] is a window on the bytes that [s] shows. *)
Definition within (r s : slice) : Prop :=
  arr r = arr s /\ off s <= off r /\ off r + len r <= off s + len s.


(** A byte that is not a double quote. *)
Definition notQuote (b : byte) : bool := negb (b =? dquote)%byte.

(** A byte that does not end a number, a boolean or null. *)
Definition inScalar (b : byte) : bool := negb (isScalarEnd b).

(** A byte that is not a colon. *)
Definition notColon (b : byte) : bool := negb (b =? ":")%byte.

(** A byte that is neither the opening nor the closing mark of a container. *)
Definition notMark (mark unmark b : byte) : bool :=
  negb (b =? mark)%byte && negb (b =? unmark)%byte.

(** * Properties *)

#[local] Arguments Nat.eqb : simpl nomatch.
#[local] Arguments Nat.leb : simpl nomatch.
#[local] Arguments Nat.ltb : simpl nomatch.

(** ** The scans that advance

    Every loop but the element scan increments [i] in each round and stops at
    [len(input)], so the counter the model gives it, [len(input)], is never
    used up: these functions return, fail or panic. *)

Lemma bind_not_Timeout (A B : Type) (m : outcome A) (k : A -> outcome B) :
  m <> Timeout -> (forall a, m = Ret a -> k a <> Timeout) -> bind m k <> Timeout.
Proof.
  destruct m; simpl; intros Hm Hk; try discriminate.
  - now apply Hk.
  - now elim Hm.
Qed.

Lemma index_not_Timeout (input : list byte) (i : nat) : index input i <> Timeout.
Proof. unfold index. destruct (nth_error input i); discriminate. Qed.

Lemma index_Ret (input : list byte) (i : nat) (b : byte) :
  index input i = Ret b -> i < length input.
Proof.
  unfold index. destruct (nth_error input i) eqn:E; try discriminate.
  intros _. apply nth_error_Some. congruence.
Qed.

Ltac counter_step IH :=
  apply bind_not_Timeout;
  [ apply index_not_Timeout
  | intros ? _; apply IH; lia ].

Lemma skipSpaces_loop_returns (n : nat) (input : list byte) :
  forall i ch, length input - i <= n -> skipSpaces_loop n input i ch <> Timeout.
Proof.
  induction n as [|n IH]; intros i ch Hn; simpl;
    destruct (i <? length input) eqn:Hi; simpl; try discriminate;
    destruct (isSep ch); try discriminate.
  - apply Nat.ltb_lt in Hi. lia.
  - apply Nat.ltb_lt in Hi. counter_step IH.
Qed.

Lemma skipSpaces_loop_bounds (n : nat) (input : list byte) :
  forall i ch j, i <= length input ->
    skipSpaces_loop n input i ch = Ret j -> i <= j <= length input.
Proof.
  induction n as [|n IH]; intros i ch j Hi; simpl;
    destruct (i <? length input) eqn:Hlt; simpl;
    destruct (isSep ch); try discriminate;
    try (intros [= <-]; lia).
  unfold index. destruct (nth_error input (S i)) eqn:E; simpl; try discriminate.
  intros H. apply IH in H; [lia|].
  apply Nat.ltb_lt in Hlt. lia.
Qed.

Lemma skipSpaces_returns (input : list byte) (i : nat) :
  skipSpaces input i <> Timeout.
Proof.
  unfold skipSpaces. apply bind_not_Timeout; [apply index_not_Timeout|].
  intros ch _. apply bind_not_Timeout.
  - apply skipSpaces_loop_returns. lia.
  - intros j _. destruct (j =? length input); discriminate.
Qed.

(** A successful skipSpaces lands inside the buffer, at or after [i]. *)
Lemma skipSpaces_bounds (input : list byte) (i j : nat) :
  skipSpaces input i = Ret j -> i <= j < length input.
Proof.
  unfold skipSpaces. destruct (index input i) as [ch| | |] eqn:E; simpl; try discriminate.
  apply index_Ret in E.
  destruct (skipSpaces_loop (length input) input i ch) as [k| | |] eqn:L;
    simpl; try discriminate.
  apply skipSpaces_loop_bounds in L; [|lia].
  destruct (k =? length input) eqn:K; try discriminate.
  intros [= <-]. apply Nat.eqb_neq in K. lia.
Qed.

Lemma skipString_loop_returns (n : nat) (input : list byte) :
  forall i ch prev done, length input - i <= n ->
    skipString_loop n input i ch prev done <> Timeout.
Proof.
  induction n as [|n IH]; intros i ch prev done Hn; simpl;
    destruct (i <? length input) eqn:Hi; simpl; try discriminate;
    destruct done; simpl; try discriminate;
    apply Nat.ltb_lt in Hi; try lia.
  counter_step IH.
Qed.

Lemma skipString_loop_bounds (n : nat) (input : list byte) :
  forall i ch prev done j, i <= length input ->
    skipString_loop n input i ch prev done = Ret j -> i <= j <= length input.
Proof.
  induction n as [|n IH]; intros i ch prev done j Hi; simpl;
    destruct (i <? length input) eqn:Hlt; simpl;
    destruct done; simpl; try discriminate;
    try (intros [= <-]; lia).
  unfold index. destruct (nth_error input (S i)) eqn:E; simpl; try discriminate.
  intros H. apply IH in H; [lia|].
  apply Nat.ltb_lt in Hlt. lia.
Qed.

Lemma skipString_returns (input : list byte) (i : nat) :
  skipString input i <> Timeout.
Proof.
  unfold skipString. apply bind_not_Timeout; [apply index_not_Timeout|].
  intros ch _. apply bind_not_Timeout.
  - apply skipString_loop_returns. lia.
  - intros j _. destruct (j =? length input); discriminate.
Qed.

Lemma skipString_bounds (input : list byte) (i j : nat) :
  skipString input i = Ret j -> i < j < length input.
Proof.
  unfold skipString. destruct (index input (S i)) as [ch| | |] eqn:E; simpl; try discriminate.
  apply index_Ret in E.
  destruct (skipString_loop (length input) input (S i) ch dquote false) as [k| | |] eqn:L;
    simpl; try discriminate.
  apply skipString_loop_bounds in L; [|lia].
  destruct (k =? length input) eqn:K; try discriminate.
  intros [= <-]. apply Nat.eqb_neq in K. lia.
Qed.

Lemma skipValue_nested_returns (n : nat) (input : list byte) (mark unmark : byte) :
  forall i ch nested instr prev, length input - i <= n ->
    skipValue_nested n input mark unmark i ch nested instr prev <> Timeout.
Proof.
  induction n as [|n IH]; intros i ch nested instr prev Hn; simpl;
    destruct (i <? length input) eqn:Hi; simpl; try discriminate;
    destruct ((ch =? unmark)%byte && (nested =? 0)%Z); simpl; try discriminate;
    apply Nat.ltb_lt in Hi; try lia.
  match goal with |- context [let '(_, _) := ?p in _] => destruct p end.
  counter_step IH.
Qed.

Lemma skipValue_nested_bounds (n : nat) (input : list byte) (mark unmark : byte) :
  forall i ch nested instr prev j, i <= length input ->
    skipValue_nested n input mark unmark i ch nested instr prev = Ret j ->
    i <= j <= length input.
Proof.
  induction n as [|n IH]; intros i ch nested instr prev j Hi; simpl;
    destruct (i <? length input) eqn:Hlt; simpl;
    destruct ((ch =? unmark)%byte && (nested =? 0)%Z); simpl; try discriminate;
    try (intros [= <-]; lia).
  match goal with |- context [let '(_, _) := ?p in _] => destruct p end.
  unfold index. destruct (nth_error input (S i)) eqn:E; simpl; try discriminate.
  intros H. apply IH in H; [lia|].
  apply Nat.ltb_lt in Hlt. lia.
Qed.

Lemma skipValue_scalar_returns (n : nat) (input : list byte) :
  forall i ch, length input - i <= n -> skipValue_scalar n input i ch <> Timeout.
Proof.
  induction n as [|n IH]; intros i ch Hn; simpl;
    destruct (i <? length input) eqn:Hi; simpl; try discriminate;
    destruct (isScalarEnd ch); simpl; try discriminate;
    apply Nat.ltb_lt in Hi; try lia.
  counter_step IH.
Qed.

Lemma skipValue_scalar_bounds (n : nat) (input : list byte) :
  forall i ch j, i < length input ->
    skipValue_scalar n input i ch = Ret j -> i <= j < length input.
Proof.
  induction n as [|n IH]; intros i ch j Hi; simpl;
    destruct (i <? length input) eqn:Hlt; simpl;
    destruct (isScalarEnd ch); simpl; try discriminate;
    try (intros [= <-]; lia);
    try (apply Nat.ltb_ge in Hlt; lia).
  destruct (index input (S i)) eqn:E; simpl; try discriminate.
  apply index_Ret in E.
  intros H. apply IH in H; lia.
Qed.

Lemma skipValue_returns (input : list byte) (i : nat) :
  skipValue input i <> Timeout.
Proof.
  unfold skipValue. apply bind_not_Timeout; [apply skipSpaces_returns|].
  intros j _. apply bind_not_Timeout; [apply index_not_Timeout|].
  intros c _. destruct (c =? dquote)%byte; [apply skipString_returns|].
  destruct ((c =? "{")%byte || (c =? "[")%byte).
  - apply bind_not_Timeout; [apply index_not_Timeout|].
    intros ch _. apply bind_not_Timeout.
    + apply skipValue_nested_returns. lia.
    + intros k _. destruct (k =? length input); discriminate.
  - apply bind_not_Timeout; [apply index_not_Timeout|].
    intros ch _. apply skipValue_scalar_returns. lia.
Qed.

(** A successful skipValue ends inside the buffer or at its end, at or after
    [i]: the spans of the elements are well formed. *)
Lemma skipValue_bounds (input : list byte) (i j : nat) :
  skipValue input i = Ret j -> i <= j <= length input.
Proof.
  unfold skipValue.
  destruct (skipSpaces input i) as [k| | |] eqn:HS; simpl; try discriminate.
  apply skipSpaces_bounds in HS.
  destruct (index input k) as [c| | |] eqn:C; simpl; try discriminate.
  destruct (c =? dquote)%byte.
  { intros H. apply skipString_bounds in H. lia. }
  destruct ((c =? "{")%byte || (c =? "[")%byte).
  - destruct (index input (S k)) as [ch| | |] eqn:E; simpl; try discriminate.
    apply index_Ret in E.
    destruct (skipValue_nested (length input) input c (byte_add c 2) (S k) ch 0 false c)
      as [m| | |] eqn:L; simpl; try discriminate.
    apply skipValue_nested_bounds in L; [|lia].
    destruct (m =? length input) eqn:M; try discriminate.
    intros [= <-]. apply Nat.eqb_neq in M. lia.
  - apply index_Ret in C. intros H. apply skipValue_scalar_bounds in H; lia.
Qed.

Lemma seekToValue_returns (input : list byte) (i : nat) :
  seekToValue input i <> Timeout.
Proof.
  unfold seekToValue. apply bind_not_Timeout; [apply skipSpaces_returns|].
  intros j _. apply bind_not_Timeout; [apply index_not_Timeout|].
  intros c _. destruct (negb (c =? ":")%byte); [discriminate|].
  apply skipSpaces_returns.
Qed.

Lemma seekToValue_bounds (input : list byte) (i j : nat) :
  seekToValue input i = Ret j -> i < j < length input.
Proof.
  unfold seekToValue.
  destruct (skipSpaces input i) as [k| | |] eqn:HS; simpl; try discriminate.
  apply skipSpaces_bounds in HS.
  destruct (index input k) as [c| | |]; simpl; try discriminate.
  destruct (negb (c =? ":")%byte); try discriminate.
  intros H. apply skipSpaces_bounds in H. lia.
Qed.

Lemma readKey_loop_returns (n : nat) (input : list byte) :
  forall i ch state k, length input - i <= n ->
    readKey_loop n input i ch state k <> Timeout.
Proof.
  induction n as [|n IH]; intros i ch state k Hn; simpl;
    destruct (i <? length input) eqn:Hi; simpl; try discriminate;
    destruct (isKeyClose state); simpl; try discriminate;
    apply Nat.ltb_lt in Hi; try lia.
  match goal with |- context [let '(_, _) := ?p in _] => destruct p end.
  counter_step IH.
Qed.

Lemma readKey_loop_bounds (n : nat) (input : list byte) :
  forall i ch state k j state' k', i <= length input ->
    readKey_loop n input i ch state k = Ret (j, state', k') ->
    i <= j <= length input.
Proof.
  induction n as [|n IH]; intros i ch state k j state' k' Hi; simpl;
    destruct (i <? length input) eqn:Hlt; simpl;
    destruct (isKeyClose state); simpl; try discriminate;
    try (intros [= <- _ _]; lia).
  match goal with |- context [let '(_, _) := ?p in _] => destruct p end.
  destruct (index input (S i)) eqn:E; simpl; try discriminate.
  apply index_Ret in E.
  intros H. apply IH in H; lia.
Qed.

(** Started in state keySeek inside the buffer, the key reader makes at least
    one round. *)
Lemma readKey_loop_progress (n : nat) (input : list byte) (i : nat) (ch : byte)
  (k : list byte) (j : nat) (state' : keyState) (k' : list byte) :
  i < length input ->
  readKey_loop n input i ch keySeek k = Ret (j, state', k') ->
  i < j <= length input.
Proof.
  intros Hi. destruct n as [|n]; simpl;
    destruct (i <? length input) eqn:Hlt; simpl; try discriminate;
    try (apply Nat.ltb_ge in Hlt; lia).
  match goal with |- context [let '(_, _) := ?p in _] => destruct p end.
  destruct (index input (S i)) eqn:E; simpl; try discriminate.
  apply index_Ret in E.
  intros H. apply readKey_loop_bounds in H; lia.
Qed.

Lemma getKeyValue_loop_returns (n : nat) (input : list byte) (key : string) :
  forall i, length input - i <= n -> getKeyValue_loop n input key i <> Timeout.
Proof.
  induction n as [|n IH]; intros i Hn; simpl;
    destruct (i <? length input) eqn:Hi; simpl; try discriminate;
    apply Nat.ltb_lt in Hi; try (exfalso; lia).
  destruct (index input i) as [c| | |] eqn:C; simpl; try discriminate;
    [|now apply index_not_Timeout in C].
  destruct (negb (c =? "}")%byte); simpl; try discriminate.
  destruct (readKey_loop (length input) input i c keySeek []) as [[[j st] k]| | |] eqn:R;
    simpl; try discriminate.
  - apply readKey_loop_progress in R; [|assumption].
    destruct (isKeyClose st).
    + destruct (seekToValue input j) as [j1| | |] eqn:V; simpl; try discriminate.
      * apply seekToValue_bounds in V.
        destruct (key =? string_of_list_byte k)%string; [discriminate|].
        destruct (skipValue input j1) as [j2| | |] eqn:W; simpl; try discriminate.
        -- apply skipValue_bounds in W. apply IH. lia.
        -- now apply skipValue_returns in W.
      * now apply seekToValue_returns in V.
    + apply IH. lia.
  - apply readKey_loop_returns in R; [easy|lia].
Qed.

(** The key lookup returns on every buffer: each round of its outer loop
    moves [i] forward by at least one byte. *)
Lemma getKeyValue_returns (h : heap) (input : slice) (key : string) :
  getKeyValue h input key <> Timeout.
Proof.
  unfold getKeyValue. apply bind_not_Timeout; [apply index_not_Timeout|].
  intros c _. destruct (negb (c =? "{")%byte); [discriminate|].
  apply bind_not_Timeout; [apply getKeyValue_loop_returns; lia|].
  intros i _. unfold reslice.
  destruct ((i <=? len input) && (len input <=? cap input)); discriminate.
Qed.

Lemma readNumber_loop_returns (n : nat) (path : list byte) :
  forall i ch sign ind, length path - i <= n ->
    readNumber_loop n path i ch sign ind <> Timeout.
Proof.
  induction n as [|n IH]; intros i ch sign ind Hn; simpl;
    destruct (i <? length path) eqn:Hi; simpl; try discriminate;
    destruct ((ch =? "-")%byte || isDigit ch); simpl; try discriminate;
    apply Nat.ltb_lt in Hi; try lia.
  match goal with |- context [let '(_, _) := ?p in _] => destruct p end.
  counter_step IH.
Qed.

Lemma readNumber_returns (path : list byte) (i : nat) :
  readNumber path i <> Timeout.
Proof.
  unfold readNumber. apply bind_not_Timeout; [apply index_not_Timeout|].
  intros ch _. apply readNumber_loop_returns. lia.
Qed.

Lemma scanKey_returns (n : nat) (path : list byte) :
  forall i, length path - i <= n -> scanKey n path i <> Timeout.
Proof.
  induction n as [|n IH]; intros i Hn; simpl;
    destruct (i <? length path) eqn:Hi; simpl; try discriminate;
    apply Nat.ltb_lt in Hi; try (exfalso; lia).
  destruct (index path i) as [c| | |] eqn:C; simpl; try discriminate;
    [|now apply index_not_Timeout in C].
  destruct (negb (isKeyEnd c)); [|discriminate].
  apply IH. lia.
Qed.

Lemma scanKey_bounds (n : nat) (path : list byte) :
  forall i j, i <= length path -> scanKey n path i = Ret j -> i <= j <= length path.
Proof.
  induction n as [|n IH]; intros i j Hi; simpl;
    destruct (i <? length path) eqn:Hlt; simpl;
    try (intros [= <-]; lia);
    apply Nat.ltb_lt in Hlt;
    destruct (index path i) as [c| | |]; simpl; try discriminate;
    destruct (negb (isKeyEnd c)); try discriminate;
    try (intros [= <-]; lia).
  intros H. apply IH in H; lia.
Qed.

Lemma parseFunction_returns (path : list byte) (tok : tToken) (i : nat) :
  parseFunction path tok i <> Timeout.
Proof.
  unfold parseFunction. apply bind_not_Timeout; [apply index_not_Timeout|].
  intros c _. apply bind_not_Timeout.
  - destruct ((c =? "(")%byte && (i <? length path)); [|discriminate].
    apply bind_not_Timeout; [apply index_not_Timeout|]. discriminate.
  - intros [|] _; [|discriminate].
    destruct ((Key tok =? "length")%string || (Key tok =? "size")%string);
      [|discriminate].
    destruct (i + 2 =? length path); discriminate.
Qed.

Lemma parseBrackets_returns (path : list byte) (tok : tToken) (i : nat) :
  parseBrackets path tok i <> Timeout.
Proof.
  unfold parseBrackets. apply bind_not_Timeout; [apply index_not_Timeout|].
  intros c _. destruct (c =? "[")%byte; [|discriminate].
  apply bind_not_Timeout; [apply readNumber_returns|].
  intros [ind j] _. apply bind_not_Timeout.
  { destruct (j =? length path); [discriminate|].
    apply bind_not_Timeout; [apply index_not_Timeout|]. discriminate. }
  intros [|] _; [discriminate|].
  apply bind_not_Timeout; [apply index_not_Timeout|].
  intros c1 _. apply bind_not_Timeout.
  - destruct (c1 =? ":")%byte; [|discriminate].
    apply bind_not_Timeout; [apply readNumber_returns|].
    intros [ind2 ii] _.
    destruct ((ind2 =? 0)%Z && (S j <? ii)); [discriminate|].
    apply bind_not_Timeout.
    { destruct (ii =? length path); [discriminate|].
      apply bind_not_Timeout; [apply index_not_Timeout|]. discriminate. }
    intros [|] _; discriminate.
  - intros [tok1 i1] _. destruct (S i1 =? length path); discriminate.
Qed.

(** The clauses hand over a position inside the path. *)
Lemma parseFunction_bounds (path : list byte) (tok tok' : tToken) (i i' : nat) :
  i < length path ->
  parseFunction path tok i = Ret (inr (tok', i')) -> i' < length path.
Proof.
  unfold parseFunction. intros Hi.
  destruct (index path i) as [c| | |]; simpl; try discriminate.
  destruct ((c =? "(")%byte && (i <? length path)); simpl.
  - destruct (index path (i + 1)) as [c1| | |] eqn:E; simpl; try discriminate.
    apply index_Ret in E.
    destruct (c1 =? ")")%byte.
    + destruct ((Key tok =? "length")%string || (Key tok =? "size")%string);
        try discriminate.
      destruct (i + 2 =? length path) eqn:L; try discriminate.
      apply Nat.eqb_neq in L. intros [= _ <-]. lia.
    + intros [= _ <-]. lia.
  - intros [= _ <-]. lia.
Qed.

Lemma parseBrackets_bounds (path : list byte) (tok tok' : tToken) (i i' : nat) :
  parseBrackets path tok i = Ret (inr (tok', i')) -> i' < length path.
Proof.
  unfold parseBrackets.
  destruct (index path i) as [c| | |] eqn:C; simpl; try discriminate.
  apply index_Ret in C.
  destruct (c =? "[")%byte; [|now intros [= _ <-]].
  destruct (readNumber path (S i)) as [[ind j]| | |]; simpl; try discriminate.
  destruct (j =? length path); simpl; try discriminate.
  destruct (index path j) as [c1| | |] eqn:C1; simpl; try discriminate.
  apply index_Ret in C1.
  destruct (negb (c1 =? ":")%byte && negb (c1 =? "]")%byte); try discriminate.
  destruct (c1 =? ":")%byte; simpl.
  - destruct (readNumber path (S j)) as [[ind2 ii]| | |]; simpl; try discriminate.
    destruct ((ind2 =? 0)%Z && (S j <? ii)); try discriminate.
    destruct (ii =? length path); simpl; try discriminate.
    destruct (index path ii) as [c2| | |] eqn:C2; simpl; try discriminate.
    apply index_Ret in C2.
    destruct (negb (c2 =? "]")%byte); simpl; try discriminate.
    destruct (S ii =? length path) eqn:L; simpl; try discriminate.
    apply Nat.eqb_neq in L. intros [= _ <-]. lia.
  - destruct (S j =? length path) eqn:L; simpl; try discriminate.
    apply Nat.eqb_neq in L. intros [= _ <-]. lia.
Qed.

(** The body looks at [self] on strictly shorter paths only. *)
Lemma parsePath_body_ext (f g : list byte -> outcome tToken) (path : list byte) :
  (forall p, length p < length path -> f p = g p) ->
  parsePath_body f path = parsePath_body g path.
Proof.
  intros Hfg. unfold parsePath_body.
  destruct (length path =? 0) eqn:L0; [reflexivity|]. apply Nat.eqb_neq in L0.
  destruct (scanKey (length path) path 0) as [i| | |]; simpl; try reflexivity.
  destruct (i =? length path); [reflexivity|].
  destruct (parseFunction path _ i) as [[t|[t i1]]| | |]; simpl; try reflexivity.
  destruct (parseBrackets path t i1) as [[t2|[t2 i2]]| | |]; simpl; try reflexivity.
  destruct (hasFlag t2 cArrBounded && _); [reflexivity|].
  destruct (index path i2) as [c| | |]; simpl; try reflexivity.
  destruct (negb (c =? ".")%byte); [reflexivity|].
  rewrite Hfg; [reflexivity|].
  change (length (skipn (S i2) path) < length path).
  rewrite length_skipn. lia.
Qed.

Lemma parsePath_rec_fuel (n : nat) :
  forall m path, length path < n -> length path < m ->
    parsePath_rec n path = parsePath_rec m path.
Proof.
  induction n as [|n IH]; intros [|m] path Hn Hm; try lia.
  simpl. apply parsePath_body_ext. intros p Hp. apply IH; lia.
Qed.

(** parsePath satisfies the equation its source text reads as. *)
Lemma parsePath_eq (path : list byte) :
  parsePath path = parsePath_body parsePath path.
Proof.
  unfold parsePath at 1. simpl. apply parsePath_body_ext.
  intros p Hp. unfold parsePath. apply parsePath_rec_fuel; lia.
Qed.

Lemma parsePath_rec_returns (n : nat) :
  forall path, length path < n -> parsePath_rec n path <> Timeout.
Proof.
  induction n as [|n IH]; intros path Hn; [lia|].
  simpl. unfold parsePath_body.
  destruct (length path =? 0) eqn:L0; [discriminate|]. apply Nat.eqb_neq in L0.
  apply bind_not_Timeout; [apply scanKey_returns; lia|].
  intros i _. destruct (i =? length path); [discriminate|].
  apply bind_not_Timeout; [apply parseFunction_returns|].
  intros [t|[t i1]] _; [discriminate|].
  apply bind_not_Timeout; [apply parseBrackets_returns|].
  intros [t2|[t2 i2]] _; [discriminate|].
  destruct (hasFlag t2 cArrBounded && _); [discriminate|].
  apply bind_not_Timeout; [apply index_not_Timeout|].
  intros c _. destruct (negb (c =? ".")%byte); [discriminate|].
  apply bind_not_Timeout.
  - apply IH. change (length (skipn (S i2) path) < n).
    rewrite length_skipn. lia.
  - intros next _. discriminate.
Qed.

(** The path compiler returns on every path: a chain, an error or a panic. *)
Lemma parsePath_returns (path : list byte) : parsePath path <> Timeout.
Proof. apply parsePath_rec_returns. lia. Qed.

(** ** More rounds never change an answer

    [refines a b]: [b] is the outcome [a], or [a] ran out of rounds.  Only the
    element scans take the counter [fuel], and a call that answered with
    some counter answers the same with any larger one. *)

Lemma refines_refl (A : Type) (a : outcome A) : refines a a.
Proof. now right. Qed.

Lemma refines_bind (A B : Type) (m m' : outcome A) (k k' : A -> outcome B) :
  refines m m' -> (forall a, refines (k a) (k' a)) ->
  refines (bind m k) (bind m' k').
Proof.
  intros [->| ->] Hk; [now left|].
  destruct m'; simpl; try apply refines_refl. apply Hk.
Qed.

Lemma refines_answer (A : Type) (a b r : outcome A) :
  refines a b -> a = r -> r <> Timeout -> b = r.
Proof. intros [->| ->] Ha Hr; congruence. Qed.

Lemma scanElems_mono (fuel fuel' : nat) (input : list byte) :
  fuel <= fuel' ->
  forall i ch elems,
    refines (scanElems fuel input i ch elems) (scanElems fuel' input i ch elems).
Proof.
  revert fuel'. induction fuel as [|fuel IH]; intros fuel' Hle i ch elems;
    [now left|].
  destruct fuel' as [|fuel']; [lia|]. simpl.
  destruct ((i <? length input) && negb (ch =? "]")%byte); [|apply refines_refl].
  repeat (apply refines_bind; [apply refines_refl|intros ?]).
  apply IH. lia.
Qed.

Lemma countElems_mono (fuel fuel' : nat) (input : list byte) :
  fuel <= fuel' ->
  forall i ch result,
    refines (countElems fuel input i ch result) (countElems fuel' input i ch result).
Proof.
  revert fuel'. induction fuel as [|fuel IH]; intros fuel' Hle i ch result;
    [now left|].
  destruct fuel' as [|fuel']; [lia|]. simpl.
  destruct ((i <? length input) && negb (ch =? "]")%byte); [|apply refines_refl].
  repeat (apply refines_bind; [apply refines_refl|intros ?]).
  apply IH. lia.
Qed.

Lemma sliceArray_mono (fuel fuel' : nat) (h : heap) (input : slice) (tok : tToken) :
  fuel <= fuel' ->
  refines (sliceArray fuel h input tok) (sliceArray fuel' h input tok).
Proof.
  intros Hle. unfold sliceArray.
  apply refines_bind; [apply refines_refl|intros c].
  destruct (negb (c =? "[")%byte); [apply refines_refl|].
  apply refines_bind; [apply refines_refl|intros ch].
  apply refines_bind; [now apply scanElems_mono|intros elems].
  apply refines_refl.
Qed.

Lemma doFunc_mono (fuel fuel' : nat) (h : heap) (input : slice)
  (tok : option tToken) :
  fuel <= fuel' ->
  refines (doFunc fuel h input tok) (doFunc fuel' h input tok).
Proof.
  intros Hle. destruct tok as [tok|]; [|apply refines_refl]. unfold doFunc.
  apply refines_bind; [|intros; apply refines_refl].
  destruct (Key tok =? "size")%string; [apply refines_refl|].
  destruct (Key tok =? "length")%string; [|apply refines_refl].
  apply refines_bind; [apply refines_refl|intros c].
  destruct (c =? dquote)%byte; [apply refines_refl|].
  destruct (c =? "[")%byte; [|apply refines_refl].
  apply refines_bind; [apply refines_refl|intros ch].
  now apply countElems_mono.
Qed.

Lemma getValue_unfold (fuel : nat) (h : heap) (input : slice) (tok : tToken) :
  getValue fuel h input tok =
  (input <- getValue_enter h input ;;
   input <- (if negb (Key tok =? "$")%string
             then getKeyValue h input (Key tok)
             else Ret input) ;;
   _ <- checkValueType (bytes h input) tok ;;
   if hasFlag tok cSubject then doFunc fuel h input (Next tok) else
   if hasFlag tok cIsTerminal then
     if hasFlag tok cArrayType then sliceArray fuel h input tok
     else
       eoe <- skipValue (bytes h input) 0 ;;
       r <- reslice input 0 eoe ;;
       Ret (r, h)
   else
     '(input, h) <- (if hasFlag tok cArrayType
                     then sliceArray fuel h input tok
                     else Ret (input, h)) ;;
     match Next tok with
     | Some next => getValue fuel h input next
     | None => _ <- getValue_enter h input ;; Panic
     end).
Proof. destruct tok; reflexivity. Qed.

Lemma getValue_mono (fuel fuel' : nat) (tok : tToken) :
  fuel <= fuel' ->
  forall h input,
    refines (getValue fuel h input tok) (getValue fuel' h input tok).
Proof.
  intros Hle. induction tok as [k t l r|k t l r next IH] using tToken_chain_ind;
    intros h input; rewrite !getValue_unfold;
    (apply refines_bind; [apply refines_refl|intros input1]);
    (apply refines_bind; [apply refines_refl|intros input2]);
    (apply refines_bind; [apply refines_refl|intros _]);
    (destruct (hasFlag _ cSubject); [now apply doFunc_mono|]);
    (destruct (hasFlag _ cIsTerminal);
     [destruct (hasFlag _ cArrayType);
      [now apply sliceArray_mono|apply refines_refl]|]);
    (apply refines_bind;
     [destruct (hasFlag _ cArrayType);
      [now apply sliceArray_mono|apply refines_refl]|intros [input3 h3]]);
    simpl.
  - apply refines_refl.
  - apply IH.
Qed.

Lemma Get_mono (fuel fuel' : nat) (h : heap) (input : slice) (path : string) :
  fuel <= fuel' -> refines (Get fuel h input path) (Get fuel' h input path).
Proof.
  intros Hle. unfold Get.
  apply refines_bind; [apply refines_refl|intros c].
  destruct (negb (c =? "$")%byte); [apply refines_refl|].
  apply refines_bind; [apply refines_refl|intros tokens].
  now apply getValue_mono.
Qed.

(** Get has at most one answer, whatever the number of rounds allowed. *)
Lemma Get_deterministic (fuel fuel' : nat) (h : heap) (input : slice)
  (path : string) (r r' : outcome (slice * heap)) :
  Get fuel h input path = r -> r <> Timeout ->
  Get fuel' h input path = r' -> r' <> Timeout ->
  r = r'.
Proof.
  intros Hr Hnr Hr' Hnr'.
  destruct (Nat.le_ge_cases fuel fuel') as [Hle|Hle].
  - pose proof (refines_answer _ _ _ _ (Get_mono _ _ h input path Hle) Hr Hnr).
    congruence.
  - pose proof (refines_answer _ _ _ _ (Get_mono _ _ h input path Hle) Hr' Hnr').
    congruence.
Qed.

(** ** The element scan

    One round of the scan of sliceArray, and the state in which it stalls:
    at a closing brace skipValue and skipSpaces both return the position
    they were given, and the loop condition only looks for a closing
    bracket. *)

Lemma scanElems_round (fuel : nat) (input : list byte) (i : nat) (ch : byte)
  (elems : list tElem) (e i' : nat) (ch' : byte) :
  (i <? length input) && negb (ch =? "]")%byte = true ->
  skipValue input i = Ret e ->
  skipSpaces input e = Ret i' ->
  index input i' = Ret ch' ->
  scanElems (S fuel) input i ch elems
  = scanElems fuel input i' ch' (elems ++ [mkElem i e]).
Proof.
  intros Hc Hv Hs Hi. cbn [scanElems].
  rewrite Hc, Hv. cbn [bind]. rewrite Hs. cbn [bind]. now rewrite Hi.
Qed.

Lemma scanElems_exit (fuel : nat) (input : list byte) (i : nat) (ch : byte)
  (elems : list tElem) :
  (i <? length input) && negb (ch =? "]")%byte = false ->
  scanElems (S fuel) input i ch elems = Ret elems.
Proof. intros Hc. cbn [scanElems]. now rewrite Hc. Qed.

Lemma countElems_round (fuel : nat) (input : list byte) (i : nat) (ch : byte)
  (result : Z) (e i' : nat) (ch' : byte) :
  (i <? length input) && negb (ch =? "]")%byte = true ->
  skipValue input i = Ret e ->
  skipSpaces input e = Ret i' ->
  index input i' = Ret ch' ->
  countElems (S fuel) input i ch result
  = countElems fuel input i' ch' (wrap (result + 1)).
Proof.
  intros Hc Hv Hs Hi. cbn [countElems].
  rewrite Hc, Hv. cbn [bind]. rewrite Hs. cbn [bind]. now rewrite Hi.
Qed.

Lemma skipSpaces_at_brace (input : list byte) (i : nat) :
  index input i = Ret "}"%byte -> skipSpaces input i = Ret i.
Proof.
  intros Hi. unfold skipSpaces. rewrite Hi. simpl.
  apply index_Ret in Hi.
  replace (skipSpaces_loop (length input) input i "}") with (@Ret nat i).
  - simpl. destruct (i =? length input) eqn:E; [|reflexivity].
    apply Nat.eqb_eq in E. lia.
  - destruct (length input); simpl; now rewrite andb_false_r.
Qed.

Lemma skipValue_at_brace (input : list byte) (i : nat) :
  index input i = Ret "}"%byte -> skipValue input i = Ret i.
Proof.
  intros Hi. unfold skipValue. rewrite (skipSpaces_at_brace _ _ Hi). simpl.
  rewrite Hi. simpl.
  destruct (length input); simpl; now rewrite andb_false_r.
Qed.

(** Once the scan stands on a closing brace it makes no progress: every
    round appends the empty span and comes back to the same position. *)
Lemma scanElems_stalls (input : list byte) (i : nat) :
  index input i = Ret "}"%byte ->
  forall fuel elems, scanElems fuel input i "}" elems = Timeout.
Proof.
  intros Hi. induction fuel as [|fuel IH]; intros elems; [reflexivity|].
  rewrite (scanElems_round fuel input i "}" elems i i "}"); auto.
  - apply index_Ret in Hi. apply Nat.ltb_lt in Hi. now rewrite Hi.
  - now apply skipValue_at_brace.
  - now apply skipSpaces_at_brace.
Qed.

Lemma countElems_stalls (input : list byte) (i : nat) :
  index input i = Ret "}"%byte ->
  forall fuel result, countElems fuel input i "}" result = Timeout.
Proof.
  intros Hi. induction fuel as [|fuel IH]; intros result; [reflexivity|].
  rewrite (countElems_round fuel input i "}" result i i "}"); auto.
  - apply index_Ret in Hi. apply Nat.ltb_lt in Hi. now rewrite Hi.
  - now apply skipValue_at_brace.
  - now apply skipSpaces_at_brace.
Qed.

(** A scan that is given a position inside the buffer never ends at
    [len(input)]: the post statement [ch = input[i]] has panicked before.
    So the test [i == l] after the loop of skipSpaces is never true. *)
Lemma skipSpaces_loop_inside (n : nat) (input : list byte) :
  forall i ch j, i < length input ->
    skipSpaces_loop n input i ch = Ret j -> j < length input.
Proof.
  induction n as [|n IH]; intros i ch j Hi; simpl;
    destruct ((i <? length input) && isSep ch); try discriminate;
    try (intros [= <-]; assumption).
  destruct (index input (S i)) as [c| | |] eqn:E; simpl; try discriminate.
  apply index_Ret in E. now apply IH.
Qed.

Lemma skipSpaces_Ret_or_Panic (input : list byte) (i : nat) :
  (exists j, skipSpaces input i = Ret j) \/ skipSpaces input i = Panic.
Proof.
  unfold skipSpaces.
  destruct (index input i) as [ch| | |] eqn:E; simpl; auto;
    try (now apply index_not_Timeout in E);
    try (unfold index in E; destruct (nth_error input i); discriminate).
  apply index_Ret in E.
  destruct (skipSpaces_loop (length input) input i ch) as [j| | |] eqn:L;
    simpl; auto.
  - apply skipSpaces_loop_inside in L; [|assumption].
    destruct (j =? length input) eqn:J; [|eauto].
    apply Nat.eqb_eq in J. lia.
  - exfalso. clear E. revert i ch L.
    generalize (length input) at 1 as n.
    induction n as [|n IH]; intros i ch; simpl;
      destruct ((i <? length input) && isSep ch); try discriminate.
    unfold index. destruct (nth_error input (S i)); simpl; try discriminate.
    apply IH.
  - now apply skipSpaces_loop_returns in L; [|lia].
Qed.

(** ** The evaluator on concrete buffers *)

(** The scan of the elements of [1,2,3,4] inside an object. *)
Lemma scan_1234 (fuel : nat) (elems : list tElem) :
  scanElems fuel (json "[1,2,3,4]}") 1 "1" elems = Timeout.
Proof.
  destruct fuel as [|fuel]; [reflexivity|].
  rewrite (scanElems_round fuel _ 1 "1" _ 2 3 "2") by reflexivity.
  destruct fuel as [|fuel]; [reflexivity|].
  rewrite (scanElems_round fuel _ 3 "2" _ 4 5 "3") by reflexivity.
  destruct fuel as [|fuel]; [reflexivity|].
  rewrite (scanElems_round fuel _ 5 "3" _ 6 7 "4") by reflexivity.
  destruct fuel as [|fuel]; [reflexivity|].
  rewrite (scanElems_round fuel _ 7 "4" _ 9 9 "}") by reflexivity.
  now apply scanElems_stalls.
Qed.

Lemma scan_1_true (fuel : nat) (elems : list tElem) :
  scanElems fuel (json "[1,true]}") 1 "1" elems = Timeout.
Proof.
  destruct fuel as [|fuel]; [reflexivity|].
  rewrite (scanElems_round fuel _ 1 "1" _ 2 3 "t") by reflexivity.
  destruct fuel as [|fuel]; [reflexivity|].
  rewrite (scanElems_round fuel _ 3 "t" _ 8 8 "}") by reflexivity.
  now apply scanElems_stalls.
Qed.

Lemma scan_1_null (fuel : nat) (elems : list tElem) :
  scanElems fuel (json "[1,null]}") 1 "1" elems = Timeout.
Proof.
  destruct fuel as [|fuel]; [reflexivity|].
  rewrite (scanElems_round fuel _ 1 "1" _ 2 3 "n") by reflexivity.
  destruct fuel as [|fuel]; [reflexivity|].
  rewrite (scanElems_round fuel _ 3 "n" _ 8 8 "}") by reflexivity.
  now apply scanElems_stalls.
Qed.

Lemma count_123 (fuel : nat) (result : Z) :
  countElems fuel (json "[1,2,3]}") 1 "1" result = Timeout.
Proof.
  destruct fuel as [|fuel]; [reflexivity|].
  rewrite (countElems_round fuel _ 1 "1" _ 2 3 "2") by reflexivity.
  destruct fuel as [|fuel]; [reflexivity|].
  rewrite (countElems_round fuel _ 3 "2" _ 4 5 "3") by reflexivity.
  destruct fuel as [|fuel]; [reflexivity|].
  rewrite (countElems_round fuel _ 5 "3" _ 7 7 "}") by reflexivity.
  now apply countElems_stalls.
Qed.

(** C1: Get is to leave the bytes of the input buffer unchanged, also when
    a terminal range selector builds its bracketed result.  On the buffer
    [[1 ,2 ,3 ]] and the path [$[0:2]] the code returns [[1 ,2]] and the
    caller's buffer then reads [[1 ,2],3 ]]: the closing bracket was appended
    in place, over the byte after the last selected element. *)
Theorem C1_range_result_overwrites_input (fuel : nat) :
  let buf := json "[1 ,2 ,3 ]" in
  exists (r : slice) (h' : heap),
    Get (4 + fuel) [buf] (whole buf) "$[0:2]" = Ret (r, h')
    /\ text (bytes h' r) = "[1 ,2]"
    /\ text (nth 0 h' []) = "[1 ,2],3 ]"
    /\ nth 0 h' [] <> buf.
Proof.
  intros buf.
  destruct (Get (4 + fuel) [buf] (whole buf) "$[0:2]") as [[r h']| | |] eqn:G;
    try discriminate G.
  exists r, h'. split; [reflexivity|].
  injection G as <- <-. repeat split. discriminate.
Qed.

(** C2: every call is to terminate, the element scan of sliceArray and the
    element count of length() included, whatever the last element is.  On
    an array inside an object whose last element is a number, a boolean or
    null the scan reaches the closing brace and stalls there: no number of
    rounds gives an answer. *)
Theorem C2_element_scan_never_returns (fuel : nat) :
  run fuel (json "{'arr':[1,2,3]}") "$.arr.length()" = Timeout
  /\ run fuel (json "{'arr':[1,true]}") "$.arr[0]" = Timeout
  /\ run fuel (json "{'arr':[1,null]}") "$.arr[0:1]" = Timeout.
Proof.
  unfold run, Get. repeat split.
  - cbv -[countElems]. now rewrite count_123.
  - cbv -[scanElems]. now rewrite scan_1_true.
  - cbv -[scanElems]. now rewrite scan_1_null.
Qed.

(** C3: Get is to be total, with InvalidPath for the empty path and
    UnexpectedEnd for a buffer that ends in the middle of a scan.  The code
    panics instead: on the empty path at [path[0]]; on a buffer of
    separators, an unterminated string and a truncated array at the post
    statement [ch = input[i]] of the scanning loop. *)
Theorem C3_Get_panics (fuel : nat) :
  (forall (h : heap) (input : slice), Get fuel h input EmptyString = Panic)
  /\ run fuel (json " , ") "$" = Panic
  /\ run fuel (json "{'a':'bc") "$.a" = Panic
  /\ run fuel (json "{'a':[1,[2") "$.a" = Panic.
Proof. repeat split. Qed.

(** C4: a path that resolves to a scalar is to return exactly the bytes of
    the scalar.  For the last number of an array the code returns the
    closing bracket with it: [$.a[1]] gives [2]] where the value is [2]. *)
Theorem C4_last_number_keeps_bracket (fuel : nat) :
  run (5 + fuel) (json "{'a':[1,2],'b':[ ]}") "$.a[1]"
  = Ret ("2]", text (json "{'a':[1,2],'b':[ ]}")).
Proof. reflexivity. Qed.

(** C5: [$[-1]] on [[10,20,30]] is to give [30].  The code panics while it
    scans the third element: the scan of a number does not stop at the
    closing bracket and runs off the end of the buffer. *)
Theorem C5_last_index_panics (fuel : nat) :
  run (3 + fuel) (json "[10,20,30]") "$[-1]" = Panic.
Proof. reflexivity. Qed.

(** C6: [$.arr[1:3]] on the object whose member arr is [[1,2,3,4]] is to
    give [[2,3]].  The code
    never returns: the scan of the elements runs through the closing
    bracket, stops at the closing brace and stalls there.  And where the
    scan does end, two resolved indices inside the array with the first
    after the second make the slice expression panic. *)
Theorem C6_range_example_never_returns (fuel : nat) :
  run fuel (json "{'arr':[1,2,3,4]}") "$.arr[1:3]" = Timeout
  /\ run (4 + fuel) (json "[1 ,2 ,3 ]") "$[2:1]" = Panic.
Proof.
  split; [|reflexivity].
  unfold run, Get. cbv -[scanElems]. now rewrite scan_1234.
Qed.

(** C7: an escaped quote is not to end a string, in values and in keys.
    skipString skips a value with an escaped quote whole, but the key
    reader of getKeyValue closes a key at its escaped quote, and the lookup
    of that very key fails asking for a colon.  (Apostrophes stand for the
    double quotes of the JSON text.) *)
Theorem C7_escaped_quote_ends_key (fuel : nat) :
  skipString (json "'x\'y',") 0 = Ret 6
  /\ readKey_loop 11 (json "{'a\'b':1}") 1 dquote keySeek []
     = Ret (5, keyClose, json "a\")
  /\ run fuel (json "{'a\'b':1}") (text (json "$.a\'b")) = Err colonExpected.
Proof. repeat split. Qed.

(** ** The number reader *)

Lemma index_at (path pre : list byte) (c : byte) (rest : list byte) (i : nat) :
  path = pre ++ c :: rest -> i = length pre -> index path i = Ret c.
Proof.
  intros -> ->. unfold index.
  rewrite nth_error_app2, Nat.sub_diag by lia. reflexivity.
Qed.

Lemma readNumber_loop_at (s : list byte) :
  forall (pre : list byte) (c : byte) (rest : list byte) (n : nat) (ch0 : byte)
         (sign ind : Z),
    forallb isNumeral s = true -> isNumeral c = false ->
    length s <= n ->
    hd c s = ch0 ->
    readNumber_loop n (pre ++ s ++ c :: rest) (length pre) ch0 sign ind
    = let '(sign', ind') := fold_left numStep s (sign, ind) in
      Ret (wrap (ind' * sign'), length pre + length s).
Proof.
  induction s as [|a s IH]; intros pre c rest n ch0 sign ind Hs Hc Hn Hch;
    simpl in Hs, Hch; subst ch0.
  - assert (E : (c =? "-")%byte || isDigit c = false) by exact Hc.
    destruct n; simpl; rewrite E, andb_false_r, Nat.add_0_r; reflexivity.
  - apply andb_prop in Hs as [Ha Hs].
    assert (E : (a =? "-")%byte || isDigit a = true) by exact Ha.
    destruct n as [|n]; [simpl in Hn; lia|].
    cbn [readNumber_loop]. rewrite E.
    replace (length pre <? length (pre ++ (a :: s) ++ c :: rest)) with true
      by (symmetry; apply Nat.ltb_lt; rewrite !length_app; simpl; lia).
    cbn [andb].
    rewrite (index_at _ (pre ++ [a]) (hd c s) (tl (s ++ c :: rest)))
      by (rewrite ?length_app; simpl; try lia;
          rewrite <- app_assoc; simpl; now destruct s).
    cbn [bind fold_left].
    replace (pre ++ (a :: s) ++ c :: rest) with ((pre ++ [a]) ++ s ++ c :: rest)
      by (rewrite <- app_assoc; reflexivity).
    replace (S (length pre)) with (length (pre ++ [a]))
      by (rewrite length_app; simpl; lia).
    unfold numStep at 2. unfold isMinus.
    destruct (a =? "-")%byte.
    + rewrite (IH (pre ++ [a]) c rest n (hd c s)); auto; [|simpl in Hn; lia].
      destruct (fold_left numStep s (-1, ind)%Z).
      rewrite length_app. simpl. do 2 f_equal. lia.
    + rewrite (IH (pre ++ [a]) c rest n (hd c s)); auto; [|simpl in Hn; lia].
      destruct (fold_left numStep s (sign, wrap (ind * 10 + digitOf a))).
      rewrite length_app. simpl. do 2 f_equal. lia.
Qed.

(** readNumber on a path that holds the numeral [s] at position [i],
    followed by a character that is neither a digit nor a minus sign. *)
Lemma readNumber_at (path pre s : list byte) (c : byte) (rest : list byte)
  (i : nat) :
  path = pre ++ s ++ c :: rest -> i = length pre ->
  forallb isNumeral s = true -> isNumeral c = false ->
  readNumber path i = Ret (numeralInt s, i + length s).
Proof.
  intros -> -> Hs Hc. unfold readNumber.
  rewrite (index_at _ pre (hd c s) (tl (s ++ c :: rest))) by (now destruct s).
  cbn [bind].
  rewrite (readNumber_loop_at s pre c rest); auto.
  - unfold numeralInt. now destruct (fold_left numStep s (1%Z, 0%Z)).
  - rewrite !length_app. lia.
Qed.

Lemma wrap_small (z : Z) : (- 2 ^ 63 <= z < 2 ^ 63)%Z -> wrap z = z.
Proof. intros H. unfold wrap. rewrite Z.mod_small; lia. Qed.

Lemma digitOf_range (ch : byte) : isDigit ch = true -> (0 <= digitOf ch <= 9)%Z.
Proof.
  unfold isDigit, digitOf. intros H. apply andb_prop in H as [H1 H2].
  apply N.leb_le in H1, H2. change (Byte.to_N "0") with 48%N in *.
  change (Byte.to_N "9") with 57%N in *. lia.
Qed.

Lemma isDigit_not_minus (ch : byte) : isDigit ch = true -> isMinus ch = false.
Proof.
  intros H. unfold isMinus. destruct (ch =? "-")%byte eqn:E; [|reflexivity].
  apply Byte.byte_dec_bl in E. subst ch. discriminate H.
Qed.

Lemma decimalFrom_ge (digits : list byte) :
  forall acc, (0 <= acc)%Z -> forallb isDigit digits = true ->
    (acc <= decimalFrom acc digits)%Z.
Proof.
  induction digits as [|d ds IH]; intros acc Hacc Hd; simpl in *; [lia|].
  apply andb_prop in Hd as [Hd Hds]. apply digitOf_range in Hd.
  specialize (IH (acc * 10 + digitOf d)%Z ltac:(lia) Hds).
  change (decimalFrom acc (d :: ds))
    with (decimalFrom (acc * 10 + digitOf d) ds).
  lia.
Qed.

Lemma filter_isDigit_all (s : list byte) :
  forallb isDigit (filter isDigit s) = true.
Proof.
  induction s as [|a s IH]; simpl; [reflexivity|].
  destruct (isDigit a) eqn:E; simpl; [now rewrite E|assumption].
Qed.

(** Without overflow the loop computes the decimal value of the digits and
    remembers whether it met a minus sign. *)
Lemma fold_numStep_small (s : list byte) :
  forall sign ind,
    forallb isNumeral s = true -> (0 <= ind)%Z ->
    (decimalFrom ind (filter isDigit s) < 2 ^ 63)%Z ->
    fold_left numStep s (sign, ind)
    = (if existsb isMinus s then (-1)%Z else sign,
       decimalFrom ind (filter isDigit s)).
Proof.
  induction s as [|a s IH]; intros sign ind Hs Hind Hlt; simpl in *;
    [reflexivity|].
  apply andb_prop in Hs as [Ha Hs]. unfold isNumeral in Ha.
  destruct (isMinus a) eqn:M; simpl in *.
  - assert (D : isDigit a = false).
    { destruct (isDigit a) eqn:D; [|reflexivity].
      apply isDigit_not_minus in D. congruence. }
    rewrite D in *. rewrite IH; auto. now destruct (existsb isMinus s).
  - rewrite Ha in *. simpl in Hlt. pose proof (digitOf_range a Ha) as Hr.
    pose proof (decimalFrom_ge (filter isDigit s) (ind * 10 + digitOf a)%Z
                  ltac:(lia) (filter_isDigit_all s)) as Hge.
    rewrite wrap_small by lia.
    rewrite IH; auto. lia.
Qed.

Lemma decimalFrom_0 (digits : list byte) : decimalFrom 0 digits = decimal digits.
Proof. reflexivity. Qed.

(** A '-' anywhere in the numeral negates the value of all its digits. *)
Lemma numeralInt_small (s : list byte) :
  forallb isNumeral s = true ->
  (decimal (filter isDigit s) < 2 ^ 63)%Z ->
  numeralInt s = if existsb isMinus s then (- decimal (filter isDigit s))%Z
                 else decimal (filter isDigit s).
Proof.
  intros Hs Hlt. unfold numeralInt.
  rewrite fold_numStep_small; auto; try lia.
  rewrite decimalFrom_0.
  pose proof (decimalFrom_ge (filter isDigit s) 0%Z ltac:(lia)
                (filter_isDigit_all s)) as Hge.
  rewrite decimalFrom_0 in Hge.
  destruct (existsb isMinus s); rewrite wrap_small; lia.
Qed.

(** ** The path compiler on paths of a given shape *)

Lemma scanKey_at (key : list byte) :
  forall (pre : list byte) (c : byte) (rest : list byte) (n : nat),
    plainKey key = true -> isKeyEnd c = true -> length key <= n ->
    scanKey n (pre ++ key ++ c :: rest) (length pre)
    = Ret (length pre + length key).
Proof.
  induction key as [|a key IH]; intros pre c rest n Hk Hc Hn; simpl in Hk.
  - assert (Hlt : (length pre <? length (pre ++ [] ++ c :: rest)) = true)
      by (apply Nat.ltb_lt; rewrite !length_app; simpl; lia).
    destruct n; cbn [scanKey]; rewrite Hlt;
      rewrite (index_at _ pre c rest) by reflexivity;
      cbn [bind]; rewrite Hc; simpl; now rewrite Nat.add_0_r.
  - apply andb_prop in Hk as [Ha Hk].
    destruct n as [|n]; [simpl in Hn; lia|].
    cbn [scanKey].
    replace (length pre <? length (pre ++ (a :: key) ++ c :: rest)) with true
      by (symmetry; apply Nat.ltb_lt; rewrite !length_app; simpl; lia).
    rewrite (index_at _ pre a (key ++ c :: rest)) by reflexivity.
    cbn [bind]. rewrite Ha.
    replace (pre ++ (a :: key) ++ c :: rest) with ((pre ++ [a]) ++ key ++ c :: rest)
      by (rewrite <- app_assoc; reflexivity).
    replace (S (length pre)) with (length (pre ++ [a]))
      by (rewrite length_app; simpl; lia).
    rewrite IH; auto; [|simpl in Hn; lia].
    rewrite length_app. simpl. f_equal. lia.
Qed.

Lemma parseFunction_other (path pre : list byte) (c : byte) (rest : list byte)
  (tok : tToken) (i : nat) :
  path = pre ++ c :: rest -> i = length pre -> (c =? "(")%byte = false ->
  parseFunction path tok i = Ret (inr (tok, i)).
Proof.
  intros Hp Hi Hc. unfold parseFunction.
  rewrite (index_at path pre c rest) by assumption.
  cbn [bind]. rewrite Hc. reflexivity.
Qed.

Lemma parseBrackets_other (path pre : list byte) (c : byte) (rest : list byte)
  (tok : tToken) (i : nat) :
  path = pre ++ c :: rest -> i = length pre -> (c =? "[")%byte = false ->
  parseBrackets path tok i = Ret (inr (tok, i)).
Proof.
  intros Hp Hi Hc. unfold parseBrackets.
  rewrite (index_at path pre c rest) by assumption.
  cbn [bind]. rewrite Hc. reflexivity.
Qed.

Ltac path_shape :=
  subst; repeat (progress (rewrite <- ?app_assoc; simpl)); reflexivity.
Ltac path_pos :=
  subst; repeat (progress (rewrite ?length_app; simpl)); lia.

(** [pre[s]]: a single index at the end of the path. *)
Lemma parseBrackets_index (path pre s : list byte) (tok : tToken) (i : nat) :
  path = pre ++ "["%byte :: s ++ ["]"%byte] -> i = length pre ->
  forallb isNumeral s = true ->
  parseBrackets path tok i
  = Ret (inl (orType (setLeft (setType tok cArrayType) (numeralInt s))
                cIsTerminal)).
Proof.
  intros Hp Hi Hs. unfold parseBrackets.
  rewrite (index_at path pre "[" (s ++ ["]"%byte])) by assumption.
  cbn [bind]. change ("[" =? "[")%byte with true. cbn iota.
  rewrite (readNumber_at path (pre ++ ["["%byte]) s "]" [] (S i));
    [|path_shape|path_pos|assumption|reflexivity].
  cbn [bind].
  assert (Hl : length path = S (S i + length s)) by path_pos.
  replace (S i + length s =? length path) with false
    by (symmetry; apply Nat.eqb_neq; lia).
  rewrite (index_at path (pre ++ "["%byte :: s) "]" [] (S i + length s));
    [|path_shape|path_pos].
  cbn [bind]. change (negb ("]" =? ":")%byte && negb ("]" =? "]")%byte) with false.
  cbn iota. change ("]" =? ":")%byte with false. cbn iota. cbn [bind].
  replace (S (S i + length s) =? length path) with true
    by (symmetry; apply Nat.eqb_eq; lia).
  reflexivity.
Qed.

(** [pre[s:0]...]: a literal 0 as the second bound. *)
Lemma parseBrackets_zero (path pre s rest : list byte) (tok : tToken) (i : nat) :
  path = pre ++ "["%byte :: s ++ ":"%byte :: "0"%byte :: "]"%byte :: rest ->
  i = length pre ->
  forallb isNumeral s = true ->
  parseBrackets path tok i
  = Err "path: 0 as a second bound does not make sense".
Proof.
  intros Hp Hi Hs. unfold parseBrackets.
  rewrite (index_at path pre "[" (s ++ ":"%byte :: "0"%byte :: "]"%byte :: rest))
    by assumption.
  cbn [bind]. change ("[" =? "[")%byte with true. cbn iota.
  rewrite (readNumber_at path (pre ++ ["["%byte]) s ":"
             ("0"%byte :: "]"%byte :: rest) (S i));
    [|path_shape|path_pos|assumption|reflexivity].
  cbn [bind].
  assert (Hl : length path = S i + length s + 3 + length rest) by path_pos.
  replace (S i + length s =? length path) with false
    by (symmetry; apply Nat.eqb_neq; lia).
  rewrite (index_at path (pre ++ "["%byte :: s) ":"
             ("0"%byte :: "]"%byte :: rest) (S i + length s));
    [|path_shape|path_pos].
  cbn [bind]. change (negb (":" =? ":")%byte && negb (":" =? "]")%byte) with false.
  cbn iota. change (":" =? ":")%byte with true. cbn iota.
  rewrite (readNumber_at path (pre ++ "["%byte :: s ++ [":"%byte]) ["0"%byte] "]"
             rest (S (S i + length s)));
    [|path_shape|path_pos|reflexivity|reflexivity].
  cbn [bind].
  change (numeralInt ["0"%byte]) with 0%Z. change (0 =? 0)%Z with true.
  replace (S (S i + length s) <? S (S i + length s) + length ["0"%byte]) with true
    by (symmetry; apply Nat.ltb_lt; simpl; lia).
  reflexivity.
Qed.

(** [pre[s:]]: the second bound left out, at the end of the path. *)
Lemma parseBrackets_open (path pre s : list byte) (tok : tToken) (i : nat) :
  path = pre ++ "["%byte :: s ++ [":"%byte; "]"%byte] -> i = length pre ->
  forallb isNumeral s = true ->
  parseBrackets path tok i
  = Ret (inl (orType
                (setRight
                   (orType (setLeft (setType tok cArrayType) (numeralInt s))
                      cArrBounded) 0)
                cIsTerminal)).
Proof.
  intros Hp Hi Hs. unfold parseBrackets.
  rewrite (index_at path pre "[" (s ++ [":"%byte; "]"%byte])) by assumption.
  cbn [bind]. change ("[" =? "[")%byte with true. cbn iota.
  rewrite (readNumber_at path (pre ++ ["["%byte]) s ":" ["]"%byte] (S i));
    [|path_shape|path_pos|assumption|reflexivity].
  cbn [bind].
  assert (Hl : length path = S i + length s + 2) by path_pos.
  replace (S i + length s =? length path) with false
    by (symmetry; apply Nat.eqb_neq; lia).
  rewrite (index_at path (pre ++ "["%byte :: s) ":" ["]"%byte] (S i + length s));
    [|path_shape|path_pos].
  cbn [bind]. change (negb (":" =? ":")%byte && negb (":" =? "]")%byte) with false.
  cbn iota. change (":" =? ":")%byte with true. cbn iota.
  rewrite (readNumber_at path (pre ++ "["%byte :: s ++ [":"%byte]) [] "]" []
             (S (S i + length s)));
    [|path_shape|path_pos|reflexivity|reflexivity].
  cbn [bind].
  change (numeralInt []) with 0%Z. change (0 =? 0)%Z with true.
  replace (S (S i + length s) <? S (S i + length s) + length (@nil byte)) with false
    by (symmetry; apply Nat.ltb_ge; simpl; lia).
  cbn [andb]. cbn iota.
  replace (S (S i + length s) + length (@nil byte) =? length path) with false
    by (symmetry; apply Nat.eqb_neq; simpl; lia).
  rewrite (index_at path (pre ++ "["%byte :: s ++ [":"%byte]) "]" []
             (S (S i + length s) + length (@nil byte)));
    [|path_shape|path_pos].
  cbn [bind]. change (negb ("]" =? "]")%byte) with false. cbn iota. cbn [bind].
  replace (S (S (S i + length s) + length (@nil byte)) =? length path) with true
    by (symmetry; apply Nat.eqb_eq; simpl; lia).
  reflexivity.
Qed.

Lemma firstn_length_app (a b : list byte) : firstn (length a) (a ++ b) = a.
Proof.
  rewrite <- (Nat.add_0_r (length a)), firstn_app_2. simpl. apply app_nil_r.
Qed.

Lemma skipn_length_app (a : list byte) (c : byte) (b : list byte) :
  skipn (S (length a)) (a ++ c :: b) = b.
Proof.
  replace (S (length a)) with (length (a ++ [c])) by (rewrite length_app; simpl; lia).
  replace (a ++ c :: b) with ((a ++ [c]) ++ b) by (rewrite <- app_assoc; reflexivity).
  rewrite skipn_app, skipn_all, Nat.sub_diag. reflexivity.
Qed.

(** The first statements of parsePath on a key followed by [c]. *)
Lemma parsePath_key (key : list byte) (c : byte) (rest : list byte)
  (k : nat -> outcome tToken) :
  plainKey key = true -> isKeyEnd c = true ->
  (i <- scanKey (length (key ++ c :: rest)) (key ++ c :: rest) 0 ;; k i)
  = k (length key).
Proof.
  intros Hk Hc.
  rewrite (scanKey_at key [] c rest); auto.
  rewrite length_app. lia.
Qed.

(** [key.p]: a member access followed by the rest of the path. *)
Lemma parsePath_dot (key p : list byte) :
  plainKey key = true ->
  parsePath (key ++ "."%byte :: p)
  = (next <- parsePath p ;;
     let tok := setNext (setKey emptyToken (string_of_list_byte key)) (Some next) in
     Ret (if hasFlag next cFunction then orType tok cSubject else tok)).
Proof.
  intros Hk. rewrite parsePath_eq. unfold parsePath_body.
  assert (Hl : length (key ++ "."%byte :: p) = length key + S (length p))
    by (rewrite length_app; reflexivity).
  replace (length (key ++ "."%byte :: p) =? 0) with false
    by (symmetry; apply Nat.eqb_neq; lia).
  rewrite parsePath_key by auto.
  replace (length key =? length (key ++ "."%byte :: p)) with false
    by (symmetry; apply Nat.eqb_neq; lia).
  rewrite firstn_length_app.
  rewrite (parseFunction_other _ key "." p) by reflexivity.
  cbn [bind].
  rewrite (parseBrackets_other _ key "." p) by reflexivity.
  cbn [bind].
  change (hasFlag (setKey emptyToken (string_of_list_byte key)) cArrBounded)
    with false.
  cbn [andb]. cbn iota.
  rewrite (index_at _ key "." p) by reflexivity.
  cbn [bind]. change (negb ("." =? ".")%byte) with false. cbn iota.
  rewrite skipn_length_app. reflexivity.
Qed.

Lemma parsePath_index (key s : list byte) :
  plainKey key = true -> forallb isNumeral s = true ->
  parsePath (key ++ "["%byte :: s ++ ["]"%byte])
  = Ret (mkToken (string_of_list_byte key) (Z.lor cArrayType cIsTerminal)
           (numeralInt s) 0 None).
Proof.
  intros Hk Hs. rewrite parsePath_eq. unfold parsePath_body.
  assert (Hl : length (key ++ "["%byte :: s ++ ["]"%byte])
               = length key + S (length s + 1))
    by (rewrite length_app; simpl; rewrite length_app; reflexivity).
  replace (length (key ++ "["%byte :: s ++ ["]"%byte]) =? 0) with false
    by (symmetry; apply Nat.eqb_neq; lia).
  rewrite parsePath_key by auto.
  replace (length key =? length (key ++ "["%byte :: s ++ ["]"%byte])) with false
    by (symmetry; apply Nat.eqb_neq; lia).
  rewrite firstn_length_app.
  rewrite (parseFunction_other _ key "[" (s ++ ["]"%byte])) by reflexivity.
  cbn [bind].
  rewrite (parseBrackets_index _ key s) by auto.
  reflexivity.
Qed.

Lemma parsePath_zero_bound (key s rest : list byte) :
  plainKey key = true -> forallb isNumeral s = true ->
  parsePath (key ++ "["%byte :: s ++ ":"%byte :: "0"%byte :: "]"%byte :: rest)
  = Err "path: 0 as a second bound does not make sense".
Proof.
  intros Hk Hs. rewrite parsePath_eq. unfold parsePath_body.
  set (tail := s ++ ":"%byte :: "0"%byte :: "]"%byte :: rest).
  assert (Hl : length (key ++ "["%byte :: tail) = length key + S (length tail))
    by (rewrite length_app; reflexivity).
  replace (length (key ++ "["%byte :: tail) =? 0) with false
    by (symmetry; apply Nat.eqb_neq; lia).
  rewrite parsePath_key by auto.
  replace (length key =? length (key ++ "["%byte :: tail)) with false
    by (symmetry; apply Nat.eqb_neq; lia).
  rewrite firstn_length_app.
  rewrite (parseFunction_other _ key "[" tail) by reflexivity.
  cbn [bind].
  rewrite (parseBrackets_zero _ key s rest) by auto.
  reflexivity.
Qed.

Lemma parsePath_open_range (key s : list byte) :
  plainKey key = true -> forallb isNumeral s = true ->
  parsePath (key ++ "["%byte :: s ++ [":"%byte; "]"%byte])
  = Ret (mkToken (string_of_list_byte key)
           (Z.lor (Z.lor cArrayType cArrBounded) cIsTerminal)
           (numeralInt s) 0 None).
Proof.
  intros Hk Hs. rewrite parsePath_eq. unfold parsePath_body.
  set (tail := s ++ [":"%byte; "]"%byte]).
  assert (Hl : length (key ++ "["%byte :: tail) = length key + S (length tail))
    by (rewrite length_app; reflexivity).
  replace (length (key ++ "["%byte :: tail) =? 0) with false
    by (symmetry; apply Nat.eqb_neq; lia).
  rewrite parsePath_key by auto.
  replace (length key =? length (key ++ "["%byte :: tail)) with false
    by (symmetry; apply Nat.eqb_neq; lia).
  rewrite firstn_length_app.
  rewrite (parseFunction_other _ key "[" tail) by reflexivity.
  cbn [bind].
  rewrite (parseBrackets_open _ key s) by auto.
  reflexivity.
Qed.

(** *** The number reader in 64-bit arithmetic *)

Lemma wrap_mod (z : Z) : (wrap z mod 2 ^ 64 = z mod 2 ^ 64)%Z.
Proof.
  unfold wrap. rewrite Zminus_mod_idemp_l. f_equal. lia.
Qed.

Lemma wrap_eq_mod (a b : Z) :
  (a mod 2 ^ 64 = b mod 2 ^ 64)%Z -> wrap a = wrap b.
Proof.
  intros H. unfold wrap. f_equal.
  rewrite (Zplus_mod a), (Zplus_mod b), H. reflexivity.
Qed.

Lemma fold_numStep_mod (s : list byte) :
  forall sign ind ind0,
    forallb isNumeral s = true ->
    (ind mod 2 ^ 64 = ind0 mod 2 ^ 64)%Z ->
    fst (fold_left numStep s (sign, ind))
    = (if existsb isMinus s then (-1)%Z else sign)
    /\ (snd (fold_left numStep s (sign, ind)) mod 2 ^ 64
        = decimalFrom ind0 (filter isDigit s) mod 2 ^ 64)%Z.
Proof.
  induction s as [|a s IH]; intros sign ind ind0 Hs Hind;
    cbn [fold_left filter forallb existsb fst snd] in *; [now split|].
  apply andb_prop in Hs as [Ha Hs]. unfold isNumeral in Ha.
  unfold numStep at 2. unfold numStep at 3.
  destruct (isMinus a) eqn:M; cbn [orb] in *.
  - assert (D : isDigit a = false).
    { destruct (isDigit a) eqn:D; [|reflexivity].
      apply isDigit_not_minus in D. congruence. }
    rewrite D. destruct (IH (-1)%Z ind ind0 Hs Hind) as [H1 H2].
    split; [|exact H2]. rewrite H1. now destruct (existsb isMinus s).
  - rewrite Ha. cbn [decimalFrom fold_left].
    apply (IH sign (wrap (ind * 10 + digitOf a)) (ind0 * 10 + digitOf a)%Z);
      auto.
    rewrite wrap_mod.
    rewrite (Zplus_mod (ind * 10)), (Zplus_mod (ind0 * 10)).
    rewrite (Zmult_mod ind), (Zmult_mod ind0), Hind. reflexivity.
Qed.

(** What readNumber yields: the digits of the numeral read as one decimal
    number, negated when a minus sign stands anywhere among them. *)
Lemma numeralInt_spec (s : list byte) :
  forallb isNumeral s = true ->
  numeralInt s = wrap (if existsb isMinus s
                       then - decimal (filter isDigit s)
                       else decimal (filter isDigit s)).
Proof.
  intros Hs. unfold numeralInt.
  destruct (fold_numStep_mod s 1%Z 0%Z 0%Z Hs eq_refl) as [H1 H2].
  destruct (fold_left numStep s (1%Z, 0%Z)) as [sign ind].
  cbn [fst snd] in H1, H2.
  rewrite decimalFrom_0 in H2. subst sign.
  apply wrap_eq_mod.
  destruct (existsb isMinus s).
  - rewrite Zmult_mod, H2, <- Zmult_mod. f_equal. lia.
  - rewrite Z.mul_1_r. exact H2.
Qed.

(** ** Claims about the path compiler *)

Lemma memberChain_not_function (keys : list (list byte)) (last : tToken) :
  hasFlag last cFunction = false ->
  hasFlag (memberChain keys last) cFunction = false.
Proof. intros H. destruct keys; [exact H|reflexivity]. Qed.

Lemma parsePath_dotted_Ret (keys : list (list byte)) (p : list byte)
  (last : tToken) :
  forallb plainKey keys = true ->
  hasFlag last cFunction = false ->
  parsePath p = Ret last ->
  parsePath (dotted keys ++ p) = Ret (memberChain keys last).
Proof.
  intros Hk Hf Hp. induction keys as [|k keys IH]; simpl in *; [exact Hp|].
  apply andb_prop in Hk as [Hk Hks].
  unfold dotted. simpl. rewrite <- !app_assoc. simpl.
  fold (dotted keys).
  rewrite parsePath_dot, IH by assumption.
  cbn [bind]. rewrite memberChain_not_function by assumption.
  reflexivity.
Qed.

Lemma parsePath_dotted_Err (keys : list (list byte)) (p : list byte)
  (msg : string) :
  forallb plainKey keys = true ->
  parsePath p = Err msg ->
  parsePath (dotted keys ++ p) = Err msg.
Proof.
  intros Hk Hp. induction keys as [|k keys IH]; simpl in *; [exact Hp|].
  apply andb_prop in Hk as [Hk Hks].
  unfold dotted. simpl. rewrite <- !app_assoc. simpl.
  fold (dotted keys).
  rewrite parsePath_dot, IH by assumption.
  reflexivity.
Qed.

(** C8: a path whose range selector has a literal 0 as its second bound is
    refused by the compiler, while the same selector with the second bound
    left out compiles, with Right = 0.  The selector may follow any key, with
    any numeral as first bound, after any member accesses; what comes after
    the closing bracket of [[s:0]] is not looked at. *)
Theorem C8_literal_zero_second_bound
  (keys : list (list byte)) (key s rest : list byte) :
  forallb plainKey keys = true ->
  plainKey key = true ->
  forallb isNumeral s = true ->
  parsePath (dotted keys ++ key
             ++ "["%byte :: s ++ ":"%byte :: "0"%byte :: "]"%byte :: rest)
  = Err "path: 0 as a second bound does not make sense"
  /\ parsePath (dotted keys ++ key ++ "["%byte :: s ++ [":"%byte; "]"%byte])
     = Ret (memberChain keys
              (mkToken (string_of_list_byte key)
                 (Z.lor (Z.lor cArrayType cArrBounded) cIsTerminal)
                 (numeralInt s) 0 None)).
Proof.
  intros Hks Hk Hs. split.
  - apply parsePath_dotted_Err; [assumption|].
    now apply parsePath_zero_bound.
  - apply parsePath_dotted_Ret; [assumption|reflexivity|].
    now apply parsePath_open_range.
Qed.

Lemma C8_literal_zero_second_bound_witness :
  parsePath (list_byte_of_string "$.arr[1:0]")
  = Err "path: 0 as a second bound does not make sense"
  /\ parsePath (list_byte_of_string "$.arr[1:]")
     = Ret (mkToken "$" 0 0 0 (Some (mkToken "arr" 7 1 0 None))).
Proof.
  exact (C8_literal_zero_second_bound
           [list_byte_of_string "$"] (list_byte_of_string "arr")
           (list_byte_of_string "1") [] eq_refl eq_refl eq_refl).
Defined.

(** C10: the number reader takes a minus sign at any position of a bracket
    numeral.  When the numeral holds at least one, the index is the negation
    of all its digits read as one decimal number (as a 64-bit int), and the
    path compiles to that single index: [$[1-2]] gives the index -12. *)
Theorem C10_minus_anywhere_negates (key s : list byte) :
  plainKey key = true ->
  forallb isNumeral s = true ->
  existsb isMinus s = true ->
  readNumber (key ++ "["%byte :: s ++ ["]"%byte]) (S (length key))
  = Ret (wrap (- decimal (filter isDigit s)), S (length key) + length s)
  /\ parsePath (key ++ "["%byte :: s ++ ["]"%byte])
     = Ret (mkToken (string_of_list_byte key) (Z.lor cArrayType cIsTerminal)
              (wrap (- decimal (filter isDigit s))) 0 None).
Proof.
  intros Hk Hs Hm.
  pose proof (numeralInt_spec s Hs) as Hv. rewrite Hm in Hv.
  rewrite <- Hv. split.
  - apply (readNumber_at _ (key ++ ["["%byte]) s "]" []); auto.
    + rewrite <- app_assoc. reflexivity.
    + rewrite length_app. simpl. lia.
  - now apply parsePath_index.
Qed.

Lemma C10_minus_anywhere_negates_witness :
  readNumber (list_byte_of_string "$[1-2]") 2 = Ret ((-12)%Z, 5)
  /\ parsePath (list_byte_of_string "$[1-2]")
     = Ret (mkToken "$" 5 (-12) 0 None).
Proof.
  exact (C10_minus_anywhere_negates
           (list_byte_of_string "$") (list_byte_of_string "1-2")
           eq_refl eq_refl eq_refl).
Defined.

(** *** The chain of tokens *)

Lemma chainOk_unfold (tok : tToken) :
  chainOk tok =
  match Next tok with
  | None => hasFlag tok cIsTerminal = true
  | Some next =>
      hasFlag tok cIsTerminal = false
      /\ (hasFlag next cFunction = true -> hasFlag tok cSubject = true)
      /\ chainOk next
  end.
Proof. destruct tok; reflexivity. Qed.

Lemma tokens_unfold (tok : tToken) :
  tokens tok = tok :: match Next tok with
                      | Some next => tokens next
                      | None => []
                      end.
Proof. destruct tok; reflexivity. Qed.

(** The flags a token can carry when it leaves the function clause. *)
Lemma parseFunction_shape (path : list byte) (tok : tToken) (i : nat)
  (r : tToken + tToken * nat) :
  Type_ tok = 0%Z -> Next tok = None ->
  parseFunction path tok i = Ret r ->
  match r with
  | inl t => Type_ t = 12%Z /\ Next t = None
  | inr (t, _) => (Type_ t = 0%Z \/ Type_ t = 8%Z) /\ Next t = None
  end.
Proof.
  intros Ht Hn. unfold parseFunction.
  destruct (index path i) as [c| | |]; cbn [bind]; try discriminate.
  destruct ((c =? "(")%byte && (i <? length path)).
  - destruct (index path (i + 1)) as [c1| | |]; cbn [bind]; try discriminate.
    destruct (c1 =? ")")%byte.
    + destruct ((Key tok =? "length")%string || (Key tok =? "size")%string);
        try discriminate.
      destruct (i + 2 =? length path); intros [= <-]; simpl; rewrite Ht; auto.
    + intros [= <-]. auto.
  - cbn [bind]. intros [= <-]. auto.
Qed.

(** The flags a token can carry when it leaves the array clause. *)
Lemma parseBrackets_shape (path : list byte) (tok : tToken) (i : nat)
  (r : tToken + tToken * nat) :
  Type_ tok = 0%Z \/ Type_ tok = 8%Z -> Next tok = None ->
  parseBrackets path tok i = Ret r ->
  match r with
  | inl t => (Type_ t = 5%Z \/ Type_ t = 7%Z) /\ Next t = None
  | inr (t, _) =>
      (Type_ t = 0%Z \/ Type_ t = 8%Z \/ Type_ t = 1%Z \/ Type_ t = 3%Z)
      /\ Next t = None
  end.
Proof.
  intros Ht Hn. unfold parseBrackets.
  destruct (index path i) as [c| | |]; cbn [bind]; try discriminate.
  destruct (c =? "[")%byte; [|intros [= <-]; tauto].
  destruct (readNumber path (S i)) as [[ind j]| | |]; cbn [bind]; try discriminate.
  destruct (if j =? length path then Ret true
            else c0 <- index path j;; Ret (negb (c0 =? ":")%byte && negb (c0 =? "]")%byte))
    as [[|]| | |]; cbn [bind]; try discriminate.
  destruct (index path j) as [c1| | |]; cbn [bind]; try discriminate.
  destruct (c1 =? ":")%byte.
  - destruct (readNumber path (S j)) as [[ind2 ii]| | |]; cbn [bind];
      try discriminate.
    destruct ((ind2 =? 0)%Z && (S j <? ii)); try discriminate.
    destruct (if ii =? length path then Ret true
              else c0 <- index path ii;; Ret (negb (c0 =? "]")%byte))
      as [[|]| | |]; cbn [bind]; try discriminate.
    destruct (S ii =? length path); intros [= <-]; simpl; auto.
  - cbn [bind].
    destruct (S j =? length path); intros [= <-]; simpl; auto.
Qed.

Lemma parsePath_rec_chainOk (n : nat) :
  forall path root, parsePath_rec n path = Ret root -> chainOk root.
Proof.
  induction n as [|n IH]; intros path root; [discriminate|].
  cbn [parsePath_rec]. unfold parsePath_body.
  destruct (length path =? 0); try discriminate.
  destruct (scanKey (length path) path 0) as [i| | |]; cbn [bind];
    try discriminate.
  destruct (i =? length path); [intros [= <-]; reflexivity|].
  set (tok0 := setKey emptyToken (string_of_list_byte (firstn i path))).
  destruct (parseFunction path tok0 i) as [r1| | |] eqn:F; cbn [bind];
    try discriminate.
  apply parseFunction_shape in F; [|reflexivity|reflexivity].
  destruct r1 as [t1|[t1 i1]].
  { intros [= <-]. destruct F as [Ht Hn].
    rewrite chainOk_unfold, Hn. unfold hasFlag. now rewrite Ht. }
  destruct F as [Ht1 Hn1].
  destruct (parseBrackets path t1 i1) as [r2| | |] eqn:B; cbn [bind];
    try discriminate.
  apply parseBrackets_shape in B; [|assumption|assumption].
  destruct r2 as [t2|[t2 i2]].
  { intros [= <-]. destruct B as [Ht Hn].
    rewrite chainOk_unfold, Hn. unfold hasFlag.
    now destruct Ht as [-> | ->]. }
  destruct B as [Ht2 Hn2].
  destruct (hasFlag t2 cArrBounded && (Z.land (Type_ t2) cIsTerminal =? 0)%Z)
    eqn:Hb; try discriminate.
  destruct (index path i2) as [c| | |]; cbn [bind]; try discriminate.
  destruct (negb (c =? ".")%byte); try discriminate.
  destruct (parsePath_rec n (skipn (S i2) path)) as [next| | |] eqn:R;
    cbn [bind]; try discriminate.
  apply IH in R. intros [= <-].
  assert (Hterm : forall t, Type_ t = Type_ t2 \/ Type_ t = Z.lor (Type_ t2) cSubject ->
                            hasFlag t cIsTerminal = false).
  { intros t Ht. unfold hasFlag.
    destruct Ht2 as [E|[E|[E|E]]]; rewrite E in *;
      try (unfold hasFlag in Hb; rewrite E in Hb; discriminate Hb);
      destruct Ht as [-> | ->]; reflexivity. }
  destruct (hasFlag next cFunction) eqn:Hf; rewrite chainOk_unfold; simpl;
    (split; [apply Hterm; simpl; auto|split; [|exact R]]).
  - intros _. unfold hasFlag. simpl.
    destruct Ht2 as [E|[E|[E|E]]]; rewrite E; reflexivity.
  - congruence.
Qed.

(** The invariant, token by token. *)
Lemma chainOk_tokens (root : tToken) :
  chainOk root ->
  forall tok, In tok (tokens root) ->
    (hasFlag tok cIsTerminal = true <-> Next tok = None)
    /\ (forall next, Next tok = Some next ->
          hasFlag next cFunction = true -> hasFlag tok cSubject = true).
Proof.
  induction root as [k t l r|k t l r next IH] using tToken_chain_ind;
    rewrite chainOk_unfold, tokens_unfold; simpl.
  - intros H tok [<-|[]]. simpl. split; [tauto|discriminate].
  - intros (Ht & Hs & Hc) tok [<-|Hin]; [|now apply IH].
    simpl. split.
    + split; [congruence|discriminate].
    + intros next' [= <-]. exact Hs.
Qed.

(** C9 as it is stated, in every chain the compiler produces a function
    token is terminal and has no successor, fails: the path [$.length().a]
    is accepted, and its function token [length] is followed by the token
    [a] and is not terminal. *)
Lemma C9_function_token_with_successor :
  ~ (forall path root, parsePath path = Ret root ->
       functionTokensLast root /\ subjectsMarked root).
Proof.
  intros H.
  destruct (H (list_byte_of_string "$.length().a") _ eq_refl) as [Hlast _].
  destruct (Hlast (mkToken "length" 8 0 0 (Some (mkToken "a" 4 0 0 None))))
    as [Hterm _].
  - right. left. reflexivity.
  - reflexivity.
  - discriminate Hterm.
Qed.

(** C9, amended: in every chain the compiler produces, a token, function
    token or not, carries the terminal flag exactly when it is the last
    token, and the token before a function token is marked as its
    subject. *)
Theorem C9_terminal_is_last_and_subjects_marked
  (path : list byte) (root : tToken) :
  parsePath path = Ret root ->
  (forall tok, In tok (tokens root) ->
     (hasFlag tok cIsTerminal = true <-> Next tok = None))
  /\ subjectsMarked root.
Proof.
  intros Hp. apply parsePath_rec_chainOk in Hp.
  pose proof (chainOk_tokens root Hp) as H. split.
  - intros tok Hin. now apply H.
  - intros tok next Hin. now apply H.
Qed.

Lemma C9_terminal_is_last_and_subjects_marked_witness :
  let root := mkToken "$" 0 0 0
                (Some (mkToken "a" 16 0 0
                         (Some (mkToken "length" 12 0 0 None)))) in
  parsePath (list_byte_of_string "$.a.length()") = Ret root
  /\ (forall tok, In tok (tokens root) ->
        (hasFlag tok cIsTerminal = true <-> Next tok = None))
  /\ subjectsMarked root.
Proof.
  split; [reflexivity|].
  exact (C9_terminal_is_last_and_subjects_marked
           (list_byte_of_string "$.a.length()") _ eq_refl).
Defined.

(** ** The write of the range selector, in general *)

Lemma length_bytes (h : heap) (s : slice) :
  wellFormed h s -> length (bytes h s) = len s.
Proof.
  intros (_ & Hl & Hc). unfold bytes.
  rewrite length_firstn, length_skipn. lia.
Qed.

(** Every span the scan records ends strictly inside the buffer: skipSpaces
    was called at its end and returned. *)
Lemma scanElems_spans (fuel : nat) (input : list byte) :
  forall i ch elems0 elems,
    scanElems fuel input i ch elems0 = Ret elems ->
    Forall (fun e => start e <= end_ e < length input) elems0 ->
    Forall (fun e => start e <= end_ e < length input) elems.
Proof.
  induction fuel as [|fuel IH]; intros i ch elems0 elems; [discriminate|].
  cbn [scanElems].
  destruct ((i <? length input) && negb (ch =? "]")%byte);
    [|now intros [= <-]].
  destruct (skipValue input i) as [e| | |] eqn:V; cbn [bind]; try discriminate.
  destruct (skipSpaces input e) as [i'| | |] eqn:S'; cbn [bind]; try discriminate.
  destruct (index input i') as [ch'| | |]; cbn [bind]; try discriminate.
  intros H H0. apply IH in H; [exact H|].
  apply Forall_app. split; [exact H0|].
  constructor; [|constructor]. simpl.
  apply skipValue_bounds in V. apply skipSpaces_bounds in S'. lia.
Qed.

Lemma elemAt_In (elems : list tElem) (a : Z) (e : tElem) :
  elemAt elems a = Ret e -> In e elems.
Proof.
  unfold elemAt. destruct (a <? 0)%Z; try discriminate.
  destruct (nth_error elems (Z.to_nat a)) eqn:E; try discriminate.
  intros [= <-]. eapply nth_error_In. exact E.
Qed.

Lemma nth_updateArray_same (h : heap) (f : list byte -> list byte) :
  forall a, a < length h -> nth a (updateArray h a f) [] = f (nth a h []).
Proof.
  induction h as [|x h IH]; intros [|a] Ha; simpl in *; try lia; auto.
  apply IH. lia.
Qed.

Lemma nth_updateArray_other (h : heap) (f : list byte -> list byte) :
  forall a a', a <> a' -> nth a' (updateArray h a f) [] = nth a' h [].
Proof.
  induction h as [|x h IH]; intros [|a] [|a'] Ha; simpl; auto; try lia.
Qed.

Lemma length_updateArray (h : heap) (f : list byte -> list byte) :
  forall a, length (updateArray h a f) = length h.
Proof.
  induction h as [|x h IH]; intros [|a]; simpl; auto.
Qed.

(** The outer append, on the one-byte array of the opening bracket, leaves
    the other arrays alone. *)
Lemma append_other (h : heap) (s : slice) (data : list byte) (a : nat) :
  a < length h -> a <> arr s ->
  nth a (snd (append h s data)) [] = nth a h [].
Proof.
  intros Ha Hne. unfold append.
  destruct (len s + length data <=? cap s); simpl.
  - apply nth_updateArray_other. congruence.
  - now apply app_nth1.
Qed.

(** A range selector that returns has written the closing bracket into the
    backing array of its input, at the end of the last selected element. *)
Lemma sliceArray_range_writes (fuel : nat) (h h' : heap) (input r : slice)
  (tok : tToken) :
  wellFormed h input ->
  (Z.land (Type_ tok) cArrBounded =? 0)%Z = false ->
  sliceArray fuel h input tok = Ret (r, h') ->
  exists e, e < len input
    /\ arrayOf h' input
       = overwrite (off input + e) ["]"%byte] (arrayOf h input).
Proof.
  intros Hwf Hb. pose proof (length_bytes h input Hwf) as Hlen.
  destruct Hwf as (Harr & Hlc & Hcap).
  unfold sliceArray. rewrite Hb.
  destruct (index (bytes h input) 0) as [c| | |]; cbn [bind]; try discriminate.
  destruct (negb (c =? "[")%byte); try discriminate.
  destruct (index (bytes h input) 1) as [ch| | |]; cbn [bind]; try discriminate.
  destruct (scanElems fuel (bytes h input) 1 ch []) as [elems| | |] eqn:Sc;
    cbn [bind]; try discriminate.
  apply scanElems_spans in Sc; [|constructor]. rewrite Hlen in Sc.
  rewrite Forall_forall in Sc.
  match goal with |- (if ?c then _ else _) = _ -> _ => destruct c end;
    try discriminate.
  cbn [alloc].
  match goal with |- context [elemAt elems ?a] =>
    destruct (elemAt elems a) as [ea| | |] eqn:Ea end;
    cbn [bind]; try discriminate.
  match goal with |- context [elemAt elems ?b] =>
    destruct (elemAt elems b) as [eb| | |] eqn:Eb end;
    cbn [bind]; try discriminate.
  apply elemAt_In, Sc in Eb.
  unfold reslice.
  destruct ((start ea <=? end_ eb) && (end_ eb <=? cap input)) eqn:Hr;
    cbn [bind]; try discriminate.
  apply andb_prop in Hr as [Hse _]. apply Nat.leb_le in Hse.
  match goal with |- context [append ?hh ?ss ["]"%byte]] =>
    destruct (append hh ss ["]"%byte]) as [inner h2] eqn:Ap end.
  unfold append in Ap. cbn [len cap off arr length] in Ap.
  replace (end_ eb - start ea + 1 <=? cap input - start ea) with true in Ap
    by (symmetry; apply Nat.leb_le; lia).
  injection Ap as <- <-.
  intros [= Hres].
  exists (end_ eb). split; [lia|].
  apply (f_equal snd) in Hres. simpl in Hres. subst h'.
  unfold arrayOf.
  rewrite append_other.
  - rewrite nth_updateArray_same by (rewrite length_app; simpl; lia).
    rewrite app_nth1 by assumption.
    replace (off input + start ea + (end_ eb - start ea)) with (off input + end_ eb)
      by lia.
    reflexivity.
  - rewrite length_updateArray, length_app. simpl. lia.
  - simpl. lia.
Qed.

(** * Further properties of the scanners *)

Lemma index_nth_error (input : list byte) (i : nat) (b : byte) :
  index input i = Ret b <-> nth_error input i = Some b.
Proof.
  unfold index. destruct (nth_error input i); split; congruence.
Qed.

Lemma skipSpaces_loop_spec (n : nat) (input : list byte) :
  forall i ch j,
    index input i = Ret ch ->
    skipSpaces_loop n input i ch = Ret j ->
    i <= j
    /\ (forall k, i <= k < j ->
          exists b, index input k = Ret b /\ isSep b = true)
    /\ (exists b, index input j = Ret b /\ isSep b = false).
Proof.
  induction n as [|n IH]; intros i ch j Hi; pose proof (index_Ret _ _ _ Hi) as Hlt;
    apply Nat.ltb_lt in Hlt; cbn [skipSpaces_loop]; rewrite Hlt; cbn [andb];
    destruct (isSep ch) eqn:Hs; try discriminate;
    try (intros [= <-]; split; [lia|split; [intros; lia|eauto]]).
  destruct (index input (S i)) as [ch'| | |] eqn:E; cbn [bind]; try discriminate.
  intros H. apply (IH _ _ _ E) in H as (Hle & Hseps & Hend).
  split; [lia|split; [|exact Hend]].
  intros k Hk. destruct (Nat.eq_dec k i) as [->|Hne]; [eauto|].
  apply Hseps. lia.
Qed.

(** skipSpaces, when it returns, has moved over separators only and stands
    on a byte of the buffer that is not a separator. *)
Theorem skipSpaces_spec (input : list byte) (i j : nat) :
  skipSpaces input i = Ret j ->
  i <= j < length input
  /\ (forall k, i <= k < j ->
        exists b, index input k = Ret b /\ isSep b = true)
  /\ (exists b, index input j = Ret b /\ isSep b = false).
Proof.
  intros H. pose proof (skipSpaces_bounds _ _ _ H) as Hb.
  unfold skipSpaces in H.
  destruct (index input i) as [ch| | |] eqn:E; cbn [bind] in H; try discriminate.
  destruct (skipSpaces_loop (length input) input i ch) as [k| | |] eqn:L;
    cbn [bind] in H; try discriminate.
  destruct (k =? length input); try discriminate. injection H as ->.
  apply (skipSpaces_loop_spec _ _ _ _ _ E) in L as (_ & Hseps & Hend).
  auto.
Qed.

Lemma skipSpaces_spec_witness :
  skipSpaces (json " , x") 0 = Ret 3
  /\ 0 <= 3 < 4
  /\ (forall k, 0 <= k < 3 ->
        exists b, index (json " , x") k = Ret b /\ isSep b = true)
  /\ (exists b, index (json " , x") 3 = Ret b /\ isSep b = false).
Proof.
  split; [reflexivity|].
  exact (skipSpaces_spec (json " , x") 0 3 eq_refl).
Defined.

(** ** The unexpected-end returns of the scanners

    Each scanner tests [i == l] after its loop and returns an error then.
    The loop has indexed [input[i]] in its post statement before it stops,
    so it never stops at [l]: the scanners return a position or panic. *)

Lemma index_not_Err (input : list byte) (i : nat) (msg : string) :
  index input i <> Err msg.
Proof. unfold index. destruct (nth_error input i); discriminate. Qed.

Lemma bind_not_Err (A B : Type) (m : outcome A) (k : A -> outcome B)
  (msg : string) :
  m <> Err msg -> (forall a, m = Ret a -> k a <> Err msg) ->
  bind m k <> Err msg.
Proof.
  destruct m; simpl; intros Hm Hk; try discriminate;
    [now apply Hk|].
  intros [= E]. apply Hm. now rewrite E.
Qed.

Lemma skipSpaces_loop_not_Err (n : nat) (input : list byte) (msg : string) :
  forall i ch, skipSpaces_loop n input i ch <> Err msg.
Proof.
  induction n as [|n IH]; intros i ch; cbn [skipSpaces_loop];
    destruct ((i <? length input) && isSep ch); try discriminate.
  apply bind_not_Err; [apply index_not_Err|auto].
Qed.

Lemma skipString_loop_not_Err (n : nat) (input : list byte) (msg : string) :
  forall i ch prev done, skipString_loop n input i ch prev done <> Err msg.
Proof.
  induction n as [|n IH]; intros i ch prev done; cbn [skipString_loop];
    destruct ((i <? length input) && negb done); try discriminate.
  apply bind_not_Err; [apply index_not_Err|auto].
Qed.

Lemma skipString_loop_inside (n : nat) (input : list byte) :
  forall i ch prev done j, i < length input ->
    skipString_loop n input i ch prev done = Ret j -> j < length input.
Proof.
  induction n as [|n IH]; intros i ch prev done j Hi; cbn [skipString_loop];
    destruct ((i <? length input) && negb done); try discriminate;
    try (intros [= <-]; assumption).
  destruct (index input (S i)) as [c| | |] eqn:E; cbn [bind]; try discriminate.
  apply index_Ret in E. now apply IH.
Qed.

Lemma skipValue_nested_not_Err (n : nat) (input : list byte) (mark unmark : byte)
  (msg : string) :
  forall i ch nested instr prev,
    skipValue_nested n input mark unmark i ch nested instr prev <> Err msg.
Proof.
  induction n as [|n IH]; intros i ch nested instr prev; cbn [skipValue_nested];
    destruct ((i <? length input) && negb ((ch =? unmark)%byte && (nested =? 0)%Z));
    try discriminate.
  match goal with |- context [let '(_, _) := ?p in _] => destruct p end.
  apply bind_not_Err; [apply index_not_Err|auto].
Qed.

Lemma skipValue_nested_inside (n : nat) (input : list byte) (mark unmark : byte) :
  forall i ch nested instr prev j, i < length input ->
    skipValue_nested n input mark unmark i ch nested instr prev = Ret j ->
    j < length input.
Proof.
  induction n as [|n IH]; intros i ch nested instr prev j Hi;
    cbn [skipValue_nested];
    destruct ((i <? length input) && negb ((ch =? unmark)%byte && (nested =? 0)%Z));
    try discriminate; try (intros [= <-]; assumption).
  match goal with |- context [let '(_, _) := ?p in _] => destruct p end.
  destruct (index input (S i)) as [c| | |] eqn:E; cbn [bind]; try discriminate.
  apply index_Ret in E. now apply IH.
Qed.

Lemma skipValue_scalar_not_Err (n : nat) (input : list byte) (msg : string) :
  forall i ch, skipValue_scalar n input i ch <> Err msg.
Proof.
  induction n as [|n IH]; intros i ch; cbn [skipValue_scalar];
    destruct ((i <? length input) && negb (isScalarEnd ch)); try discriminate.
  apply bind_not_Err; [apply index_not_Err|auto].
Qed.

Lemma skipSpaces_not_Err (input : list byte) (i : nat) (msg : string) :
  skipSpaces input i <> Err msg.
Proof.
  destruct (skipSpaces_Ret_or_Panic input i) as [[j H]|H]; rewrite H; discriminate.
Qed.

Lemma skipString_not_Err (input : list byte) (i : nat) (msg : string) :
  skipString input i <> Err msg.
Proof.
  unfold skipString. apply bind_not_Err; [apply index_not_Err|].
  intros ch Hch. apply index_Ret in Hch.
  apply bind_not_Err; [apply skipString_loop_not_Err|].
  intros j Hj. apply skipString_loop_inside in Hj; [|assumption].
  destruct (j =? length input) eqn:E; [|discriminate].
  apply Nat.eqb_eq in E. lia.
Qed.

Lemma skipValue_not_Err (input : list byte) (i : nat) (msg : string) :
  skipValue input i <> Err msg.
Proof.
  unfold skipValue. apply bind_not_Err; [apply skipSpaces_not_Err|].
  intros k _. apply bind_not_Err; [apply index_not_Err|].
  intros c _. destruct (c =? dquote)%byte; [apply skipString_not_Err|].
  destruct ((c =? "{")%byte || (c =? "[")%byte).
  - apply bind_not_Err; [apply index_not_Err|].
    intros ch Hch. apply index_Ret in Hch.
    apply bind_not_Err; [apply skipValue_nested_not_Err|].
    intros j Hj. apply skipValue_nested_inside in Hj; [|assumption].
    destruct (j =? length input) eqn:E; [|discriminate].
    apply Nat.eqb_eq in E. lia.
  - apply bind_not_Err; [apply index_not_Err|].
    intros ch _. apply skipValue_scalar_not_Err.
Qed.

(** skipSpaces, skipString and skipValue never return an error, on any
    buffer and at any position: the three returns of
    [unexpected end of input] are dead code, and a buffer that ends in the
    middle of a scan makes them panic. *)
Theorem scanners_never_return_error (input : list byte) (i : nat) (msg : string) :
  skipSpaces input i <> Err msg
  /\ skipString input i <> Err msg
  /\ skipValue input i <> Err msg.
Proof.
  repeat split;
    [apply skipSpaces_not_Err|apply skipString_not_Err|apply skipValue_not_Err].
Qed.

(** The only error of seekToValue is the missing colon. *)
Theorem seekToValue_only_error (input : list byte) (i : nat) (msg : string) :
  seekToValue input i = Err msg -> msg = colonExpected.
Proof.
  unfold seekToValue.
  destruct (skipSpaces input i) as [k|m| |] eqn:S1; cbn [bind]; try discriminate;
    [|now apply skipSpaces_not_Err in S1].
  destruct (index input k) as [c|m| |] eqn:C; cbn [bind]; try discriminate;
    [|now apply index_not_Err in C].
  destruct (negb (c =? ":")%byte); [now intros [= <-]|].
  intros H. now apply skipSpaces_not_Err in H.
Qed.

Lemma seekToValue_only_error_witness :
  seekToValue (json "'k' 1") 3 = Err colonExpected /\ colonExpected = colonExpected.
Proof.
  split; [reflexivity|].
  exact (seekToValue_only_error (json "'k' 1") 3 colonExpected eq_refl).
Defined.

(** ** What skipString and skipValue skip *)

Lemma skipString_loop_done (n : nat) (input : list byte) (i : nat)
  (ch prev : byte) :
  skipString_loop n input i ch prev true = Ret i.
Proof. destruct n; cbn [skipString_loop]; now rewrite andb_false_r. Qed.

Lemma closingQuote_at (input : list byte) (p : nat) (ch prev : byte) :
  index input p = Ret ch -> index input (p - 1) = Ret prev ->
  closingQuote input p = (ch =? dquote)%byte && negb (prev =? backslash)%byte.
Proof.
  intros Hc Hp. apply index_nth_error in Hc, Hp.
  unfold closingQuote. now rewrite Hc, Hp.
Qed.

Lemma skipString_loop_spec (n : nat) (input : list byte) :
  forall p ch prev j,
    index input p = Ret ch -> index input (p - 1) = Ret prev ->
    skipString_loop n input p ch prev false = Ret j ->
    exists q, j = S q /\ p <= q /\ S q < length input
      /\ closingQuote input q = true
      /\ (forall k, p <= k < q -> closingQuote input k = false).
Proof.
  induction n as [|n IH]; intros p ch prev j Hc Hp;
    pose proof (index_Ret _ _ _ Hc) as Hlt; apply Nat.ltb_lt in Hlt;
    cbn [skipString_loop]; rewrite Hlt; cbn [andb negb]; try discriminate.
  destruct (index input (S p)) as [ch'| | |] eqn:E; cbn [bind]; try discriminate.
  pose proof (closingQuote_at _ _ _ _ Hc Hp) as Hq.
  destruct ((ch =? dquote)%byte && negb (prev =? backslash)%byte).
  - rewrite skipString_loop_done. intros [= <-].
    exists p. apply index_Ret in E. repeat split; auto. intros k Hk. lia.
  - intros H. apply IH in H; [|assumption|now rewrite Nat.sub_succ, Nat.sub_0_r].
    destruct H as (q & -> & Hle & Hin & Hcl & Hno).
    exists q. repeat split; auto; try lia.
    intros k Hk. destruct (Nat.eq_dec k p) as [->|Hne]; [assumption|].
    apply Hno. lia.
Qed.

(** skipString, called on an opening quote, returns the position just after
    the first quote that does not follow a backslash, and that position is
    still inside the buffer. *)
Theorem skipString_spec (input : list byte) (i j : nat) :
  index input i = Ret dquote ->
  skipString input i = Ret j ->
  i + 2 <= j < length input
  /\ closingQuote input (j - 1) = true
  /\ (forall k, i < k < j - 1 -> closingQuote input k = false).
Proof.
  intros Hi. unfold skipString.
  destruct (index input (S i)) as [ch| | |] eqn:E; cbn [bind]; try discriminate.
  destruct (skipString_loop (length input) input (S i) ch dquote false)
    as [k| | |] eqn:L; cbn [bind]; try discriminate.
  destruct (k =? length input); try discriminate. intros [= <-].
  apply skipString_loop_spec in L;
    [|assumption|now rewrite Nat.sub_succ, Nat.sub_0_r].
  destruct L as (q & -> & Hle & Hin & Hcl & Hno).
  rewrite Nat.sub_succ, Nat.sub_0_r. repeat split; auto; try lia.
Qed.

Lemma skipString_spec_witness :
  let input := json "'a\'b',1" in
  index input 0 = Ret dquote
  /\ skipString input 0 = Ret 6
  /\ 0 + 2 <= 6 < length input
  /\ closingQuote input (6 - 1) = true
  /\ (forall k, 0 < k < 6 - 1 -> closingQuote input k = false).
Proof.
  intros input. split; [reflexivity|]. split; [reflexivity|].
  exact (skipString_spec input 0 6 eq_refl eq_refl).
Defined.

Lemma skipValue_scalar_spec (n : nat) (input : list byte) :
  forall i ch j,
    index input i = Ret ch ->
    skipValue_scalar n input i ch = Ret j ->
    i <= j
    /\ (forall k, i <= k < j ->
          exists b, index input k = Ret b /\ isScalarEnd b = false)
    /\ (exists b, index input j = Ret b /\ isScalarEnd b = true).
Proof.
  induction n as [|n IH]; intros i ch j Hi; pose proof (index_Ret _ _ _ Hi) as Hlt;
    apply Nat.ltb_lt in Hlt; cbn [skipValue_scalar]; rewrite Hlt; cbn [andb];
    destruct (isScalarEnd ch) eqn:Hs; cbn [negb]; try discriminate;
    try (intros [= <-]; split; [lia|split; [intros; lia|eauto]]).
  destruct (index input (S i)) as [ch'| | |] eqn:E; cbn [bind]; try discriminate.
  intros H. apply (IH _ _ _ E) in H as (Hle & Hin & Hend).
  split; [lia|split; [|exact Hend]].
  intros k Hk. destruct (Nat.eq_dec k i) as [->|Hne]; [eauto|].
  apply Hin. lia.
Qed.

(** On a number, a boolean or null skipValue returns the position of the
    first byte, from the start of the value on, that is a space, a tab, a
    line end, a comma or a closing brace; a closing bracket does not stop
    it. *)
Theorem skipValue_scalar_end (input : list byte) (i v j : nat) (c : byte) :
  skipSpaces input i = Ret v ->
  index input v = Ret c ->
  (c =? dquote)%byte = false -> (c =? "{")%byte = false ->
  (c =? "[")%byte = false ->
  skipValue input i = Ret j ->
  v <= j < length input
  /\ (forall k, v <= k < j ->
        exists b, index input k = Ret b /\ isScalarEnd b = false)
  /\ (exists b, index input j = Ret b /\ isScalarEnd b = true).
Proof.
  intros Hs Hc Hq Hb Hk. unfold skipValue.
  rewrite Hs. cbn [bind]. rewrite Hc. cbn [bind]. rewrite Hq, Hb, Hk.
  cbn [orb]. intros H.
  apply skipValue_scalar_spec in H as (Hle & Hin & b & Hend & Hb'); [|assumption].
  pose proof (index_Ret _ _ _ Hend). repeat split; eauto.
Qed.

Lemma skipValue_scalar_end_witness :
  let input := json "[1, 23],4" in
  skipSpaces input 2 = Ret 4
  /\ skipValue input 2 = Ret 7
  /\ 4 <= 7 < length input
  /\ (forall k, 4 <= k < 7 ->
        exists b, index input k = Ret b /\ isScalarEnd b = false)
  /\ (exists b, index input 7 = Ret b /\ isScalarEnd b = true).
Proof.
  intros input. split; [reflexivity|]. split; [reflexivity|].
  exact (skipValue_scalar_end input 2 4 7 "2" eq_refl eq_refl eq_refl eq_refl
           eq_refl eq_refl).
Defined.

(** * Further properties of the path compiler *)

Lemma scanKey_to_end (key : list byte) :
  forall (pre : list byte) (n : nat),
    plainKey key = true -> length key <= n ->
    scanKey n (pre ++ key) (length pre) = Ret (length pre + length key).
Proof.
  induction key as [|a key IH]; intros pre n Hk Hn; simpl in Hk.
  - rewrite app_nil_r, Nat.add_0_r.
    destruct n; cbn [scanKey]; now rewrite Nat.ltb_irrefl.
  - apply andb_prop in Hk as [Ha Hk].
    destruct n as [|n]; [simpl in Hn; lia|].
    cbn [scanKey].
    replace (length pre <? length (pre ++ a :: key)) with true
      by (symmetry; apply Nat.ltb_lt; rewrite length_app; simpl; lia).
    rewrite (index_at _ pre a key) by reflexivity.
    cbn [bind]. rewrite Ha.
    replace (pre ++ a :: key) with ((pre ++ [a]) ++ key)
      by (rewrite <- app_assoc; reflexivity).
    replace (S (length pre)) with (length (pre ++ [a]))
      by (rewrite length_app; simpl; lia).
    rewrite IH; auto; [|simpl in Hn; lia].
    rewrite length_app. simpl. f_equal. lia.
Qed.

Lemma parsePath_name (key : list byte) :
  plainKey key = true -> key <> [] ->
  parsePath key = Ret (mkToken (string_of_list_byte key) cIsTerminal 0 0 None).
Proof.
  intros Hk Hne. rewrite parsePath_eq. unfold parsePath_body.
  replace (length key =? 0) with false
    by (symmetry; apply Nat.eqb_neq; destruct key; simpl; congruence).
  pose proof (scanKey_to_end key [] (length key) Hk (le_n _)) as Hscan.
  cbn [app length Nat.add] in Hscan. rewrite Hscan.
  cbn [bind]. rewrite Nat.eqb_refl, firstn_all. reflexivity.
Qed.

(* Shared with the end-to-end theorems on Get. *)
Lemma parsePath_names_holds (keys : list (list byte)) (key : list byte) :
  forallb plainKey keys = true -> plainKey key = true -> key <> [] ->
  parsePath (dotted keys ++ key)
  = Ret (memberChain keys
           (mkToken (string_of_list_byte key) cIsTerminal 0 0 None)).
Proof.
  intros Hks Hk Hne.
  apply parsePath_dotted_Ret; [assumption|reflexivity|].
  now apply parsePath_name.
Qed.

(** A path of plain names separated by dots compiles to the chain of its
    names, the last one terminal, the others without any flag. *)
Theorem parsePath_names (keys : list (list byte)) (key : list byte) :
  forallb plainKey keys = true -> plainKey key = true -> key <> [] ->
  parsePath (dotted keys ++ key)
  = Ret (memberChain keys
           (mkToken (string_of_list_byte key) cIsTerminal 0 0 None)).
Proof.
  eapply parsePath_names_holds; eassumption.
Qed.

Lemma parsePath_names_witness :
  parsePath (list_byte_of_string "$.store.book")
  = Ret (mkToken "$" 0 0 0
           (Some (mkToken "store" 0 0 0
                    (Some (mkToken "book" 4 0 0 None))))).
Proof.
  refine (parsePath_names
            [list_byte_of_string "$"; list_byte_of_string "store"]
            (list_byte_of_string "book") eq_refl eq_refl _).
  discriminate.
Defined.

(** A path that ends with a dot, and the empty path, are refused with the
    error of the empty path. *)
Theorem parsePath_trailing_dot (keys : list (list byte)) :
  forallb plainKey keys = true ->
  parsePath (dotted keys) = Err "path: empty".
Proof.
  intros Hks. rewrite <- (app_nil_r (dotted keys)).
  now apply parsePath_dotted_Err.
Qed.

Lemma parsePath_trailing_dot_witness :
  parsePath (list_byte_of_string "$.a.") = Err "path: empty".
Proof.
  exact (parsePath_trailing_dot
           [list_byte_of_string "$"; list_byte_of_string "a"] eq_refl).
Defined.

Lemma parsePath_unknown_function (key rest : list byte) :
  plainKey key = true ->
  (string_of_list_byte key =? "length")%string = false ->
  (string_of_list_byte key =? "size")%string = false ->
  parsePath (key ++ "("%byte :: ")"%byte :: rest)
  = Err ("path: unknown function " ++ string_of_list_byte key ++ "()").
Proof.
  intros Hk Hl Hs. rewrite parsePath_eq. unfold parsePath_body.
  assert (Hlen : length (key ++ "("%byte :: ")"%byte :: rest)
                 = length key + S (S (length rest)))
    by (rewrite length_app; reflexivity).
  replace (length (key ++ "("%byte :: ")"%byte :: rest) =? 0) with false
    by (symmetry; apply Nat.eqb_neq; lia).
  rewrite parsePath_key by auto.
  replace (length key =? length (key ++ "("%byte :: ")"%byte :: rest)) with false
    by (symmetry; apply Nat.eqb_neq; lia).
  rewrite firstn_length_app. unfold parseFunction.
  rewrite (index_at _ key "(" (")"%byte :: rest)) by reflexivity.
  cbn [bind]. change ("(" =? "(")%byte with true.
  replace (length key <? length (key ++ "("%byte :: ")"%byte :: rest)) with true
    by (symmetry; apply Nat.ltb_lt; lia).
  cbn [andb].
  rewrite (index_at _ (key ++ ["("%byte]) ")" rest);
    [|now rewrite <- app_assoc|rewrite length_app; simpl; lia].
  cbn [bind]. change (")" =? ")")%byte with true. cbn iota.
  change (Key (setKey emptyToken (string_of_list_byte key)))
    with (string_of_list_byte key).
  rewrite Hl, Hs. reflexivity.
Qed.

(** A call of a function other than length and size is refused with the
    error that names the function, whatever follows the parentheses and
    after any member accesses. *)
Theorem parsePath_rejects_unknown_function
  (keys : list (list byte)) (key rest : list byte) :
  forallb plainKey keys = true -> plainKey key = true ->
  (string_of_list_byte key =? "length")%string = false ->
  (string_of_list_byte key =? "size")%string = false ->
  parsePath (dotted keys ++ key ++ "("%byte :: ")"%byte :: rest)
  = Err ("path: unknown function " ++ string_of_list_byte key ++ "()").
Proof.
  intros Hks Hk Hl Hs.
  apply parsePath_dotted_Err; [assumption|].
  now apply parsePath_unknown_function.
Qed.

Lemma parsePath_rejects_unknown_function_witness :
  parsePath (list_byte_of_string "$.a.count()")
  = Err "path: unknown function count()".
Proof.
  exact (parsePath_rejects_unknown_function
           [list_byte_of_string "$"; list_byte_of_string "a"]
           (list_byte_of_string "count") [] eq_refl eq_refl eq_refl eq_refl).
Defined.

(* Shared with the end-to-end theorems on Get. *)
Lemma parsePath_function_call_holds
  (keys : list (list byte)) (key : list byte) (fn : string) :
  forallb plainKey keys = true -> plainKey key = true ->
  isFunctionName fn ->
  parsePath (dotted keys ++ key ++ "."%byte :: list_byte_of_string fn
             ++ ["("%byte; ")"%byte])
  = Ret (memberChain keys
           (mkToken (string_of_list_byte key) cSubject 0 0
              (Some (mkToken fn (Z.lor cFunction cIsTerminal) 0 0 None)))).
Proof.
  intros Hks Hk Hfn.
  apply parsePath_dotted_Ret; [assumption|reflexivity|].
  rewrite parsePath_dot by assumption.
  destruct Hfn as [-> | ->]; reflexivity.
Qed.

(** A member followed by a call of length or size at the end of the path
    compiles to a subject token followed by a terminal function token. *)
Theorem parsePath_function_call
  (keys : list (list byte)) (key : list byte) (fn : string) :
  forallb plainKey keys = true -> plainKey key = true ->
  isFunctionName fn ->
  parsePath (dotted keys ++ key ++ "."%byte :: list_byte_of_string fn
             ++ ["("%byte; ")"%byte])
  = Ret (memberChain keys
           (mkToken (string_of_list_byte key) cSubject 0 0
              (Some (mkToken fn (Z.lor cFunction cIsTerminal) 0 0 None)))).
Proof.
  eapply parsePath_function_call_holds; eassumption.
Qed.

Lemma parsePath_function_call_witness :
  parsePath (list_byte_of_string "$.name.length()")
  = Ret (mkToken "$" 0 0 0
           (Some (mkToken "name" 16 0 0
                    (Some (mkToken "length" 12 0 0 None))))).
Proof.
  exact (parsePath_function_call
           [list_byte_of_string "$"] (list_byte_of_string "name") "length"
           eq_refl eq_refl (or_introl eq_refl)).
Defined.

(** [pre[s]c...]: a single index followed by more of the path. *)
Lemma parseBrackets_index_more (path pre s : list byte) (c : byte)
  (rest : list byte) (tok : tToken) (i : nat) :
  path = pre ++ "["%byte :: s ++ "]"%byte :: c :: rest -> i = length pre ->
  forallb isNumeral s = true ->
  parseBrackets path tok i
  = Ret (inr (setLeft (setType tok cArrayType) (numeralInt s),
              S (S i + length s))).
Proof.
  intros Hp Hi Hs. unfold parseBrackets.
  rewrite (index_at path pre "[" (s ++ "]"%byte :: c :: rest)) by assumption.
  cbn [bind]. change ("[" =? "[")%byte with true. cbn iota.
  rewrite (readNumber_at path (pre ++ ["["%byte]) s "]" (c :: rest) (S i));
    [|path_shape|path_pos|assumption|reflexivity].
  cbn [bind].
  assert (Hl : length path = S (S (S i + length s)) + length rest) by path_pos.
  replace (S i + length s =? length path) with false
    by (symmetry; apply Nat.eqb_neq; lia).
  rewrite (index_at path (pre ++ "["%byte :: s) "]" (c :: rest) (S i + length s));
    [|path_shape|path_pos].
  cbn [bind]. change (negb ("]" =? ":")%byte && negb ("]" =? "]")%byte) with false.
  cbn iota. change ("]" =? ":")%byte with false. cbn iota. cbn [bind].
  replace (S (S i + length s) =? length path) with false
    by (symmetry; apply Nat.eqb_neq; lia).
  reflexivity.
Qed.

(** [pre[s:t]c...]: a range followed by more of the path. *)
Lemma parseBrackets_range_more (path pre s t : list byte) (c : byte)
  (rest : list byte) (tok : tToken) (i : nat) :
  path = pre ++ "["%byte :: s ++ ":"%byte :: t ++ "]"%byte :: c :: rest ->
  i = length pre ->
  forallb isNumeral s = true -> forallb isNumeral t = true ->
  (numeralInt t =? 0)%Z && (0 <? length t) = false ->
  parseBrackets path tok i
  = Ret (inr (setRight
                (orType (setLeft (setType tok cArrayType) (numeralInt s))
                   cArrBounded) (numeralInt t),
              S (S (S i + length s) + length t))).
Proof.
  intros Hp Hi Hs Ht Hz. unfold parseBrackets.
  rewrite (index_at path pre "[" (s ++ ":"%byte :: t ++ "]"%byte :: c :: rest))
    by assumption.
  cbn [bind]. change ("[" =? "[")%byte with true. cbn iota.
  rewrite (readNumber_at path (pre ++ ["["%byte]) s ":"
             (t ++ "]"%byte :: c :: rest) (S i));
    [|path_shape|path_pos|assumption|reflexivity].
  cbn [bind].
  assert (Hl : length path
               = S (S (S (S i + length s) + length t)) + length rest)
    by path_pos.
  replace (S i + length s =? length path) with false
    by (symmetry; apply Nat.eqb_neq; lia).
  rewrite (index_at path (pre ++ "["%byte :: s) ":"
             (t ++ "]"%byte :: c :: rest) (S i + length s));
    [|path_shape|path_pos].
  cbn [bind]. change (negb (":" =? ":")%byte && negb (":" =? "]")%byte) with false.
  cbn iota. change (":" =? ":")%byte with true. cbn iota.
  rewrite (readNumber_at path (pre ++ "["%byte :: s ++ [":"%byte]) t "]"
             (c :: rest) (S (S i + length s)));
    [|path_shape|path_pos|assumption|reflexivity].
  cbn [bind].
  assert (Hadv : (S (S i + length s) <? S (S i + length s) + length t)
                 = (0 <? length t)).
  { destruct (0 <? length t) eqn:E.
    - apply Nat.ltb_lt in E. apply Nat.ltb_lt. lia.
    - apply Nat.ltb_ge in E. apply Nat.ltb_ge. lia. }
  rewrite Hadv, Hz.
  replace (S (S i + length s) + length t =? length path) with false
    by (symmetry; apply Nat.eqb_neq; lia).
  rewrite (index_at path (pre ++ "["%byte :: s ++ ":"%byte :: t) "]" (c :: rest)
             (S (S i + length s) + length t));
    [|path_shape|path_pos].
  cbn [bind]. change (negb ("]" =? "]")%byte) with false. cbn iota. cbn [bind].
  replace (S (S (S i + length s) + length t) =? length path) with false
    by (symmetry; apply Nat.eqb_neq; lia).
  reflexivity.
Qed.

(** A range selector that is not the end of the path is refused, whatever
    comes after its closing bracket. *)
Theorem parsePath_rejects_mid_range
  (keys : list (list byte)) (key s t : list byte) (c : byte) (rest : list byte) :
  forallb plainKey keys = true -> plainKey key = true ->
  forallb isNumeral s = true -> forallb isNumeral t = true ->
  (numeralInt t =? 0)%Z && (0 <? length t) = false ->
  parsePath (dotted keys ++ key
             ++ "["%byte :: s ++ ":"%byte :: t ++ "]"%byte :: c :: rest)
  = Err "path: indefinite references are not yet supported".
Proof.
  intros Hks Hk Hs Ht Hz.
  apply parsePath_dotted_Err; [assumption|].
  rewrite parsePath_eq. unfold parsePath_body.
  set (tail := s ++ ":"%byte :: t ++ "]"%byte :: c :: rest).
  assert (Hl : length (key ++ "["%byte :: tail) = length key + S (length tail))
    by (rewrite length_app; reflexivity).
  replace (length (key ++ "["%byte :: tail) =? 0) with false
    by (symmetry; apply Nat.eqb_neq; lia).
  rewrite parsePath_key by auto.
  replace (length key =? length (key ++ "["%byte :: tail)) with false
    by (symmetry; apply Nat.eqb_neq; lia).
  rewrite firstn_length_app.
  rewrite (parseFunction_other _ key "[" tail) by reflexivity.
  cbn [bind].
  rewrite (parseBrackets_range_more _ key s t c rest) by auto.
  reflexivity.
Qed.

Lemma parsePath_rejects_mid_range_witness :
  parsePath (list_byte_of_string "$.a[1:3].b")
  = Err "path: indefinite references are not yet supported".
Proof.
  exact (parsePath_rejects_mid_range
           [list_byte_of_string "$"] (list_byte_of_string "a")
           (list_byte_of_string "1") (list_byte_of_string "3") "."
           (list_byte_of_string "b") eq_refl eq_refl eq_refl eq_refl eq_refl).
Defined.

(** A single index followed by a dot: the token of the index is an array
    token that is not terminal, and the rest of the path is compiled as its
    successor; an error of the rest is the error of the whole. *)
Theorem parsePath_index_then (key s p : list byte) :
  plainKey key = true -> forallb isNumeral s = true ->
  parsePath (key ++ "["%byte :: s ++ "]"%byte :: "."%byte :: p)
  = (next <- parsePath p ;;
     Ret (mkToken (string_of_list_byte key)
            (if hasFlag next cFunction then Z.lor cArrayType cSubject
             else cArrayType)
            (numeralInt s) 0 (Some next))).
Proof.
  intros Hk Hs. rewrite parsePath_eq. unfold parsePath_body.
  set (tail := s ++ "]"%byte :: "."%byte :: p).
  assert (Hl : length (key ++ "["%byte :: tail) = length key + S (length tail))
    by (rewrite length_app; reflexivity).
  assert (Ht : length tail = length s + S (S (length p)))
    by (unfold tail; rewrite length_app; reflexivity).
  replace (length (key ++ "["%byte :: tail) =? 0) with false
    by (symmetry; apply Nat.eqb_neq; lia).
  rewrite parsePath_key by auto.
  replace (length key =? length (key ++ "["%byte :: tail)) with false
    by (symmetry; apply Nat.eqb_neq; lia).
  rewrite firstn_length_app.
  rewrite (parseFunction_other _ key "[" tail) by reflexivity.
  cbn [bind].
  rewrite (parseBrackets_index_more _ key s "." p) by auto.
  cbn [bind].
  match goal with |- context [hasFlag ?t cArrBounded && _] =>
    change (hasFlag t cArrBounded) with false end.
  cbn [andb]. cbn iota.
  rewrite (index_at _ (key ++ "["%byte :: s ++ ["]"%byte]) "." p);
    [|unfold tail; path_shape|path_pos].
  cbn [bind]. change (negb ("." =? ".")%byte) with false. cbn iota.
  replace (skipn (S (S (S (length key) + length s)))
             (key ++ "["%byte :: tail)) with p.
  - destruct (parsePath p) as [next| | |]; cbn [bind]; try reflexivity.
    destruct (hasFlag next cFunction); reflexivity.
  - replace (key ++ "["%byte :: tail)
      with ((key ++ "["%byte :: s ++ ["]"%byte]) ++ "."%byte :: p)
      by (unfold tail; path_shape).
    replace (S (S (length key) + length s))
      with (length (key ++ "["%byte :: s ++ ["]"%byte])) by path_pos.
    now rewrite skipn_length_app.
Qed.

Lemma parsePath_index_then_witness :
  parsePath (list_byte_of_string "a[-1].b")
  = Ret (mkToken "a" 1 (-1) 0 (Some (mkToken "b" 4 0 0 None))).
Proof.
  exact (parsePath_index_then
           (list_byte_of_string "a") (list_byte_of_string "-1")
           (list_byte_of_string "b") eq_refl eq_refl).
Defined.

(** ** What every compiled chain satisfies *)

Lemma parseFunction_shape_key (path : list byte) (tok : tToken) (i : nat)
  (r : tToken + tToken * nat) :
  Type_ tok = 0%Z -> Next tok = None ->
  parseFunction path tok i = Ret r ->
  match r with
  | inl t => Type_ t = 12%Z /\ Next t = None /\ isFunctionName (Key t)
  | inr (t, _) =>
      Next t = None
      /\ (Type_ t = 0%Z \/ (Type_ t = 8%Z /\ isFunctionName (Key t)))
  end.
Proof.
  intros Ht Hn. unfold parseFunction.
  destruct (index path i) as [c| | |]; cbn [bind]; try discriminate.
  destruct ((c =? "(")%byte && (i <? length path)).
  - destruct (index path (i + 1)) as [c1| | |]; cbn [bind]; try discriminate.
    destruct (c1 =? ")")%byte.
    + destruct ((Key tok =? "length")%string || (Key tok =? "size")%string)
        eqn:Hname; try discriminate.
      assert (Hfn : isFunctionName (Key tok)).
      { apply orb_prop in Hname as [H|H]; apply String.eqb_eq in H;
          [now left|now right]. }
      destruct (i + 2 =? length path); intros [= <-]; simpl; rewrite Ht; auto.
    + intros [= <-]. auto.
  - cbn [bind]. intros [= <-]. auto.
Qed.

Lemma parseBrackets_shape_key (path : list byte) (tok : tToken) (i : nat)
  (r : tToken + tToken * nat) :
  Type_ tok = 0%Z \/ (Type_ tok = 8%Z /\ isFunctionName (Key tok)) ->
  Next tok = None ->
  parseBrackets path tok i = Ret r ->
  match r with
  | inl t => (Type_ t = 5%Z \/ Type_ t = 7%Z) /\ Next t = None
  | inr (t, _) =>
      Next t = None
      /\ (Type_ t = 0%Z \/ (Type_ t = 8%Z /\ isFunctionName (Key t))
          \/ Type_ t = 1%Z \/ Type_ t = 3%Z)
  end.
Proof.
  intros Ht Hn. unfold parseBrackets.
  destruct (index path i) as [c| | |]; cbn [bind]; try discriminate.
  destruct (c =? "[")%byte; [|intros [= <-]; tauto].
  destruct (readNumber path (S i)) as [[ind j]| | |]; cbn [bind]; try discriminate.
  destruct (if j =? length path then Ret true
            else c0 <- index path j;; Ret (negb (c0 =? ":")%byte && negb (c0 =? "]")%byte))
    as [[|]| | |]; cbn [bind]; try discriminate.
  destruct (index path j) as [c1| | |]; cbn [bind]; try discriminate.
  destruct (c1 =? ":")%byte.
  - destruct (readNumber path (S j)) as [[ind2 ii]| | |]; cbn [bind];
      try discriminate.
    destruct ((ind2 =? 0)%Z && (S j <? ii)); try discriminate.
    destruct (if ii =? length path then Ret true
              else c0 <- index path ii;; Ret (negb (c0 =? "]")%byte))
      as [[|]| | |]; cbn [bind]; try discriminate.
    destruct (S ii =? length path); intros [= <-]; simpl; auto.
  - cbn [bind].
    destruct (S j =? length path); intros [= <-]; simpl; auto.
Qed.

Lemma tokenOk_of_type (tok : tToken) :
  (Type_ tok = 4%Z \/ Type_ tok = 5%Z \/ Type_ tok = 7%Z
   \/ Type_ tok = 0%Z \/ Type_ tok = 1%Z
   \/ ((Type_ tok = 12%Z \/ Type_ tok = 8%Z) /\ isFunctionName (Key tok))) ->
  tokenOk tok.
Proof.
  unfold tokenOk, hasFlag.
  intros [E|[E|[E|[E|[E|[[E|E] Hfn]]]]]]; rewrite E;
    repeat split; intros H; try discriminate H; auto.
Qed.

Lemma tokenOk_subject (t : tToken) (next : tToken) :
  Next t = None ->
  (Type_ t = 0%Z \/ (Type_ t = 8%Z /\ isFunctionName (Key t)) \/ Type_ t = 1%Z) ->
  hasFlag next cFunction = true ->
  tokenOk (orType (setNext t (Some next)) cSubject).
Proof.
  intros Hn Ht Hf. unfold tokenOk, hasFlag. simpl.
  destruct Ht as [E|[[E Hfn]|E]]; rewrite E;
    repeat split; intros H; try discriminate H; eauto.
Qed.

Lemma parsePath_rec_tokensOk (n : nat) :
  forall path root,
    parsePath_rec n path = Ret root -> Forall tokenOk (tokens root).
Proof.
  induction n as [|n IH]; intros path root; [discriminate|].
  cbn [parsePath_rec]. unfold parsePath_body.
  destruct (length path =? 0); try discriminate.
  destruct (scanKey (length path) path 0) as [i| | |]; cbn [bind];
    try discriminate.
  destruct (i =? length path).
  { intros [= <-]. rewrite tokens_unfold. cbn [Next orType setType setKey emptyToken].
    constructor; [|constructor]. apply tokenOk_of_type. now left. }
  set (tok0 := setKey emptyToken (string_of_list_byte (firstn i path))).
  destruct (parseFunction path tok0 i) as [r1| | |] eqn:F; cbn [bind];
    try discriminate.
  apply parseFunction_shape_key in F; [|reflexivity|reflexivity].
  destruct r1 as [t1|[t1 i1]].
  { intros [= <-]. destruct F as (Ht & Hn & Hfn).
    rewrite tokens_unfold, Hn. constructor; [|constructor].
    apply tokenOk_of_type. tauto. }
  destruct F as [Hn1 Ht1].
  destruct (parseBrackets path t1 i1) as [r2| | |] eqn:B; cbn [bind];
    try discriminate.
  apply parseBrackets_shape_key in B; [|assumption|assumption].
  destruct r2 as [t2|[t2 i2]].
  { intros [= <-]. destruct B as [Ht Hn].
    rewrite tokens_unfold, Hn. constructor; [|constructor].
    apply tokenOk_of_type. tauto. }
  destruct B as [Hn2 Ht2].
  destruct (hasFlag t2 cArrBounded && (Z.land (Type_ t2) cIsTerminal =? 0)%Z)
    eqn:Hb; try discriminate.
  assert (Ht2' : Type_ t2 = 0%Z \/ (Type_ t2 = 8%Z /\ isFunctionName (Key t2))
                 \/ Type_ t2 = 1%Z).
  { destruct Ht2 as [E|[E|[E|E]]]; auto.
    unfold hasFlag in Hb. rewrite E in Hb. discriminate Hb. }
  destruct (index path i2) as [c| | |]; cbn [bind]; try discriminate.
  destruct (negb (c =? ".")%byte); try discriminate.
  destruct (parsePath_rec n (skipn (S i2) path)) as [next| | |] eqn:R;
    cbn [bind]; try discriminate.
  apply IH in R. intros [= <-].
  destruct (hasFlag next cFunction) eqn:Hf; rewrite tokens_unfold; simpl;
    (constructor; [|exact R]).
  - now apply tokenOk_subject.
  - apply tokenOk_of_type. simpl. tauto.
Qed.

(** In every chain the compiler produces, a range selector is terminal, a
    function token is named length or size, and a token marked as function
    subject has a successor that is a function token: the evaluator never
    hands a nil token to doFunc. *)
Theorem parsePath_tokens_ok (path : list byte) (root : tToken) :
  parsePath path = Ret root -> Forall tokenOk (tokens root).
Proof. apply parsePath_rec_tokensOk. Qed.

Lemma parsePath_tokens_ok_witness :
  Forall tokenOk
    (tokens (mkToken "$" 0 0 0
               (Some (mkToken "a" 17 2 0
                        (Some (mkToken "size" 12 0 0 None)))))).
Proof.
  exact (parsePath_tokens_ok (list_byte_of_string "$.a[2].size()") _ eq_refl).
Defined.

(** ** Unsigned numerals *)

Lemma filter_all (s : list byte) :
  forallb isDigit s = true -> filter isDigit s = s.
Proof.
  induction s as [|a s IH]; simpl; [reflexivity|].
  intros H. apply andb_prop in H as [Ha Hs]. rewrite Ha. f_equal. auto.
Qed.

Lemma digits_no_minus (s : list byte) :
  forallb isDigit s = true ->
  existsb isMinus s = false /\ forallb isNumeral s = true.
Proof.
  induction s as [|a s IH]; simpl; [auto|].
  intros H. apply andb_prop in H as [Ha Hs]. destruct (IH Hs) as [H1 H2].
  unfold isNumeral at 1. rewrite (isDigit_not_minus a Ha), Ha, H1, H2. auto.
Qed.

(** On a numeral made of digits whose value fits an int, readNumber yields
    that value and the position just after the numeral; on the empty
    numeral it yields 0 and does not move. *)
Theorem readNumber_unsigned (pre s : list byte) (c : byte) (rest : list byte) :
  forallb isDigit s = true -> isNumeral c = false ->
  (decimal s < 2 ^ 63)%Z ->
  readNumber (pre ++ s ++ c :: rest) (length pre)
  = Ret (decimal s, length pre + length s).
Proof.
  intros Hs Hc Hlt. destruct (digits_no_minus s Hs) as [Hm Hn].
  rewrite (readNumber_at _ pre s c rest) by auto.
  rewrite numeralInt_small, Hm, filter_all by (rewrite ?filter_all; auto).
  reflexivity.
Qed.

Lemma readNumber_unsigned_witness :
  readNumber (list_byte_of_string "$[120]") 2 = Ret (120%Z, 5)
  /\ readNumber (list_byte_of_string "$[:3]") 2 = Ret (0%Z, 2).
Proof.
  split.
  - exact (readNumber_unsigned (list_byte_of_string "$[")
             (list_byte_of_string "120") "]" [] eq_refl eq_refl eq_refl).
  - exact (readNumber_unsigned (list_byte_of_string "$[") []
             ":" (list_byte_of_string "3]") eq_refl eq_refl eq_refl).
Defined.

(** * Further properties of the array selector *)

(** The two element scans, once they stand on a closing brace, never
    return: each round leaves the position where it was. *)
Theorem element_scans_stall_at_brace (input : list byte) (i : nat)
  (fuel : nat) (elems : list tElem) (result : Z) :
  index input i = Ret "}"%byte ->
  scanElems fuel input i "}" elems = Timeout
  /\ countElems fuel input i "}" result = Timeout.
Proof.
  intros Hi. split; [now apply scanElems_stalls|now apply countElems_stalls].
Qed.

Lemma element_scans_stall_at_brace_witness :
  index (json "[1}") 2 = Ret "}"%byte
  /\ scanElems 1000 (json "[1}") 2 "}" [] = Timeout
  /\ countElems 1000 (json "[1}") 2 "}" 0 = Timeout.
Proof.
  split; [reflexivity|].
  exact (element_scans_stall_at_brace (json "[1}") 2 1000 [] 0%Z eq_refl).
Defined.

Lemma spansFrom_weaken (l lo lo' : nat) (elems : list tElem) :
  lo' <= lo -> spansFrom l lo elems -> spansFrom l lo' elems.
Proof.
  destruct elems as [|e rest]; simpl; [auto|].
  intros Hle (H1 & H2 & H3 & H4). repeat split; auto. lia.
Qed.

Lemma scanElems_adds_spans (fuel : nat) (input : list byte) :
  forall i ch elems0 elems,
    scanElems fuel input i ch elems0 = Ret elems ->
    exists new, elems = elems0 ++ new /\ spansFrom (length input) i new.
Proof.
  induction fuel as [|fuel IH]; intros i ch elems0 elems; [discriminate|].
  cbn [scanElems].
  destruct ((i <? length input) && negb (ch =? "]")%byte).
  - destruct (skipValue input i) as [e| | |] eqn:V; cbn [bind]; try discriminate.
    destruct (skipSpaces input e) as [i'| | |] eqn:S'; cbn [bind];
      try discriminate.
    destruct (index input i') as [ch'| | |]; cbn [bind]; try discriminate.
    intros H. apply IH in H as (new & -> & Hnew).
    apply skipValue_bounds in V. apply skipSpaces_bounds in S'.
    exists (mkElem i e :: new). split; [now rewrite <- app_assoc|].
    simpl. repeat split; try lia.
    apply spansFrom_weaken with (lo := i'); [lia|assumption].
  - intros [= <-]. exists []. split; [now rewrite app_nil_r|exact I].
Qed.

(** The spans the element scan of sliceArray records lie after the opening
    bracket, follow one another without overlap, and each ends strictly
    inside the buffer. *)
Theorem scanElems_spans_in_order (fuel : nat) (input : list byte) (ch : byte)
  (elems : list tElem) :
  scanElems fuel input 1 ch [] = Ret elems ->
  spansFrom (length input) 1 elems.
Proof.
  intros H. apply scanElems_adds_spans in H as (new & -> & Hnew). exact Hnew.
Qed.

Lemma scanElems_spans_in_order_witness :
  scanElems 10 (json "[10, 'a' ,[2]]") 1 "1" []
  = Ret [mkElem 1 3; mkElem 5 8; mkElem 10 13]
  /\ spansFrom 14 1 [mkElem 1 3; mkElem 5 8; mkElem 10 13].
Proof.
  split; [reflexivity|].
  exact (scanElems_spans_in_order 10 (json "[10, 'a' ,[2]]") "1" _ eq_refl).
Defined.

(** * Results that are cut out of the input *)

Lemma reslice_within (h : heap) (s r : slice) (lo hi : nat) :
  wellFormed h s -> hi <= len s ->
  reslice s lo hi = Ret r ->
  within r s /\ wellFormed h r.
Proof.
  intros (Ha & Hl & Hc) Hhi. unfold reslice.
  destruct ((lo <=? hi) && (hi <=? cap s)) eqn:E; try discriminate.
  apply andb_prop in E as [E1 E2]. apply Nat.leb_le in E1, E2.
  intros [= <-]. unfold within, wellFormed, arrayOf in *. simpl.
  repeat split; try lia.
Qed.

Lemma within_trans (r s t : slice) : within r s -> within s t -> within r t.
Proof.
  unfold within. intros (H1 & H2 & H3) (H4 & H5 & H6).
  repeat split; try lia.
Qed.


(** The bytes of a window are the corresponding bytes of the slice around
    it. *)
Lemma within_bytes (h : heap) (r s : slice) :
  within r s ->
  bytes h r = firstn (len r) (skipn (off r - off s) (bytes h s)).
Proof.
  intros (Ha & Ho & Hl). unfold bytes, arrayOf. rewrite Ha.
  rewrite skipn_firstn_comm, firstn_firstn, skipn_skipn.
  replace (Nat.min (len r) (len s - (off r - off s))) with (len r) by lia.
  replace (off r - off s + off s) with (off r) by lia.
  reflexivity.
Qed.


Lemma getKeyValue_loop_inside (n : nat) (input : list byte) (key : string) :
  forall i j, getKeyValue_loop n input key i = Ret j -> j < length input.
Proof.
  induction n as [|n IH]; intros i j; cbn [getKeyValue_loop];
    destruct (i <? length input); try discriminate;
    destruct (index input i) as [c| | |]; cbn [bind]; try discriminate;
    destruct (negb (c =? "}")%byte); try discriminate.
  destruct (readKey_loop (length input) input i c keySeek [])
    as [[[i1 st] k]| | |]; cbn [bind]; try discriminate.
  destruct (isKeyClose st); [|apply IH].
  destruct (seekToValue input i1) as [i2| | |] eqn:V; cbn [bind];
    try discriminate.
  apply seekToValue_bounds in V.
  destruct (key =? string_of_list_byte k)%string.
  - intros [= <-]. lia.
  - destruct (skipValue input i2) as [i3| | |]; cbn [bind]; try discriminate.
    apply IH.
Qed.

Lemma getKeyValue_within (h : heap) (input s : slice) (key : string) :
  wellFormed h input ->
  getKeyValue h input key = Ret s ->
  within s input /\ wellFormed h s.
Proof.
  intros Hwf. pose proof (length_bytes _ _ Hwf) as Hlen. unfold getKeyValue.
  destruct (index (bytes h input) 0) as [c| | |]; cbn [bind]; try discriminate.
  destruct (negb (c =? "{")%byte); try discriminate.
  destruct (getKeyValue_loop (length (bytes h input)) (bytes h input) key 1)
    as [i| | |] eqn:L; cbn [bind]; try discriminate.
  apply getKeyValue_loop_inside in L.
  intros R. apply (reslice_within h) in R; auto.
Qed.






(** * The result of a range selector *)





(** * Looking up a key *)

Lemma skipSpaces_loop_at (ws : list byte) :
  forall (pre : list byte) (c : byte) (rest : list byte) (n : nat),
    forallb isSep ws = true -> isSep c = false -> length ws <= n ->
    skipSpaces_loop n (pre ++ ws ++ c :: rest) (length pre) (hd c ws)
    = Ret (length pre + length ws).
Proof.
  induction ws as [|a ws IH]; intros pre c rest n Hws Hc Hn; simpl in Hws.
  - cbn [hd]. destruct n; cbn [skipSpaces_loop];
      rewrite Hc, andb_false_r, Nat.add_0_r; reflexivity.
  - apply andb_prop in Hws as [Ha Hws].
    destruct n as [|n]; [simpl in Hn; lia|].
    cbn [skipSpaces_loop hd]. rewrite Ha.
    replace (length pre <? length (pre ++ (a :: ws) ++ c :: rest)) with true
      by (symmetry; apply Nat.ltb_lt; rewrite !length_app; simpl; lia).
    cbn [andb].
    rewrite (index_at _ (pre ++ [a]) (hd c ws) (tl (ws ++ c :: rest)))
      by (rewrite ?length_app; simpl; try lia;
          rewrite <- app_assoc; simpl; now destruct ws).
    cbn [bind].
    replace (pre ++ (a :: ws) ++ c :: rest) with ((pre ++ [a]) ++ ws ++ c :: rest)
      by (rewrite <- app_assoc; reflexivity).
    replace (S (length pre)) with (length (pre ++ [a]))
      by (rewrite length_app; simpl; lia).
    rewrite IH; auto; [|simpl in Hn; lia].
    rewrite length_app. simpl. f_equal. lia.
Qed.

(** skipSpaces on separators followed by another byte. *)
Lemma skipSpaces_at (input pre ws : list byte) (c : byte) (rest : list byte)
  (i : nat) :
  input = pre ++ ws ++ c :: rest -> i = length pre ->
  forallb isSep ws = true -> isSep c = false ->
  skipSpaces input i = Ret (i + length ws).
Proof.
  intros -> -> Hws Hc. unfold skipSpaces.
  rewrite (index_at _ pre (hd c ws) (tl (ws ++ c :: rest))) by (now destruct ws).
  cbn [bind].
  rewrite skipSpaces_loop_at; auto; [|rewrite !length_app; lia].
  cbn [bind].
  replace (length pre + length ws =? length (pre ++ ws ++ c :: rest)) with false
    by (symmetry; apply Nat.eqb_neq; rewrite !length_app; simpl; lia).
  reflexivity.
Qed.

Lemma skipValue_scalar_at (v : list byte) :
  forall (pre : list byte) (d : byte) (rest : list byte) (n : nat),
    forallb inScalar v = true -> isScalarEnd d = true -> length v <= n ->
    skipValue_scalar n (pre ++ v ++ d :: rest) (length pre) (hd d v)
    = Ret (length pre + length v).
Proof.
  induction v as [|a v IH]; intros pre d rest n Hv Hd Hn; simpl in Hv.
  - cbn [hd]. destruct n; cbn [skipValue_scalar];
      rewrite Hd; cbn [negb]; rewrite andb_false_r, Nat.add_0_r; reflexivity.
  - apply andb_prop in Hv as [Ha Hv]. unfold inScalar in Ha.
    destruct n as [|n]; [simpl in Hn; lia|].
    cbn [skipValue_scalar hd]. rewrite Ha.
    replace (length pre <? length (pre ++ (a :: v) ++ d :: rest)) with true
      by (symmetry; apply Nat.ltb_lt; rewrite !length_app; simpl; lia).
    cbn [andb].
    rewrite (index_at _ (pre ++ [a]) (hd d v) (tl (v ++ d :: rest)))
      by (rewrite ?length_app; simpl; try lia;
          rewrite <- app_assoc; simpl; now destruct v).
    cbn [bind].
    replace (pre ++ (a :: v) ++ d :: rest) with ((pre ++ [a]) ++ v ++ d :: rest)
      by (rewrite <- app_assoc; reflexivity).
    replace (S (length pre)) with (length (pre ++ [a]))
      by (rewrite length_app; simpl; lia).
    rewrite IH; auto; [|simpl in Hn; lia].
    rewrite length_app. simpl. f_equal. lia.
Qed.

Lemma inScalar_not_sep (b : byte) : inScalar b = true -> isSep b = false.
Proof.
  unfold inScalar, isScalarEnd, isSep.
  destruct (b =? " ")%byte, (b =? tab)%byte, (b =? newline)%byte,
    (b =? creturn)%byte, (b =? ",")%byte; simpl; congruence.
Qed.

(** skipValue on a number, a boolean or null standing at [i]: it returns
    the position of the delimiter that follows the value. *)
Lemma skipValue_scalar_here (input pre : list byte) (c : byte) (v : list byte)
  (d : byte) (rest : list byte) (i : nat) :
  input = pre ++ (c :: v) ++ d :: rest -> i = length pre ->
  forallb inScalar (c :: v) = true -> isScalarEnd d = true ->
  (c =? dquote)%byte = false -> (c =? "{")%byte = false ->
  (c =? "[")%byte = false ->
  skipValue input i = Ret (i + S (length v)).
Proof.
  intros Hin Hi Hv Hd Hq Hb Hk. unfold skipValue.
  assert (Hc : inScalar c = true) by (simpl in Hv; now apply andb_prop in Hv).
  rewrite (skipSpaces_at input pre [] c (v ++ d :: rest) i);
    [|assumption|assumption|reflexivity|now apply inScalar_not_sep].
  cbn [bind length]. rewrite Nat.add_0_r.
  rewrite (index_at input pre c (v ++ d :: rest)) by assumption.
  cbn [bind]. rewrite Hq, Hb, Hk. cbn [orb].
  subst input i.
  rewrite (skipValue_scalar_at (c :: v) pre d rest); auto.
  rewrite !length_app. simpl. lia.
Qed.

Lemma readKey_open_at (k : list byte) :
  forall (pre : list byte) (c : byte) (rest : list byte) (n : nat)
         (k0 : list byte),
    forallb notQuote k = true -> S (length k) <= n ->
    readKey_loop n (pre ++ k ++ dquote :: c :: rest) (length pre)
      (hd dquote k) keyOpen k0
    = Ret (S (length pre + length k), keyClose, k0 ++ k).
Proof.
  induction k as [|a k IH]; intros pre c rest n k0 Hk Hn; simpl in Hk.
  - destruct n as [|n]; [lia|]. cbn [readKey_loop hd isKeyClose negb].
    replace (length pre <? length (pre ++ [] ++ dquote :: c :: rest)) with true
      by (symmetry; apply Nat.ltb_lt; rewrite !length_app; simpl; lia).
    cbn [andb]. change (dquote =? dquote)%byte with true. cbn iota.
    rewrite (index_at _ (pre ++ [dquote]) c rest)
      by (rewrite ?length_app; simpl; try lia; now rewrite <- app_assoc).
    cbn [bind].
    destruct n; cbn [readKey_loop isKeyClose negb];
      rewrite andb_false_r, Nat.add_0_r, app_nil_r; reflexivity.
  - apply andb_prop in Hk as [Ha Hk]. unfold notQuote in Ha.
    apply negb_true_iff in Ha.
    destruct n as [|n]; [simpl in Hn; lia|].
    cbn [readKey_loop hd isKeyClose negb].
    replace (length pre <? length (pre ++ (a :: k) ++ dquote :: c :: rest))
      with true
      by (symmetry; apply Nat.ltb_lt; rewrite !length_app; simpl; lia).
    cbn [andb]. rewrite Ha. cbn iota.
    rewrite (index_at _ (pre ++ [a]) (hd dquote k) (tl (k ++ dquote :: c :: rest)))
      by (rewrite ?length_app; simpl; try lia;
          rewrite <- app_assoc; simpl; now destruct k).
    cbn [bind].
    replace (pre ++ (a :: k) ++ dquote :: c :: rest)
      with ((pre ++ [a]) ++ k ++ dquote :: c :: rest)
      by (rewrite <- app_assoc; reflexivity).
    replace (S (length pre)) with (length (pre ++ [a]))
      by (rewrite length_app; simpl; lia).
    rewrite IH; auto; [|simpl in Hn; lia].
    rewrite length_app, <- app_assoc. simpl. do 3 f_equal. lia.
Qed.

Lemma readKey_seek_at (junk : list byte) :
  forall (pre k : list byte) (c : byte) (rest : list byte) (n : nat),
    forallb notQuote junk = true -> forallb notQuote k = true ->
    length junk + length k + 2 <= n ->
    readKey_loop n (pre ++ junk ++ dquote :: k ++ dquote :: c :: rest)
      (length pre) (hd dquote junk) keySeek []
    = Ret (length pre + length junk + length k + 2, keyClose, k).
Proof.
  induction junk as [|a junk IH]; intros pre k c rest n Hj Hk Hn; simpl in Hj.
  - destruct n as [|n]; [lia|]. cbn [readKey_loop hd isKeyClose negb app].
    replace (length pre <? length (pre ++ dquote :: k ++ dquote :: c :: rest))
      with true
      by (symmetry; apply Nat.ltb_lt; rewrite !length_app; simpl; lia).
    cbn [andb]. change (dquote =? dquote)%byte with true. cbn iota.
    rewrite (index_at _ (pre ++ [dquote]) (hd dquote k)
               (tl (k ++ dquote :: c :: rest)))
      by (rewrite ?length_app; simpl; try lia;
          rewrite <- app_assoc; simpl; now destruct k).
    cbn [bind].
    replace (pre ++ dquote :: k ++ dquote :: c :: rest)
      with ((pre ++ [dquote]) ++ k ++ dquote :: c :: rest)
      by (rewrite <- app_assoc; reflexivity).
    replace (S (length pre)) with (length (pre ++ [dquote]))
      by (rewrite length_app; simpl; lia).
    rewrite readKey_open_at; auto; [|simpl in Hn; lia].
    rewrite length_app. simpl. do 3 f_equal. lia.
  - apply andb_prop in Hj as [Ha Hj]. unfold notQuote in Ha.
    apply negb_true_iff in Ha.
    destruct n as [|n]; [simpl in Hn; lia|].
    cbn [readKey_loop hd isKeyClose negb].
    replace (length pre
             <? length (pre ++ (a :: junk) ++ dquote :: k ++ dquote :: c :: rest))
      with true
      by (symmetry; apply Nat.ltb_lt; rewrite !length_app; simpl; lia).
    cbn [andb]. rewrite Ha. cbn iota.
    rewrite (index_at _ (pre ++ [a]) (hd dquote junk)
               (tl (junk ++ dquote :: k ++ dquote :: c :: rest)))
      by (rewrite ?length_app; simpl; try lia;
          rewrite <- app_assoc; simpl; now destruct junk).
    cbn [bind].
    replace (pre ++ (a :: junk) ++ dquote :: k ++ dquote :: c :: rest)
      with ((pre ++ [a]) ++ junk ++ dquote :: k ++ dquote :: c :: rest)
      by (rewrite <- app_assoc; reflexivity).
    replace (S (length pre)) with (length (pre ++ [a]))
      by (rewrite length_app; simpl; lia).
    rewrite IH; auto; [|simpl in Hn; lia].
    rewrite length_app. simpl. do 3 f_equal. lia.
Qed.

Lemma isSep_notQuote (ws : list byte) :
  forallb isSep ws = true -> forallb notQuote ws = true.
Proof.
  induction ws as [|a ws IH]; simpl; [reflexivity|].
  intros H. apply andb_prop in H as [Ha Hws]. rewrite IH by assumption.
  rewrite andb_true_r. unfold notQuote.
  destruct (a =? dquote)%byte eqn:E; [|reflexivity].
  apply Byte.byte_dec_bl in E. subst a. discriminate Ha.
Qed.

Lemma first_not_brace (junk : list byte) :
  forallb isSep junk = true -> (hd dquote junk =? "}")%byte = false.
Proof.
  destruct junk as [|a junk]; simpl; [reflexivity|].
  intros H. apply andb_prop in H as [Ha _].
  destruct (a =? "}")%byte eqn:E; [|reflexivity].
  apply Byte.byte_dec_bl in E. subst a. discriminate Ha.
Qed.

(** The first member of an object, up to the start of its value: the key
    reader gives the bytes between the quotes and seekToValue lands on the
    value. *)
Lemma first_member_seek (input junk kb ws1 ws2 : list byte) (c : byte)
  (rest : list byte) (ch : byte) :
  input = "{"%byte :: junk ++ dquote :: kb ++ dquote
          :: ws1 ++ ":"%byte :: ws2 ++ c :: rest ->
  forallb isSep junk = true -> forallb notQuote kb = true ->
  forallb isSep ws1 = true -> forallb isSep ws2 = true -> isSep c = false ->
  index input 1 = Ret (hd dquote junk)
  /\ readKey_loop (length input) input 1 (hd dquote junk) keySeek []
     = Ret (length junk + length kb + 3, keyClose, kb)
  /\ seekToValue input (length junk + length kb + 3)
     = Ret (length junk + length kb + length ws1 + length ws2 + 4).
Proof.
  intros Hin Hj Hk Hw1 Hw2 Hc.
  assert (Hlen : length input
                 = length junk + length kb + length ws1 + length ws2
                   + length rest + 5) by path_pos.
  split; [|split].
  - apply (index_at input ["{"%byte] (hd dquote junk)
             (tl (junk ++ dquote :: kb ++ dquote
                  :: ws1 ++ ":"%byte :: ws2 ++ c :: rest)));
      [subst input; simpl; now destruct junk|reflexivity].
  - pose proof (readKey_seek_at junk ["{"%byte] kb (hd ":"%byte ws1)
                  (tl (ws1 ++ ":"%byte :: ws2 ++ c :: rest)) (length input)
                  (isSep_notQuote _ Hj) Hk ltac:(lia)) as H.
    replace (["{"%byte] ++ junk ++ dquote :: kb ++ dquote :: hd ":"%byte ws1
             :: tl (ws1 ++ ":"%byte :: ws2 ++ c :: rest)) with input in H
      by (subst input; simpl; now destruct ws1).
    change (length ["{"%byte]) with 1 in H.
    rewrite H. do 3 f_equal. lia.
  - unfold seekToValue.
    rewrite (skipSpaces_at input
               ("{"%byte :: junk ++ dquote :: kb ++ [dquote]) ws1 ":"
               (ws2 ++ c :: rest) (length junk + length kb + 3));
      [|path_shape|path_pos|assumption|reflexivity].
    cbn [bind].
    rewrite (index_at input
               ("{"%byte :: junk ++ dquote :: kb ++ dquote :: ws1) ":"
               (ws2 ++ c :: rest));
      [|path_shape|path_pos].
    cbn [bind]. change (negb (":" =? ":")%byte) with false. cbn iota.
    rewrite (skipSpaces_at input
               ("{"%byte :: junk ++ dquote :: kb ++ dquote :: ws1 ++ [":"%byte])
               ws2 c rest);
      [|path_shape|path_pos|assumption|assumption].
    f_equal. lia.
Qed.

Lemma reslice_tail (h : heap) (s : slice) (i : nat) :
  wellFormed h s -> i <= len s ->
  exists r, reslice s i (len s) = Ret r
            /\ within r s /\ bytes h r = skipn i (bytes h s).
Proof.
  intros Hwf Hi. pose proof Hwf as (Ha & Hl & Hc).
  unfold reslice.
  replace ((i <=? len s) && (len s <=? cap s)) with true
    by (symmetry; apply andb_true_intro; split; apply Nat.leb_le; lia).
  eexists. split; [reflexivity|]. split.
  - unfold within. simpl. repeat split; lia.
  - unfold bytes, arrayOf. simpl.
    rewrite skipn_firstn_comm, skipn_skipn. f_equal. f_equal. lia.
Qed.

(* Shared with the end-to-end theorems on Get. *)
Lemma getKeyValue_first_member_holds (h : heap) (input : slice)
  (junk kb ws1 ws2 : list byte) (c : byte) (rest : list byte) :
  wellFormed h input ->
  bytes h input = "{"%byte :: junk ++ dquote :: kb ++ dquote
                  :: ws1 ++ ":"%byte :: ws2 ++ c :: rest ->
  forallb isSep junk = true -> forallb notQuote kb = true ->
  forallb isSep ws1 = true -> forallb isSep ws2 = true -> isSep c = false ->
  exists r, getKeyValue h input (string_of_list_byte kb) = Ret r
            /\ within r input /\ bytes h r = c :: rest.
Proof.
  intros Hwf Hin Hj Hk Hw1 Hw2 Hc.
  pose proof (length_bytes _ _ Hwf) as Hlen.
  destruct (first_member_seek _ _ _ _ _ _ _ c Hin Hj Hk Hw1 Hw2 Hc)
    as (H1 & HR & HS).
  assert (Hl : length (bytes h input)
               = length junk + length kb + length ws1 + length ws2
                 + length rest + 5) by (rewrite Hin; path_pos).
  set (i := length junk + length kb + length ws1 + length ws2 + 4) in *.
  destruct (reslice_tail h input i Hwf ltac:(lia)) as (r & Hr & W & Hb).
  exists r. split; [|split; [exact W|]].
  - unfold getKeyValue. rewrite Hin at 1. cbn [index nth_error bind].
    change (negb ("{" =? "{")%byte) with false. cbn iota.
    destruct (length (bytes h input)) as [|n] eqn:En; [lia|].
    cbn [getKeyValue_loop]. rewrite En.
    replace (1 <? S n) with true by (symmetry; apply Nat.ltb_lt; lia).
    rewrite H1. cbn [bind]. rewrite first_not_brace by assumption.
    cbn [negb]. rewrite HR. cbn [bind isKeyClose]. rewrite HS.
    cbn [bind]. rewrite String.eqb_refl. cbn [bind]. exact Hr.
  - rewrite Hb, Hin.
    replace ("{"%byte :: junk ++ dquote :: kb ++ dquote
             :: ws1 ++ ":"%byte :: ws2 ++ c :: rest)
      with (("{"%byte :: junk ++ dquote :: kb ++ dquote
             :: ws1 ++ ":"%byte :: ws2) ++ c :: rest) by path_shape.
    replace i with (length ("{"%byte :: junk ++ dquote :: kb ++ dquote
                            :: ws1 ++ ":"%byte :: ws2)) by (unfold i; path_pos).
    rewrite skipn_app, skipn_all, Nat.sub_diag. reflexivity.
Qed.

(** Looking up the key of the first member of an object gives the input
    from the value of that member on: a window on the input that starts at
    the first byte of the value.  Separators may stand before the key and
    around the colon; the key holds no quote. *)
Theorem getKeyValue_first_member (h : heap) (input : slice)
  (junk kb ws1 ws2 : list byte) (c : byte) (rest : list byte) :
  wellFormed h input ->
  bytes h input = "{"%byte :: junk ++ dquote :: kb ++ dquote
                  :: ws1 ++ ":"%byte :: ws2 ++ c :: rest ->
  forallb isSep junk = true -> forallb notQuote kb = true ->
  forallb isSep ws1 = true -> forallb isSep ws2 = true -> isSep c = false ->
  exists r, getKeyValue h input (string_of_list_byte kb) = Ret r
            /\ within r input /\ bytes h r = c :: rest.
Proof.
  eapply getKeyValue_first_member_holds; eassumption.
Qed.

Lemma getKeyValue_first_member_witness :
  let buf := json "{ 'name' : 'abc', 'n':1}" in
  exists r, getKeyValue [buf] (whole buf) "name" = Ret r
            /\ within r (whole buf)
            /\ bytes [buf] r = json "'abc', 'n':1}".
Proof.
  intros buf.
  apply (getKeyValue_first_member [buf] (whole buf)
           (json " ") (json "name") (json " ") (json " ") dquote
           (json "abc', 'n':1}"));
    [repeat split; simpl; lia|reflexivity..].
Defined.



(** * nextKey and sliceValue *)

Lemma nextKey_close_at (gap : list byte) :
  forall (pre rest : list byte) (n : nat) (key : list byte),
    forallb notColon gap = true -> S (length gap) <= n ->
    nextKey_loop n (pre ++ gap ++ ":"%byte :: rest) (length pre) keyCloseBit key
    = Ret (Some key, length pre + length gap + 1).
Proof.
  induction gap as [|a gap IH]; intros pre rest n key Hg Hn; simpl in Hg;
    (destruct n as [|n]; [simpl in Hn; lia|]); cbn [nextKey_loop].
  - replace (length pre <? length (pre ++ [] ++ ":"%byte :: rest)) with true
      by (symmetry; apply Nat.ltb_lt; rewrite !length_app; simpl; lia).
    rewrite (index_at _ pre ":" rest) by reflexivity.
    cbn [bind]. simpl. do 2 f_equal. lia.
  - apply andb_prop in Hg as [Ha Hg]. unfold notColon in Ha.
    apply negb_true_iff in Ha.
    replace (length pre <? length (pre ++ (a :: gap) ++ ":"%byte :: rest))
      with true
      by (symmetry; apply Nat.ltb_lt; rewrite !length_app; simpl; lia).
    rewrite (index_at _ pre a (gap ++ ":"%byte :: rest)) by reflexivity.
    cbn [bind].
    change (Z.land keyCloseBit keyOpenBit >? 0)%Z with false.
    change (Z.land keyCloseBit keySeekBit >? 0)%Z with false.
    change (Z.land keyCloseBit keyCloseBit >? 0)%Z with true.
    cbn [andb]. rewrite Ha. cbn iota.
    replace (pre ++ (a :: gap) ++ ":"%byte :: rest)
      with ((pre ++ [a]) ++ gap ++ ":"%byte :: rest)
      by (rewrite <- app_assoc; reflexivity).
    replace (S (length pre)) with (length (pre ++ [a]))
      by (rewrite length_app; simpl; lia).
    rewrite IH; auto; [|simpl in Hn; lia].
    rewrite length_app. simpl. do 2 f_equal. lia.
Qed.

Lemma nextKey_open_at (k : list byte) :
  forall (pre gap rest : list byte) (n : nat) (key : list byte),
    forallb notQuote k = true -> forallb notColon gap = true ->
    length k + length gap + 2 <= n ->
    nextKey_loop n (pre ++ k ++ dquote :: gap ++ ":"%byte :: rest)
      (length pre) keyOpenBit key
    = Ret (Some (key ++ k), length pre + length k + length gap + 2).
Proof.
  induction k as [|a k IH]; intros pre gap rest n key Hk Hg Hn; simpl in Hk;
    (destruct n as [|n]; [simpl in Hn; lia|]); cbn [nextKey_loop].
  - replace (length pre <? length (pre ++ [] ++ dquote :: gap ++ ":"%byte :: rest))
      with true
      by (symmetry; apply Nat.ltb_lt; rewrite !length_app; simpl; lia).
    rewrite (index_at _ pre dquote (gap ++ ":"%byte :: rest)) by reflexivity.
    cbn [bind].
    change (Z.land keyOpenBit keyOpenBit >? 0)%Z with true. cbn iota.
    change (dquote =? dquote)%byte with true. cbn iota.
    change (Z.lor (keyOpenBit - keyOpenBit) keyCloseBit) with keyCloseBit.
    replace (pre ++ [] ++ dquote :: gap ++ ":"%byte :: rest)
      with ((pre ++ [dquote]) ++ gap ++ ":"%byte :: rest)
      by (rewrite <- app_assoc; reflexivity).
    replace (S (length pre)) with (length (pre ++ [dquote]))
      by (rewrite length_app; simpl; lia).
    rewrite nextKey_close_at; auto; [|simpl in Hn; lia].
    rewrite length_app, app_nil_r. simpl. do 2 f_equal. lia.
  - apply andb_prop in Hk as [Ha Hk]. unfold notQuote in Ha.
    apply negb_true_iff in Ha.
    replace (length pre
             <? length (pre ++ (a :: k) ++ dquote :: gap ++ ":"%byte :: rest))
      with true
      by (symmetry; apply Nat.ltb_lt; rewrite !length_app; simpl; lia).
    rewrite (index_at _ pre a (k ++ dquote :: gap ++ ":"%byte :: rest))
      by reflexivity.
    cbn [bind].
    change (Z.land keyOpenBit keyOpenBit >? 0)%Z with true. cbn iota.
    rewrite Ha.
    replace (pre ++ (a :: k) ++ dquote :: gap ++ ":"%byte :: rest)
      with ((pre ++ [a]) ++ k ++ dquote :: gap ++ ":"%byte :: rest)
      by (rewrite <- app_assoc; reflexivity).
    replace (S (length pre)) with (length (pre ++ [a]))
      by (rewrite length_app; simpl; lia).
    rewrite IH; auto; [|simpl in Hn; lia].
    rewrite length_app, <- app_assoc. simpl. do 2 f_equal. lia.
Qed.

Lemma nextKey_seek_at (junk : list byte) :
  forall (pre k gap rest : list byte) (n : nat),
    forallb notQuote junk = true -> forallb notQuote k = true ->
    forallb notColon gap = true ->
    length junk + length k + length gap + 3 <= n ->
    nextKey_loop n (pre ++ junk ++ dquote :: k ++ dquote :: gap ++ ":"%byte :: rest)
      (length pre) keySeekBit []
    = Ret (Some k, length pre + length junk + length k + length gap + 3).
Proof.
  induction junk as [|a junk IH]; intros pre k gap rest n Hj Hk Hg Hn;
    simpl in Hj; (destruct n as [|n]; [simpl in Hn; lia|]); cbn [nextKey_loop].
  - replace (length pre
             <? length (pre ++ [] ++ dquote :: k ++ dquote :: gap ++ ":"%byte :: rest))
      with true
      by (symmetry; apply Nat.ltb_lt; rewrite !length_app; simpl; lia).
    rewrite (index_at _ pre dquote (k ++ dquote :: gap ++ ":"%byte :: rest))
      by reflexivity.
    cbn [bind].
    change (Z.land keySeekBit keyOpenBit >? 0)%Z with false. cbn iota.
    change (Z.land keySeekBit keySeekBit >? 0)%Z with true.
    change (dquote =? dquote)%byte with true. cbn [andb]. cbn iota.
    change (Z.lor (keySeekBit - keySeekBit) keyOpenBit) with keyOpenBit.
    replace (pre ++ [] ++ dquote :: k ++ dquote :: gap ++ ":"%byte :: rest)
      with ((pre ++ [dquote]) ++ k ++ dquote :: gap ++ ":"%byte :: rest)
      by (rewrite <- app_assoc; reflexivity).
    replace (S (length pre)) with (length (pre ++ [dquote]))
      by (rewrite length_app; simpl; lia).
    rewrite nextKey_open_at; auto; [|simpl in Hn; lia].
    rewrite length_app. simpl. do 2 f_equal. lia.
  - apply andb_prop in Hj as [Ha Hj]. unfold notQuote in Ha.
    apply negb_true_iff in Ha.
    replace (length pre
             <? length (pre ++ (a :: junk) ++ dquote :: k ++ dquote
                        :: gap ++ ":"%byte :: rest))
      with true
      by (symmetry; apply Nat.ltb_lt; rewrite !length_app; simpl; lia).
    rewrite (index_at _ pre a
               (junk ++ dquote :: k ++ dquote :: gap ++ ":"%byte :: rest))
      by reflexivity.
    cbn [bind].
    change (Z.land keySeekBit keyOpenBit >? 0)%Z with false. cbn iota.
    rewrite Ha, andb_false_r.
    change (Z.land keySeekBit keyCloseBit >? 0)%Z with false. cbn [andb]. cbn iota.
    replace (pre ++ (a :: junk) ++ dquote :: k ++ dquote :: gap ++ ":"%byte :: rest)
      with ((pre ++ [a]) ++ junk ++ dquote :: k ++ dquote :: gap ++ ":"%byte :: rest)
      by (rewrite <- app_assoc; reflexivity).
    replace (S (length pre)) with (length (pre ++ [a]))
      by (rewrite length_app; simpl; lia).
    rewrite IH; auto; [|simpl in Hn; lia].
    rewrite length_app. simpl. do 2 f_equal. lia.
Qed.

(** nextKey returns the bytes between the next two quotes as the key, and
    the position just after the first colon that follows the closing quote.
    What stands before the opening quote, and between the closing quote and
    the colon, is passed over. *)
Theorem nextKey_reads_key (input pre junk k gap rest : list byte) (i : nat) :
  input = pre ++ junk ++ dquote :: k ++ dquote :: gap ++ ":"%byte :: rest ->
  i = length pre ->
  forallb notQuote junk = true -> forallb notQuote k = true ->
  forallb notColon gap = true ->
  nextKey input i = Ret (Some k, i + length junk + length k + length gap + 3).
Proof.
  intros -> -> Hj Hk Hg. unfold nextKey.
  apply nextKey_seek_at; auto.
  rewrite !length_app. simpl. rewrite !length_app. simpl.
  rewrite !length_app. simpl. lia.
Qed.

Lemma nextKey_reads_key_witness :
  nextKey (json "{'a':1, 'key' : [2]}") 6 = Ret (Some (json "key"), 15).
Proof.
  exact (nextKey_reads_key (json "{'a':1, 'key' : [2]}")
           (json "{'a':1") (json ", ") (json "key") (json " ") (json " [2]}")
           6 eq_refl eq_refl eq_refl eq_refl eq_refl).
Defined.

Lemma nextKey_loop_returns (n : nat) (input : list byte) :
  forall i status key, length input - i <= n ->
    exists r j, nextKey_loop n input i status key = Ret (r, j)
                /\ i <= j
                /\ match r with
                   | None => length input <= j
                   | Some _ => j <= length input
                   end.
Proof.
  induction n as [|n IH]; intros i status key Hn; cbn [nextKey_loop];
    destruct (i <? length input) eqn:Hi;
    try (apply Nat.ltb_lt in Hi; exfalso; lia);
    try (apply Nat.ltb_ge in Hi; exists None, i;
         split; [reflexivity|split; lia]).
  apply Nat.ltb_lt in Hi.
  destruct (nth_error input i) as [ch|] eqn:E;
    [|apply nth_error_None in E; lia].
  unfold index. rewrite E. cbn [bind].
  assert (Hrec : forall st k,
             exists r j, nextKey_loop n input (S i) st k = Ret (r, j)
                         /\ i <= j
                         /\ match r with
                            | None => length input <= j
                            | Some _ => j <= length input
                            end).
  { intros st k. destruct (IH (S i) st k ltac:(lia)) as (r & j & H1 & H2 & H3).
    exists r, j. split; [assumption|split; [lia|assumption]]. }
  destruct (Z.land status keyOpenBit >? 0)%Z.
  - destruct (ch =? dquote)%byte; apply Hrec.
  - destruct ((Z.land status keySeekBit >? 0)%Z && (ch =? dquote)%byte);
      [apply Hrec|].
    destruct ((Z.land status keyCloseBit >? 0)%Z && (ch =? ":")%byte);
      [|apply Hrec].
    exists (Some key), (i + 1). split; [reflexivity|split; lia].
Qed.

(** nextKey returns on every buffer and from every position, also one past
    the end: it tests [i < l] before it reads [input[i]], so it neither
    panics nor fails.  With a key it returns a position inside the buffer or
    at its end; without one it returns nil and a position at or past the
    end. *)
Theorem nextKey_always_returns (input : list byte) (i : nat) :
  exists r j, nextKey input i = Ret (r, j)
              /\ i <= j
              /\ match r with
                 | None => length input <= j
                 | Some _ => j <= length input
                 end.
Proof. unfold nextKey. apply nextKey_loop_returns. lia. Qed.

(** sliceValue returns a window that starts where the input starts and
    shows its first bytes, up to the end of the first value. *)
Theorem sliceValue_prefix (h : heap) (input r : slice) :
  wellFormed h input ->
  sliceValue h input = Ret r ->
  within r input /\ off r = off input
  /\ bytes h r = firstn (len r) (bytes h input).
Proof.
  intros Hwf. unfold sliceValue.
  destruct (skipValue (bytes h input) 0) as [eoe| | |] eqn:V; cbn [bind];
    try discriminate.
  apply skipValue_bounds in V. rewrite (length_bytes _ _ Hwf) in V.
  intros R. pose proof R as R'.
  apply (reslice_within h) in R; [|assumption|lia]. destruct R as [W _].
  split; [exact W|].
  assert (Ho : off r = off input).
  { unfold reslice in R'.
    destruct ((0 <=? eoe) && (eoe <=? cap input)); try discriminate.
    injection R' as <-. simpl. lia. }
  split; [exact Ho|].
  rewrite (within_bytes h r input W), Ho, Nat.sub_diag. reflexivity.
Qed.

Lemma sliceValue_prefix_witness :
  let buf := json "{'a':[1]} , 2" in
  let r := mkSlice 0 0 9 13 in
  sliceValue [buf] (whole buf) = Ret r
  /\ within r (whole buf) /\ off r = off (whole buf)
  /\ bytes [buf] r = firstn (len r) (bytes [buf] (whole buf)).
Proof.
  intros buf r. split; [reflexivity|].
  apply (sliceValue_prefix [buf] (whole buf) r);
    [repeat split; simpl; lia|reflexivity].
Defined.

(** * Strings, and the functions length and size *)

Lemma last_cons (a : byte) (s : list byte) (d : byte) :
  last (a :: s) d = last s a.
Proof.
  revert a d. induction s as [|b s IH]; intros a d; [reflexivity|].
  change (last (a :: b :: s) d) with (last (b :: s) d).
  now rewrite (IH b d), (IH b a).
Qed.

Lemma skipString_loop_at (s : list byte) :
  forall (pre : list byte) (c : byte) (rest : list byte) (n : nat) (prev : byte),
    forallb notQuote s = true -> (last s prev =? backslash)%byte = false ->
    S (length s) <= n ->
    skipString_loop n (pre ++ s ++ dquote :: c :: rest) (length pre)
      (hd dquote s) prev false
    = Ret (S (length pre + length s)).
Proof.
  induction s as [|a s IH]; intros pre c rest n prev Hs Hl Hn; simpl in Hs;
    (destruct n as [|n]; [simpl in Hn; lia|]); cbn [skipString_loop hd negb].
  - replace (length pre <? length (pre ++ [] ++ dquote :: c :: rest)) with true
      by (symmetry; apply Nat.ltb_lt; rewrite !length_app; simpl; lia).
    cbn [andb]. change (dquote =? dquote)%byte with true.
    simpl in Hl. rewrite Hl. cbn [negb andb]. cbn iota.
    rewrite (index_at _ (pre ++ [dquote]) c rest)
      by (rewrite ?length_app; simpl; try lia; now rewrite <- app_assoc).
    cbn [bind]. rewrite skipString_loop_done. now rewrite Nat.add_0_r.
  - apply andb_prop in Hs as [Ha Hs]. unfold notQuote in Ha.
    apply negb_true_iff in Ha. rewrite last_cons in Hl.
    replace (length pre <? length (pre ++ (a :: s) ++ dquote :: c :: rest))
      with true
      by (symmetry; apply Nat.ltb_lt; rewrite !length_app; simpl; lia).
    cbn [andb]. rewrite Ha. cbn [andb]. cbn iota.
    rewrite (index_at _ (pre ++ [a]) (hd dquote s) (tl (s ++ dquote :: c :: rest)))
      by (rewrite ?length_app; simpl; try lia;
          rewrite <- app_assoc; simpl; now destruct s).
    cbn [bind].
    replace (pre ++ (a :: s) ++ dquote :: c :: rest)
      with ((pre ++ [a]) ++ s ++ dquote :: c :: rest)
      by (rewrite <- app_assoc; reflexivity).
    replace (S (length pre)) with (length (pre ++ [a]))
      by (rewrite length_app; simpl; lia).
    rewrite IH; auto; [|simpl in Hn; lia].
    rewrite length_app. simpl. f_equal. lia.
Qed.

(** skipString on a string whose content holds no quote and does not end in
    a backslash, followed by one more byte: it returns the position after
    the closing quote. *)
Lemma skipString_at (input pre s : list byte) (c : byte) (rest : list byte)
  (i : nat) :
  input = pre ++ dquote :: s ++ dquote :: c :: rest -> i = length pre ->
  forallb notQuote s = true -> (last s dquote =? backslash)%byte = false ->
  skipString input i = Ret (i + length s + 2).
Proof.
  intros -> -> Hs Hl. unfold skipString.
  rewrite (index_at _ (pre ++ [dquote]) (hd dquote s)
             (tl (s ++ dquote :: c :: rest)))
    by (rewrite ?length_app; simpl; try lia;
        rewrite <- app_assoc; simpl; now destruct s).
  cbn [bind].
  replace (pre ++ dquote :: s ++ dquote :: c :: rest)
    with ((pre ++ [dquote]) ++ s ++ dquote :: c :: rest)
    by (rewrite <- app_assoc; reflexivity).
  replace (S (length pre)) with (length (pre ++ [dquote]))
    by (rewrite length_app; simpl; lia).
  rewrite skipString_loop_at; auto; [|path_pos].
  cbn [bind].
  replace (S (length (pre ++ [dquote]) + length s)
           =? length ((pre ++ [dquote]) ++ s ++ dquote :: c :: rest)) with false
    by (symmetry; apply Nat.eqb_neq; rewrite !length_app; simpl; lia).
  rewrite length_app. simpl. f_equal. lia.
Qed.

Lemma skipValue_string_here (input pre s : list byte) (c : byte)
  (rest : list byte) (i : nat) :
  input = pre ++ dquote :: s ++ dquote :: c :: rest -> i = length pre ->
  forallb notQuote s = true -> (last s dquote =? backslash)%byte = false ->
  skipValue input i = Ret (i + length s + 2).
Proof.
  intros Hin Hi Hs Hl. unfold skipValue.
  rewrite (skipSpaces_at input pre [] dquote (s ++ dquote :: c :: rest) i);
    [|assumption|assumption|reflexivity|reflexivity].
  cbn [bind length]. rewrite Nat.add_0_r.
  rewrite (index_at input pre dquote (s ++ dquote :: c :: rest)) by assumption.
  cbn [bind]. change (dquote =? dquote)%byte with true. cbn iota.
  now apply (skipString_at input pre s c rest).
Qed.




(** * Get on the first member of an object *)

Lemma reslice_whole (s : slice) :
  len s <= cap s -> reslice s 0 (len s) = Ret s.
Proof.
  intros H. unfold reslice.
  replace ((0 <=? len s) && (len s <=? cap s)) with true
    by (symmetry; apply andb_true_intro; split; apply Nat.leb_le; lia).
  destruct s as [a o l c]. simpl. rewrite Nat.add_0_r, !Nat.sub_0_r. reflexivity.
Qed.

(** getValue does not move on a buffer that starts with an opening brace. *)
Lemma getValue_enter_object (h : heap) (input : slice) (rest : list byte) :
  wellFormed h input ->
  bytes h input = "{"%byte :: rest ->
  getValue_enter h input = Ret input.
Proof.
  intros Hwf Hin. pose proof (length_bytes _ _ Hwf) as Hlen.
  rewrite Hin in Hlen. simpl in Hlen.
  unfold getValue_enter.
  rewrite (skipSpaces_at (bytes h input) [] [] "{" rest 0);
    [|assumption|reflexivity|reflexivity|reflexivity].
  cbn [bind Nat.add length].
  rewrite reslice_whole by (destruct Hwf as (_ & H & _); exact H).
  cbn [bind].
  replace (len input =? 0) with false by (symmetry; apply Nat.eqb_neq; lia).
  rewrite Hin. reflexivity.
Qed.

(** The root token [$] in front of a member access hands the whole object
    to its successor. *)
Lemma getValue_root (fuel : nat) (h : heap) (input : slice) (b : byte)
  (rest : list byte) (next : tToken) :
  wellFormed h input ->
  bytes h input = "{"%byte :: b :: rest ->
  getValue fuel h input (mkToken "$" 0 0 0 (Some next))
  = getValue fuel h input next.
Proof.
  intros Hwf Hin. rewrite getValue_unfold.
  rewrite (getValue_enter_object h input (b :: rest)) by assumption.
  cbn [bind Key String.eqb Ascii.eqb Bool.eqb negb].
  unfold checkValueType. rewrite Hin. reflexivity.
Qed.

(** The lookup at the head of getValue, on an object whose first member has
    the key of the token. *)
Lemma getValue_lookup (h : heap) (input : slice) (key : string)
  (junk kb ws1 ws2 : list byte) (c : byte) (rest : list byte)
  (A : Type) (k : slice -> outcome A) :
  wellFormed h input ->
  bytes h input = "{"%byte :: junk ++ dquote :: kb ++ dquote
                  :: ws1 ++ ":"%byte :: ws2 ++ c :: rest ->
  forallb isSep junk = true -> forallb notQuote kb = true ->
  forallb isSep ws1 = true -> forallb isSep ws2 = true -> isSep c = false ->
  key = string_of_list_byte kb -> (key =? "$")%string = false ->
  exists r, within r input /\ wellFormed h r /\ bytes h r = c :: rest
    /\ (input1 <- getValue_enter h input ;;
        input2 <- (if negb (key =? "$")%string
                   then getKeyValue h input1 key else Ret input1) ;;
        k input2) = k r.
Proof.
  intros Hwf Hin Hj Hk Hw1 Hw2 Hc -> Hne.
  destruct (getKeyValue_first_member_holds h input junk kb ws1 ws2 c rest
              Hwf Hin Hj Hk Hw1 Hw2 Hc) as (r & Hr & W & Hb).
  exists r. split; [exact W|].
  split; [now apply getKeyValue_within in Hr|]. split; [exact Hb|].
  rewrite (getValue_enter_object h input _ Hwf Hin). cbn [bind].
  rewrite Hne. cbn [negb]. rewrite Hr. reflexivity.
Qed.

(** Get with the path [$.key] on an object whose first member has that key
    and a number, a boolean or null as value, followed by a byte that ends
    it: the result is a window on the buffer showing exactly the bytes of
    the value, and the buffer is untouched. *)
Theorem Get_member_scalar (fuel : nat) (h : heap) (input : slice)
  (junk kb ws1 ws2 : list byte) (c : byte) (v : list byte) (d : byte)
  (rest : list byte) :
  wellFormed h input ->
  bytes h input = "{"%byte :: junk ++ dquote :: kb ++ dquote
                  :: ws1 ++ ":"%byte :: ws2 ++ (c :: v) ++ d :: rest ->
  forallb isSep junk = true -> forallb isSep ws1 = true ->
  forallb isSep ws2 = true ->
  plainKey kb = true -> forallb notQuote kb = true -> kb <> [] ->
  (string_of_list_byte kb =? "$")%string = false ->
  forallb inScalar (c :: v) = true -> isScalarEnd d = true ->
  (c =? dquote)%byte = false -> (c =? "{")%byte = false ->
  (c =? "[")%byte = false ->
  exists r,
    Get fuel h input (string_of_list_byte ("$"%byte :: "."%byte :: kb))
    = Ret (r, h)
    /\ within r input /\ bytes h r = c :: v.
Proof.
  intros Hwf Hin Hj Hw1 Hw2 Hpk Hnq Hne Hdollar Hv Hd Hq Hb Hbr.
  assert (Hc : isSep c = false).
  { apply inScalar_not_sep. simpl in Hv. now apply andb_prop in Hv. }
  unfold Get. rewrite list_byte_of_string_of_list_byte.
  cbn [index nth_error bind]. change (negb ("$" =? "$")%byte) with false.
  cbn iota.
  pose proof (parsePath_names_holds [["$"%byte]] kb eq_refl Hpk Hne) as Hp.
  cbn [dotted map concat app memberChain fold_right] in Hp.
  rewrite Hp. cbn [bind].
  change (string_of_list_byte ["$"%byte]) with "$".
  rewrite (getValue_root fuel h input (hd dquote junk)
             (tl (junk ++ dquote :: kb ++ dquote
                  :: ws1 ++ ":"%byte :: ws2 ++ (c :: v) ++ d :: rest)))
    by (try assumption; rewrite Hin; now destruct junk).
  rewrite getValue_unfold. cbn [Key Next].
  destruct (getValue_lookup h input (string_of_list_byte kb)
              junk kb ws1 ws2 c (v ++ d :: rest) _
              (fun input2 =>
                 _ <- checkValueType (bytes h input2)
                        (mkToken (string_of_list_byte kb) cIsTerminal 0 0 None) ;;
                 eoe <- skipValue (bytes h input2) 0 ;;
                 r <- reslice input2 0 eoe ;; Ret (r, h))
              Hwf Hin Hj Hnq Hw1 Hw2 Hc eq_refl Hdollar)
    as (r & W & F & Hbytes & Heq).
  change (hasFlag (mkToken (string_of_list_byte kb) cIsTerminal 0 0 None) cSubject)
    with false.
  change (hasFlag (mkToken (string_of_list_byte kb) cIsTerminal 0 0 None)
            cIsTerminal) with true.
  change (hasFlag (mkToken (string_of_list_byte kb) cIsTerminal 0 0 None)
            cArrayType) with false.
  cbn iota. rewrite Heq. rewrite Hbytes.
  unfold checkValueType.
  replace (length (c :: v ++ d :: rest) <? 2) with false
    by (symmetry; apply Nat.ltb_ge; simpl; rewrite length_app; simpl; lia).
  change (hasFlag (mkToken (string_of_list_byte kb) cIsTerminal 0 0 None) cSubject)
    with false.
  cbn [index nth_error bind Type_].
  change (Z.land cIsTerminal cIsTerminal =? 0)%Z with false.
  rewrite !andb_false_r. cbn [bind].
  rewrite (skipValue_scalar_here (c :: v ++ d :: rest) [] c v d rest 0)
    by (auto; reflexivity).
  cbn [bind Nat.add].
  destruct (reslice r 0 (S (length v))) as [r'| | |] eqn:R.
  - pose proof (length_bytes _ _ F) as Hlr. rewrite Hbytes in Hlr.
    simpl in Hlr. rewrite length_app in Hlr. simpl in Hlr.
    pose proof R as R'.
    apply (reslice_within h) in R; [|assumption|lia]. destruct R as [W' _].
    exists r'. cbn [bind]. split; [reflexivity|].
    split; [eauto using within_trans|].
    assert (Ho : off r' = off r /\ len r' = S (length v)).
    { unfold reslice in R'.
      destruct ((0 <=? S (length v)) && (S (length v) <=? cap r));
        try discriminate.
      injection R' as <-. simpl. lia. }
    destruct Ho as [Ho Hl'].
    rewrite (within_bytes h r' r W'), Ho, Nat.sub_diag, Hl', Hbytes.
    cbn [skipn firstn]. f_equal.
    rewrite <- (Nat.add_0_r (length v)), firstn_app_2. cbn [firstn].
    apply app_nil_r.
  - exfalso. unfold reslice in R.
    destruct ((0 <=? S (length v)) && (S (length v) <=? cap r)); discriminate.
  - exfalso. pose proof (length_bytes _ _ F) as Hlr. rewrite Hbytes in Hlr.
    simpl in Hlr. rewrite length_app in Hlr. simpl in Hlr.
    destruct F as (_ & Hlc & _). unfold reslice in R.
    replace ((0 <=? S (length v)) && (S (length v) <=? cap r)) with true in R
      by (symmetry; apply andb_true_intro; split; apply Nat.leb_le; lia).
    discriminate.
  - exfalso. unfold reslice in R.
    destruct ((0 <=? S (length v)) && (S (length v) <=? cap r)); discriminate.
Qed.

Lemma Get_member_scalar_witness :
  let buf := json "{ 'n' : -12.5e3 ,'m':[1]}" in
  exists r, Get 0 [buf] (whole buf) "$.n" = Ret (r, [buf])
            /\ within r (whole buf)
            /\ bytes [buf] r = json "-12.5e3".
Proof.
  intros buf.
  apply (Get_member_scalar 0 [buf] (whole buf)
           (json " ") (json "n") (json " ") (json " ") "-" (json "12.5e3") " "
           (json ",'m':[1]}"));
    try reflexivity; [repeat split; simpl; lia|discriminate].
Defined.

Lemma reslice_prefix (h : heap) (r : slice) (a b : list byte) :
  wellFormed h r -> bytes h r = a ++ b ->
  exists r', reslice r 0 (length a) = Ret r'
             /\ within r' r /\ bytes h r' = a.
Proof.
  intros Hwf Hb. pose proof (length_bytes _ _ Hwf) as Hl.
  rewrite Hb, length_app in Hl. pose proof Hwf as (_ & Hlc & _).
  unfold reslice.
  replace ((0 <=? length a) && (length a <=? cap r)) with true
    by (symmetry; apply andb_true_intro; split; apply Nat.leb_le; lia).
  eexists. split; [reflexivity|].
  assert (W : within (mkSlice (arr r) (off r + 0) (length a - 0) (cap r - 0)) r)
    by (unfold within; simpl; repeat split; lia).
  split; [exact W|].
  rewrite (within_bytes h _ r W). cbn [off len].
  replace (off r + 0 - off r) with 0 by lia.
  rewrite Nat.sub_0_r, Hb. cbn [skipn].
  rewrite <- (Nat.add_0_r (length a)), firstn_app_2. cbn [firstn].
  apply app_nil_r.
Qed.

(** Get with the path [$.key] on an object whose first member has that key
    and a string as value: the result shows the string with its two quotes.
    The content of the string holds no quote and does not end in a
    backslash, and one more byte follows the closing quote. *)
Theorem Get_member_string (fuel : nat) (h : heap) (input : slice)
  (junk kb ws1 ws2 s : list byte) (d : byte) (rest : list byte) :
  wellFormed h input ->
  bytes h input = "{"%byte :: junk ++ dquote :: kb ++ dquote
                  :: ws1 ++ ":"%byte :: ws2
                     ++ dquote :: s ++ dquote :: d :: rest ->
  forallb isSep junk = true -> forallb isSep ws1 = true ->
  forallb isSep ws2 = true ->
  plainKey kb = true -> forallb notQuote kb = true -> kb <> [] ->
  (string_of_list_byte kb =? "$")%string = false ->
  forallb notQuote s = true -> (last s dquote =? backslash)%byte = false ->
  exists r,
    Get fuel h input (string_of_list_byte ("$"%byte :: "."%byte :: kb))
    = Ret (r, h)
    /\ within r input /\ bytes h r = dquote :: s ++ [dquote].
Proof.
  intros Hwf Hin Hj Hw1 Hw2 Hpk Hnq Hne Hdollar Hs Hl.
  unfold Get. rewrite list_byte_of_string_of_list_byte.
  cbn [index nth_error bind]. change (negb ("$" =? "$")%byte) with false.
  cbn iota.
  pose proof (parsePath_names_holds [["$"%byte]] kb eq_refl Hpk Hne) as Hp.
  cbn [dotted map concat app memberChain fold_right] in Hp.
  rewrite Hp. cbn [bind].
  change (string_of_list_byte ["$"%byte]) with "$".
  rewrite (getValue_root fuel h input (hd dquote junk)
             (tl (junk ++ dquote :: kb ++ dquote
                  :: ws1 ++ ":"%byte :: ws2
                     ++ dquote :: s ++ dquote :: d :: rest)))
    by (try assumption; rewrite Hin; now destruct junk).
  rewrite getValue_unfold. cbn [Key Next].
  destruct (getValue_lookup h input (string_of_list_byte kb)
              junk kb ws1 ws2 dquote (s ++ dquote :: d :: rest) _
              (fun input2 =>
                 _ <- checkValueType (bytes h input2)
                        (mkToken (string_of_list_byte kb) cIsTerminal 0 0 None) ;;
                 eoe <- skipValue (bytes h input2) 0 ;;
                 r <- reslice input2 0 eoe ;; Ret (r, h))
              Hwf Hin Hj Hnq Hw1 Hw2 eq_refl eq_refl Hdollar)
    as (r & W & F & Hbytes & Heq).
  change (hasFlag (mkToken (string_of_list_byte kb) cIsTerminal 0 0 None) cSubject)
    with false.
  change (hasFlag (mkToken (string_of_list_byte kb) cIsTerminal 0 0 None)
            cIsTerminal) with true.
  change (hasFlag (mkToken (string_of_list_byte kb) cIsTerminal 0 0 None)
            cArrayType) with false.
  cbn iota. rewrite Heq. rewrite Hbytes.
  unfold checkValueType.
  replace (length (dquote :: s ++ dquote :: d :: rest) <? 2) with false
    by (symmetry; apply Nat.ltb_ge; simpl; rewrite length_app; simpl; lia).
  change (hasFlag (mkToken (string_of_list_byte kb) cIsTerminal 0 0 None) cSubject)
    with false.
  cbn [index nth_error bind Type_].
  change (Z.land cIsTerminal cIsTerminal =? 0)%Z with false.
  rewrite !andb_false_r. cbn [bind].
  rewrite (skipValue_string_here (dquote :: s ++ dquote :: d :: rest) [] s d rest 0)
    by (auto; reflexivity).
  cbn [bind Nat.add].
  destruct (reslice_prefix h r (dquote :: s ++ [dquote]) (d :: rest) F)
    as (r' & R & W' & Hb').
  { rewrite Hbytes. simpl. now rewrite <- app_assoc. }
  replace (length s + 2) with (length (dquote :: s ++ [dquote]))
    by (simpl; rewrite length_app; simpl; lia).
  rewrite R. cbn [bind].
  exists r'. split; [reflexivity|]. split; [eauto using within_trans|exact Hb'].
Qed.

Lemma Get_member_string_witness :
  let buf := json "{'name':'abc'}" in
  exists r, Get 0 [buf] (whole buf) "$.name" = Ret (r, [buf])
            /\ within r (whole buf)
            /\ bytes [buf] r = json "'abc'".
Proof.
  intros buf.
  apply (Get_member_string 0 [buf] (whole buf)
           [] (json "name") [] [] (json "abc") "}" []);
    try reflexivity; [repeat split; simpl; lia|discriminate].
Defined.



(** * Containers without a nested container of their own kind *)

Lemma skipValue_nested_at (content : list byte) :
  forall (pre : list byte) (mark unmark : byte) (rest : list byte) (n : nat)
         (instr : bool) (prev : byte),
    forallb (notMark mark unmark) content = true -> length content <= n ->
    skipValue_nested n (pre ++ content ++ unmark :: rest) mark unmark
      (length pre) (hd unmark content) 0 instr prev
    = Ret (length pre + length content).
Proof.
  induction content as [|a content IH];
    intros pre mark unmark rest n instr prev Hc Hn; simpl in Hc.
  - cbn [hd]. destruct n; cbn [skipValue_nested];
      rewrite Byte.byte_dec_lb by reflexivity;
      change (0 =? 0)%Z with true; cbn [andb negb];
      rewrite andb_false_r, Nat.add_0_r; reflexivity.
  - apply andb_prop in Hc as [Ha Hc]. unfold notMark in Ha.
    apply andb_prop in Ha as [Hm Hu]. apply negb_true_iff in Hm, Hu.
    destruct n as [|n]; [simpl in Hn; lia|].
    cbn [skipValue_nested hd].
    replace (length pre <? length (pre ++ (a :: content) ++ unmark :: rest))
      with true
      by (symmetry; apply Nat.ltb_lt; rewrite !length_app; simpl; lia).
    rewrite Hu, Hm. cbn [andb negb].
    rewrite (index_at _ (pre ++ [a]) (hd unmark content)
               (tl (content ++ unmark :: rest)))
      by (rewrite ?length_app; simpl; try lia;
          rewrite <- app_assoc; simpl; now destruct content).
    replace (pre ++ (a :: content) ++ unmark :: rest)
      with ((pre ++ [a]) ++ content ++ unmark :: rest)
      by (rewrite <- app_assoc; reflexivity).
    replace (S (length pre)) with (length (pre ++ [a]))
      by (rewrite length_app; simpl; lia).
    destruct (a =? dquote)%byte; [|destruct (negb instr)]; cbn [bind];
      (rewrite IH; auto; [|simpl in Hn; lia]);
      rewrite length_app; simpl; f_equal; lia.
Qed.

(* Shared with the end-to-end theorems on Get. *)
Lemma skipValue_flat_container_holds (input pre : list byte) (mark unmark : byte)
  (content rest : list byte) (i : nat) :
  input = pre ++ mark :: content ++ unmark :: rest -> i = length pre ->
  (mark = "{"%byte /\ unmark = "}"%byte) \/ (mark = "["%byte /\ unmark = "]"%byte) ->
  forallb (notMark mark unmark) content = true ->
  skipValue input i = Ret (i + length content + 2).
Proof.
  intros Hin Hi Hm Hc. unfold skipValue.
  assert (Hsep : isSep mark = false) by (destruct Hm as [[-> _]|[-> _]]; reflexivity).
  rewrite (skipSpaces_at input pre [] mark (content ++ unmark :: rest) i);
    [|assumption|assumption|reflexivity|assumption].
  cbn [bind length]. rewrite Nat.add_0_r.
  rewrite (index_at input pre mark (content ++ unmark :: rest)) by assumption.
  cbn [bind].
  assert (Hq : (mark =? dquote)%byte = false)
    by (destruct Hm as [[-> _]|[-> _]]; reflexivity).
  assert (Hb : (mark =? "{")%byte || (mark =? "[")%byte = true)
    by (destruct Hm as [[-> _]|[-> _]]; reflexivity).
  assert (Hu : byte_add mark 2 = unmark)
    by (destruct Hm as [[-> ->]|[-> ->]]; reflexivity).
  rewrite Hq, Hb, Hu.
  rewrite (index_at input (pre ++ [mark]) (hd unmark content)
             (tl (content ++ unmark :: rest)))
    by (subst; rewrite ?length_app; simpl; try lia;
        rewrite <- app_assoc; simpl; now destruct content).
  cbn [bind].
  subst input i.
  replace (pre ++ mark :: content ++ unmark :: rest)
    with ((pre ++ [mark]) ++ content ++ unmark :: rest)
    by (rewrite <- app_assoc; reflexivity).
  replace (S (length pre)) with (length (pre ++ [mark]))
    by (rewrite length_app; simpl; lia).
  rewrite skipValue_nested_at; auto; [|path_pos].
  cbn [bind].
  replace (length (pre ++ [mark]) + length content
           =? length ((pre ++ [mark]) ++ content ++ unmark :: rest)) with false
    by (symmetry; apply Nat.eqb_neq; path_pos).
  f_equal. path_pos.
Qed.

(** skipValue on an object that holds no brace, or an array that holds no
    bracket, between its opening and its closing mark: it returns the
    position just after the closing mark, whatever else the content holds,
    and also when the closing mark is the last byte of the buffer. *)
Theorem skipValue_flat_container (input pre : list byte) (mark unmark : byte)
  (content rest : list byte) (i : nat) :
  input = pre ++ mark :: content ++ unmark :: rest -> i = length pre ->
  (mark = "{"%byte /\ unmark = "}"%byte) \/ (mark = "["%byte /\ unmark = "]"%byte) ->
  forallb (notMark mark unmark) content = true ->
  skipValue input i = Ret (i + length content + 2).
Proof.
  eapply skipValue_flat_container_holds; eassumption.
Qed.

Lemma skipValue_flat_container_witness :
  skipValue (json " {'a':[1,2],'b':'x'}") 1 = Ret 20
  /\ skipValue (json "[{'a':1},{'b':2}] ") 0 = Ret 17.
Proof.
  split.
  - exact (skipValue_flat_container (json " {'a':[1,2],'b':'x'}") (json " ")
             "{" "}" (json "'a':[1,2],'b':'x'") [] 1 eq_refl eq_refl
             (or_introl (conj eq_refl eq_refl)) eq_refl).
  - exact (skipValue_flat_container (json "[{'a':1},{'b':2}] ") []
             "[" "]" (json "{'a':1},{'b':2}") (json " ") 0 eq_refl eq_refl
             (or_intror (conj eq_refl eq_refl)) eq_refl).
Defined.

(** Get with the path [$] on a buffer that holds, after separators, an
    object without a brace inside or an array without a bracket inside:
    the result is a window on the buffer showing the container from its
    opening to its closing mark, and the buffer is untouched. *)
Theorem Get_root_flat_container (fuel : nat) (h : heap) (input : slice)
  (ws : list byte) (mark unmark : byte) (content rest : list byte) :
  wellFormed h input ->
  bytes h input = ws ++ mark :: content ++ unmark :: rest ->
  forallb isSep ws = true ->
  (mark = "{"%byte /\ unmark = "}"%byte) \/ (mark = "["%byte /\ unmark = "]"%byte) ->
  forallb (notMark mark unmark) content = true ->
  exists r, Get fuel h input "$" = Ret (r, h)
            /\ within r input
            /\ bytes h r = mark :: content ++ [unmark].
Proof.
  intros Hwf Hin Hws Hm Hc.
  assert (Hsep : isSep mark = false) by (destruct Hm as [[-> _]|[-> _]]; reflexivity).
  pose proof (length_bytes _ _ Hwf) as Hlen.
  assert (Hl : length (bytes h input)
               = length ws + length content + length rest + 2)
    by (rewrite Hin; path_pos).
  destruct (reslice_tail h input (length ws) Hwf ltac:(lia)) as (r1 & R1 & W1 & B1).
  assert (F1 : wellFormed h r1)
    by (apply (reslice_within h) in R1; [tauto|assumption|lia]).
  assert (Hb1 : bytes h r1 = mark :: content ++ unmark :: rest).
  { rewrite B1, Hin, skipn_app, skipn_all, Nat.sub_diag. reflexivity. }
  destruct (reslice_prefix h r1 (mark :: content ++ [unmark]) rest F1)
    as (r & R & W & Hb).
  { rewrite Hb1. simpl. now rewrite <- app_assoc. }
  exists r. split; [|split; [eauto using within_trans|exact Hb]].
  unfold Get. cbn [list_byte_of_string index nth_error bind].
  change (parsePath (list_byte_of_string "$"))
    with (@Ret tToken (mkToken "$" cIsTerminal 0 0 None)).
  cbn [bind]. rewrite getValue_unfold. unfold getValue_enter.
  rewrite (skipSpaces_at (bytes h input) [] ws mark
             (content ++ unmark :: rest) 0);
    [|assumption|reflexivity|assumption|assumption].
  cbn [bind Nat.add]. rewrite R1. cbn [bind].
  pose proof (length_bytes _ _ F1) as Hl1. rewrite Hb1 in Hl1. simpl in Hl1.
  replace (len r1 =? 0) with false by (symmetry; apply Nat.eqb_neq; lia).
  rewrite Hb1. cbn [index nth_error bind].
  replace (negb (mark =? "{")%byte && negb (mark =? "[")%byte) with false
    by (destruct Hm as [[-> _]|[-> _]]; reflexivity).
  cbn [bind Key String.eqb Ascii.eqb Bool.eqb negb].
  unfold checkValueType. rewrite Hb1.
  replace (length (mark :: content ++ unmark :: rest) <? 2) with false
    by (symmetry; apply Nat.ltb_ge; simpl; rewrite length_app; simpl; lia).
  change (hasFlag (mkToken "$" cIsTerminal 0 0 None) cSubject) with false.
  change (hasFlag (mkToken "$" cIsTerminal 0 0 None) cIsTerminal) with true.
  change (hasFlag (mkToken "$" cIsTerminal 0 0 None) cArrayType) with false.
  cbn [index nth_error bind Type_].
  change (Z.land cIsTerminal cIsTerminal =? 0)%Z with false.
  rewrite !andb_false_r. cbn [bind].
  rewrite (skipValue_flat_container_holds (mark :: content ++ unmark :: rest) []
             mark unmark content rest 0) by auto.
  cbn [bind Nat.add].
  replace (length content + 2) with (length (mark :: content ++ [unmark]))
    by (simpl; rewrite length_app; simpl; lia).
  rewrite R. reflexivity.
Qed.

Lemma Get_root_flat_container_witness :
  let buf := json " , {'a':[1,2],'b':'x'} tail" in
  exists r, Get 0 [buf] (whole buf) "$" = Ret (r, [buf])
            /\ within r (whole buf)
            /\ bytes [buf] r = json "{'a':[1,2],'b':'x'}".
Proof.
  intros buf.
  apply (Get_root_flat_container 0 [buf] (whole buf) (json " , ")
           "{" "}" (json "'a':[1,2],'b':'x'") (json " tail"));
    try reflexivity; [repeat split; simpl; lia|now left].
Defined.

(** * The empty array *)

(** In an array written [[]] no index and no range exists: a selector of
    either kind fails with the error that names the requested bounds. *)
Theorem sliceArray_empty_array (fuel : nat) (h : heap) (input : slice)
  (tok : tToken) (rest : list byte) :
  bytes h input = "["%byte :: "]"%byte :: rest ->
  sliceArray (S fuel) h input tok
  = Err (if (Z.land (Type_ tok) cArrBounded =? 0)%Z
         then Key tok ++ "[" ++ Itoa (Left tok) ++ "] does not exist"
         else Key tok ++ "[" ++ Itoa (Left tok) ++ ":" ++ Itoa (Right tok)
              ++ "] does not exist").
Proof.
  intros Hin. unfold sliceArray. rewrite Hin.
  cbn [index nth_error bind]. change (negb ("[" =? "[")%byte) with false.
  cbn iota. cbn [scanElems].
  change (negb ("]" =? "]")%byte) with false. rewrite andb_false_r.
  cbn [bind length Z.of_nat].
  destruct (Z.land (Type_ tok) cArrBounded =? 0)%Z.
  - replace (((if (Left tok <? 0)%Z then wrap (Left tok + 0) else Left tok) <? 0)%Z
             || ((if (Left tok <? 0)%Z then wrap (Left tok + 0) else Left tok) >=? 0)%Z)
      with true; [reflexivity|].
    symmetry. apply orb_true_iff.
    destruct ((if (Left tok <? 0)%Z then wrap (Left tok + 0) else Left tok) <? 0)%Z
      eqn:E; [now left|right].
    apply Z.ltb_ge in E. apply Z.geb_le. lia.
  - match goal with |- (if ?a || ?b || ?c || ?d then _ else _) = _ =>
      replace (a || b) with true; [reflexivity|] end.
    symmetry. apply orb_true_iff.
    destruct ((if (Left tok <? 0)%Z then wrap (Left tok + 0) else Left tok) <? 0)%Z
      eqn:E; [now left|right].
    apply Z.ltb_ge in E. apply Z.geb_le. lia.
Qed.

Lemma sliceArray_empty_array_witness :
  let buf := json "[]}" in
  sliceArray 1 [buf] (whole buf) (mkToken "arr" 5 0 0 None)
  = Err "arr[0] does not exist".
Proof.
  intros buf.
  exact (sliceArray_empty_array 0 [buf] (whole buf) (mkToken "arr" 5 0 0 None)
           (json "}") eq_refl).
Defined.

(** * Termination of the scans and of the compiler *)

(** Every loop of the file except the two element scans moves forward in
    each round, and parsePath calls itself on a strictly shorter path: the
    scanners, the number reader, the key lookup and the path compiler return
    (a value, an error or a panic) on every input. *)
Theorem scans_and_compiler_terminate (h : heap) (s : slice) (key : string)
  (input : list byte) (i : nat) :
  skipSpaces input i <> Timeout
  /\ skipString input i <> Timeout
  /\ skipValue input i <> Timeout
  /\ seekToValue input i <> Timeout
  /\ readNumber input i <> Timeout
  /\ parsePath input <> Timeout
  /\ getKeyValue h s key <> Timeout.
Proof.
  repeat split.
  - apply skipSpaces_returns.
  - apply skipString_returns.
  - apply skipValue_returns.
  - apply seekToValue_returns.
  - apply readNumber_returns.
  - apply parsePath_returns.
  - apply getKeyValue_returns.
Qed.
